(** * The DeepSeek-OCR client: renderer script and main process

    A shallow embedding of the streaming annotation engine of the renderer
    script ([parseBoxesFromTokens], [extractTextFromTokens], [renderBoxes]
    and the token-polling part of [performOCR]), together with the properties
    the specification states about them, and of the code around it:
    [getServerUrl], the progress bar of [loadModel], the flag [isProcessing],
    [viewBoxesImage], [downloadZip], the image links of [displayResults],
    [showMessage], the end of [cleanTextForTTS], and, in the main process,
    [startPythonServer] and the size fields of the OCR handlers.

    Conventions of the embedding:
    - a JavaScript string is its sequence of UTF-16 code units, a [list N];
    - a JavaScript number is its exact value: a rational, one of the two
      infinities, or NaN, where a property is about which elements are built
      and what they hold; where a property is about the arithmetic itself
      (the projection of a box in C6, the sizes that [parseInt] reads) it is
      a binary64 number, [Binary64.t], with the rounding of every operation
      and the sign of zero;
    - the overlay element ([ocrBoxesOverlay]) is the list of its child groups
      plus its [viewBox] attribute; the module variable [lastBoxCount] is a
      field of the same state;
    - the event loop is a step function over the events that can interleave:
      inside one OCR operation, between the operations of the page, and
      inside the start of the Python server. *)

From Stdlib Require Import String Ascii QArith Qcanon DecimalString SpecFloat.
From stdpp Require Import base numbers list gmap.

Local Open Scope nat_scope.

(** ** Strings *)

Module JsString.

(** A string as the sequence of its code units. *)
Abbreviation t := (list N).

(** The code units of a literal of the source text (all of them ASCII). *)
Definition js (s : string) : t := N_of_ascii <$> list_ascii_of_string s.

(** One-character literals. *)
Definition chr (a : ascii) : N := N_of_ascii a.

Global Arguments js : simpl never.
Global Arguments chr : simpl never.

(** WhiteSpace and LineTerminator code units, the ones [trim] and
    [parseFloat] strip: TAB, LF, VT, FF, CR, SP, NBSP, U+1680,
    U+2000..U+200A, U+2028, U+2029, U+202F, U+205F, U+3000, U+FEFF. *)
Definition isWhiteSpace (c : N) : bool :=
  (bool_decide (c ∈ [9; 10; 11; 12; 13; 32; 160; 5760; 8232; 8233; 8239;
                     8287; 12288; 65279]%N)
   || ((8192 <=? c) && (c <=? 8202))%N).

Fixpoint trimStart (s : t) : t :=
  match s with
  | c :: s' => if isWhiteSpace c then trimStart s' else s
  | [] => []
  end.

Definition trimEnd (s : t) : t := reverse (trimStart (reverse s)).

(** [String.prototype.trim]. *)
Definition trim (s : t) : t := trimEnd (trimStart s).

(** [s.substring(start, end)] for non-negative integer arguments; [None]
    for an omitted [end].  Both indices are clamped to the length and
    swapped when they come in the wrong order. *)
Definition substring (s : t) (start : nat) (end_ : option nat) : t :=
  let len := length s in
  let finalStart := start `min` len in
  let finalEnd := from_option (λ e, e `min` len) len end_ in
  let from := finalStart `min` finalEnd in
  let to := finalStart `max` finalEnd in
  take (to - from) (drop from s).

(** [s.split(sep)] for a one-character separator: the pieces between
    consecutive separators, empty pieces included; never the empty list. *)
Fixpoint split (sep : N) (s : t) : list t :=
  match s with
  | [] => [[]]
  | c :: s' =>
      if bool_decide (c = sep) then [] :: split sep s'
      else match split sep s' with
           | piece :: pieces => (c :: piece) :: pieces
           | [] => [[c]]
           end
  end.

(** [pieces.join(sep)]. *)
Fixpoint join (sep : t) (pieces : list t) : t :=
  match pieces with
  | [] => []
  | [p] => p
  | p :: ps => p ++ sep ++ join sep ps
  end.

(** [s.startsWith(l)], returning what follows the prefix. *)
Fixpoint stripPrefix (l s : t) : option t :=
  match l, s with
  | [], _ => Some s
  | a :: l', b :: s' => if bool_decide (a = b) then stripPrefix l' s' else None
  | _ :: _, [] => None
  end.

End JsString.

Import JsString.

(** ** The regular expression of the token format

    [/<\|ref\|>([^<]+)<\|\/ref\|><\|det\|>\[\[([^\]]+)\]\]<\|\/det\|>/g]
    is a sequence of literal runs and of two capturing groups, each a greedy
    [+] over a negated one-character class. *)

Module RegExp.

Inductive node : Type :=
| Lit (l : JsString.t)      (* a run of literal characters *)
| NotPlus (c : N).          (* the capturing group ([^c]+) *)

(** Length of the longest run of characters other than [c] at the head. *)
Fixpoint runLength (c : N) (s : JsString.t) : nat :=
  match s with
  | x :: s' => if bool_decide (x = c) then 0 else S (runLength c s')
  | [] => 0
  end.

(** The backtracking matcher: anchored at the head of [s], it returns the
    captures, left to right, and the unconsumed rest.  A greedy [+] first
    takes the longest run and gives characters back one at a time while the
    continuation fails; it never takes fewer than one. *)
Fixpoint matchNodes (p : list node) (s : JsString.t)
  : option (list JsString.t * JsString.t) :=
  match p with
  | [] => Some ([], s)
  | Lit l :: p' =>
      match stripPrefix l s with
      | Some s' => matchNodes p' s'
      | None => None
      end
  | NotPlus c :: p' =>
      (fix giveBack (k : nat) : option (list JsString.t * JsString.t) :=
         match k with
         | 0 => None
         | S k' =>
             match matchNodes p' (drop k s) with
             | Some (caps, rest) => Some (take k s :: caps, rest)
             | None => giveBack k'
             end
         end) (runLength c s)
  end.

(** A RegExp object with the global flag: its pattern and [lastIndex]. *)
Record obj : Type := mkObj { source : list node; lastIndex : nat }.

(** The match result of [exec]: [index], the whole match [m[0]] and the
    captures [m[1]], [m[2]], ... *)
Record result : Type := mkResult {
  index : nat;
  whole : JsString.t;
  captures : list JsString.t
}.

(** The search of [exec]: try the pattern at [i], then at [i+1], ... up to
    and including the end of the input; [suffix] is the input from [i]. *)
Fixpoint search (p : list node) (suffix : JsString.t) (i : nat) : option result :=
  match matchNodes p suffix with
  | Some (caps, rest) =>
      Some (mkResult i (take (length suffix - length rest) suffix) caps)
  | None =>
      match suffix with
      | _ :: suffix' => search p suffix' (S i)
      | [] => None
      end
  end.

(** [re.exec(s)] for a global RegExp: the search starts at [lastIndex]; a
    match moves [lastIndex] to its end, a failure resets it to 0. *)
Definition exec (re : obj) (s : JsString.t) : option result * obj :=
  if bool_decide (length s < lastIndex re) then (None, mkObj (source re) 0)
  else
    match search (source re) (drop (lastIndex re) s) (lastIndex re) with
    | Some m => (Some m, mkObj (source re) (index m + length (whole m)))
    | None => (None, mkObj (source re) 0)
    end.

(** [m[g]] for a capture group number [g >= 1]; the two groups of the
    pattern below always take part in a match. *)
Definition group (m : result) (g : nat) : JsString.t :=
  default [] (captures m !! (g - 1)).

End RegExp.

Definition refDetRegex : list RegExp.node :=
  [ RegExp.Lit (js "<|ref|>"); RegExp.NotPlus (chr "<");
    RegExp.Lit (js "<|/ref|><|det|>[["); RegExp.NotPlus (chr "]");
    RegExp.Lit (js "]]<|/det|>") ].


(** ** Numbers *)

Module Number.

(** The value of a JavaScript number: NaN, plus or minus Infinity, or a
    finite value, kept exact. *)
Inductive t : Type :=
| NaN
| Infinity (negative : bool)
| Finite (q : Qc).

Definition ofZ (z : Z) : t := Finite (Qc_of_Z z).
Definition ofNat (n : nat) : t := ofZ (Z.of_nat n).

(** [isNaN(n)]. *)
Definition isNaN (n : t) : bool :=
  match n with NaN => true | _ => false end.

(** [!n]: zero and NaN are the falsy numbers. *)
Definition falsy (n : t) : bool :=
  match n with
  | NaN => true
  | Finite q => bool_decide (q = 0%Qc)
  | Infinity _ => false
  end.

Definition isNegative (q : Qc) : bool := bool_decide (q < 0)%Qc.

(** [x * y]. *)
Definition mul (x y : t) : t :=
  match x, y with
  | NaN, _ | _, NaN => NaN
  | Finite a, Finite b => Finite (a * b)
  | Infinity s, Infinity s' => Infinity (xorb s s')
  | Infinity s, Finite b | Finite b, Infinity s =>
      if bool_decide (b = 0%Qc) then NaN else Infinity (xorb s (isNegative b))
  end.

(** [x / y]. *)
Definition div (x y : t) : t :=
  match x, y with
  | NaN, _ | _, NaN => NaN
  | Finite a, Finite b =>
      if bool_decide (b = 0%Qc)
      then (if bool_decide (a = 0%Qc) then NaN else Infinity (isNegative a))
      else Finite (a / b)
  | Finite _, Infinity _ => Finite 0
  | Infinity s, Finite b => Infinity (xorb s (isNegative b))
  | Infinity _, Infinity _ => NaN
  end.

(** [x - y]. *)
Definition sub (x y : t) : t :=
  match x, y with
  | NaN, _ | _, NaN => NaN
  | Finite a, Finite b => Finite (a - b)
  | Infinity s, Finite _ => Infinity s
  | Finite _, Infinity s => Infinity (negb s)
  | Infinity s, Infinity s' => if bool_decide (s = s') then NaN else Infinity s
  end.

(** [10 ** z] for an integer [z]. *)
Definition pow10 (z : Z) : Qc :=
  if bool_decide (0 ≤ z)%Z then Qc_of_Z (10 ^ z) else (/ Qc_of_Z (10 ^ (- z)))%Qc.

Definition isDigit (c : N) : bool := ((48 <=? c) && (c <=? 57))%N.

(** The longest run of decimal digits at the head, and what follows it. *)
Fixpoint spanDigits (s : JsString.t) : JsString.t * JsString.t :=
  match s with
  | c :: s' =>
      if isDigit c then let '(ds, rest) := spanDigits s' in (c :: ds, rest)
      else ([], s)
  | [] => ([], [])
  end.

(** The value of a run of decimal digits. *)
Definition digitsValue (ds : JsString.t) : Z :=
  foldl (λ acc d, 10 * acc + (Z.of_N d - 48))%Z 0%Z ds.

(** An optional sign at the head: is it a minus, and what follows. *)
Definition spanSign (s : JsString.t) : bool * JsString.t :=
  match s with
  | 43%N :: s' => (false, s')
  | 45%N :: s' => (true, s')
  | _ => (false, s)
  end.

(** The value of an ExponentPart at the head ([e] or [E], an optional sign,
    at least one digit); 0 when there is none. *)
Definition exponentPart (s : JsString.t) : Z :=
  match s with
  | c :: s' =>
      if bool_decide (c = 101%N ∨ c = 69%N) then
        let '(neg, s'') := spanSign s' in
        match spanDigits s'' with
        | ([], _) => 0%Z
        | (ds, _) => if neg then (- digitsValue ds)%Z else digitsValue ds
        end
      else 0%Z
  | [] => 0%Z
  end.

(** [parseFloat(s)]: leading white space is skipped, then the longest prefix
    that is a StrDecimalLiteral is read: an optional sign followed by
    [Infinity], by digits with an optional fraction, or by a fraction with at
    least one digit, then an optional exponent.  NaN when no prefix fits. *)
Definition parseFloat (s : JsString.t) : t :=
  let '(neg, s1) := spanSign (trimStart s) in
  match stripPrefix (js "Infinity") s1 with
  | Some _ => Infinity neg
  | None =>
      let '(intDigits, s2) := spanDigits s1 in
      let '(fracDigits, s3) :=
        match s2 with
        | 46%N :: s2' =>
            let '(fd, s3) := spanDigits s2' in
            match intDigits, fd with
            | [], [] => ([], s2)
            | _, _ => (fd, s3)
            end
        | _ => ([], s2)
        end in
      match intDigits, fracDigits with
      | [], [] => NaN
      | _, _ =>
          let mantissa := digitsValue (intDigits ++ fracDigits) in
          let scale := (exponentPart s3 - Z.of_nat (length fracDigits))%Z in
          let magnitude := (Qc_of_Z mantissa * pow10 scale)%Qc in
          Finite (if neg then (- magnitude)%Qc else magnitude)
      end
  end.

End Number.

(** ** Binary64 numbers *)

Module Binary64.

(** A JavaScript number as the engine holds it: a binary64 number, with its
    sign, its 53-digit mantissa and its exponent, or a signed zero, a signed
    infinity or NaN.  The operations are those of the standard library's
    specification of IEEE 754 arithmetic, at precision 53 and maximal
    exponent 1024, rounding to nearest with ties to even. *)
Definition prec : Z := 53.
Definition emax : Z := 1024.

Definition t : Type := spec_float.

(** [x * y] and [x / y]. *)
Definition mul : t → t → t := SFmul prec emax.
Definition div : t → t → t := SFdiv prec emax.
(** [-x] and [Math.abs(x)]. *)
Definition opp : t → t := SFopp.

(** The binary64 number nearest to an integer. *)
Definition ofZ (z : Z) : t := binary_normalize prec emax z 0 false.



(** [isNaN(x)]. *)
Definition isNaN (x : t) : bool :=
  match x with S754_nan => true | _ => false end.

Definition isZero (x : t) : bool :=
  match x with S754_zero _ => true | _ => false end.

(** [!x]: the two zeros and NaN are the falsy numbers. *)
Definition falsy (x : t) : bool := isNaN x || isZero x.





End Binary64.

(** ** Constants of the renderer *)

Definition DEEPSEEK_COORD_MAX : Number.t := Number.ofZ 999.

Definition KNOWN_TYPES : list JsString.t :=
  [ js "title"; js "sub_title"; js "text"; js "table"; js "image";
    js "image_caption"; js "figure"; js "caption"; js "formula"; js "list" ].

(** The own properties of the object literal [TYPE_COLORS]. *)
Definition TYPE_COLORS : gmap (list N) (list N) :=
  list_to_map
    [ (js "title", js "#8B5CF6"); (js "sub_title", js "#A78BFA");
      (js "text", js "#3B82F6"); (js "table", js "#F59E0B");
      (js "image", js "#EC4899"); (js "figure", js "#06B6D4");
      (js "caption", js "#10B981"); (js "image_caption", js "#4EC483");
      (js "formula", js "#EF4444"); (js "list", js "#6366F1") ].

(** ** parseBoxesFromTokens *)

(** An entry of the local array [matches]. *)
Record MatchData : Type := mkMatchData {
  md_content : JsString.t;
  coords : JsString.t;
  matchStart : nat;
  matchEnd : nat
}.

(** An element of the returned array [boxes]. *)
Record Box : Type := mkBox {
  content : JsString.t;
  textContent : JsString.t;
  isType : bool;
  type : JsString.t;
  x1 : Number.t;
  y1 : Number.t;
  x2 : Number.t;
  y2 : Number.t;
  isComplete : bool
}.

(** The object pushed for one result of [exec]. *)
Definition matchDataOf (m : RegExp.result) : MatchData :=
  {| md_content := trim (RegExp.group m 1);
     coords := RegExp.group m 2;
     matchStart := RegExp.index m;
     matchEnd := RegExp.index m + length (RegExp.whole m) |}.

(** The [while ((match = refDetRegex.exec(tokenText)) !== null)] loop.  The
    fuel bounds the number of calls of [exec]; [None] means it ran out. *)
Fixpoint collectMatches (fuel : nat) (re : RegExp.obj) (tokenText : JsString.t)
    (matches : list MatchData) : option (list MatchData * RegExp.obj) :=
  match fuel with
  | 0 => None
  | S fuel' =>
      match RegExp.exec re tokenText with
      | (Some m, re') => collectMatches fuel' re' tokenText (matches ++ [matchDataOf m])
      | (None, re') => Some (matches, re')
      end
  end.

(** [matchData.coords.split(',').map(s => parseFloat(s.trim())).filter(n => !isNaN(n))]. *)
Definition parseCoords (coordString : JsString.t) : list Number.t :=
  filter (λ n, Number.isNaN n = false)
         ((λ s, Number.parseFloat (trim s)) <$> split (chr ",") coordString).

(** The text after box [i] and its completion flag. *)
Definition trailingOf (tokenText : JsString.t) (isOcrComplete : bool)
    (matches : list MatchData) (i : nat) (matchData : MatchData)
  : option (JsString.t * bool) :=
  if bool_decide (i < length matches - 1) then
    (* not the last box: the text between this box and the next one;
       [matches[i + 1]] is always there on this branch *)
    next ← matches !! (i + 1);
    let textContent :=
      trim (substring tokenText (matchEnd matchData) (Some (matchStart next))) in
    Some (textContent, bool_decide (0 < length textContent))
  else
    (* the last box: everything after it *)
    let textContent := trim (substring tokenText (matchEnd matchData) None) in
    Some (textContent, isOcrComplete && bool_decide (0 < length textContent)).

(** The body of the [for] loop at index [i]: the box to push, if any.  The
    test [coords.length === 4] and the four reads [coords[0..3]] are one
    pattern match. *)
Definition boxAt (tokenText : JsString.t) (isOcrComplete : bool)
    (matches : list MatchData) (i : nat) : option Box :=
  matchData ← matches !! i;
  let content := md_content matchData in
  match parseCoords (coords matchData) with
  | [c0; c1; c2; c3] =>
      let isType := bool_decide (content ∈ KNOWN_TYPES) in
      '(textContent, isComplete) ← trailingOf tokenText isOcrComplete matches i matchData;
      Some {| content := content;
              textContent := textContent;
              isType := isType;
              type := if isType then content else js "text";
              x1 := c0; y1 := c1; x2 := c2; y2 := c3;
              isComplete := isComplete |}
  | _ => None
  end.

(** The [for (let i = 0; i < matches.length; i++)] loop, pushing to [boxes]. *)
Definition processMatches (tokenText : JsString.t) (isOcrComplete : bool)
    (matches : list MatchData) : list Box :=
  foldl (λ boxes i,
           match boxAt tokenText isOcrComplete matches i with
           | Some box => boxes ++ [box]
           | None => boxes
           end)
        [] (seq 0 (length matches)).

(** A fresh RegExp object for the literal inside the function. *)
Definition newRefDetRegex : RegExp.obj := RegExp.mkObj refDetRegex 0.

(** The function with an explicit bound on the iterations of its first loop. *)
Definition parseBoxesFromTokens_fuel (fuel : nat) (tokenText : JsString.t)
    (isOcrComplete : bool) : option (list Box) :=
  '(matches, _) ← collectMatches fuel newRefDetRegex tokenText [];
  Some (processMatches tokenText isOcrComplete matches).

(** The array [matches] after the first loop.  Each match is at least one
    character long, so one more call of [exec] than the text has characters
    is enough (lemma [collectMatches_terminates]). *)
Definition matchesOf (tokenText : JsString.t) : list MatchData :=
  from_option fst [] (collectMatches (S (length tokenText)) newRefDetRegex tokenText []).

Definition parseBoxesFromTokens (tokenText : JsString.t) (isOcrComplete : bool)
  : list Box :=
  processMatches tokenText isOcrComplete (matchesOf tokenText).

(** [extractTextFromTokens]; [isOcrComplete] takes its default, false. *)
Definition extractTextFromTokens (tokenText : JsString.t) : JsString.t :=
  let boxes := parseBoxesFromTokens tokenText false in
  let textPieces := content <$> filter (λ box, isType box = false) boxes in
  join [10%N] textPieces.


(** ** renderBoxes *)

(** The four scaled coordinates computed for a box. *)
Record Scaled : Type := mkScaled {
  scaledX1 : Number.t;
  scaledY1 : Number.t;
  scaledX2 : Number.t;
  scaledY2 : Number.t
}.

(** [(v / DEEPSEEK_COORD_MAX) * dimension], on exact values. *)
Definition scaleCoord (v dimension : Number.t) : Number.t :=
  Number.mul (Number.div v DEEPSEEK_COORD_MAX) dimension.

Definition scaleBox (box : Box) (imageWidth imageHeight : Number.t) : Scaled :=
  {| scaledX1 := scaleCoord (x1 box) imageWidth;
     scaledY1 := scaleCoord (y1 box) imageHeight;
     scaledX2 := scaleCoord (x2 box) imageWidth;
     scaledY2 := scaleCoord (y2 box) imageHeight |}.




(** [TYPE_COLORS[ty]] as a condition: a missing entry is [undefined], and an
    empty string would be falsy too. *)
Definition colorEntry (ty : JsString.t) : option JsString.t :=
  match TYPE_COLORS !! ty with
  | Some c => if bool_decide (c = []) then None else Some c
  | None => None
  end.

(** [TYPE_COLORS[box.type] || '#FF1493']. *)
Definition colorOf (box : Box) : JsString.t :=
  default (js "#FF1493") (colorEntry (type box)).

(** [!TYPE_COLORS[box.type]]. *)
Definition isUnknownType (box : Box) : bool :=
  bool_decide (colorEntry (type box) = None).

(** The text of the label chip. *)
Definition displayText (box : Box) : JsString.t :=
  if isType box then type box
  else if bool_decide (30 < length (content box))
       then substring (content box) 0 (Some 30) ++ js "..."
       else content box.

(** [isClickable], as a condition. *)
Definition isClickable (promptType : JsString.t) (box : Box) : bool :=
  let isInteractive :=
    bool_decide (promptType = js "ocr") || bool_decide (promptType = js "document") in
  if bool_decide (promptType = js "ocr") then
    negb (isType box) && isInteractive
  else if bool_decide (promptType = js "document") then
    isType box && isComplete box && bool_decide (textContent box ≠ []) && isInteractive
  else false.

Definition copyText (promptType : JsString.t) (box : Box) : JsString.t :=
  if bool_decide (promptType = js "ocr") then content box
  else if bool_decide (promptType = js "document") then textContent box
  else [].

(** The branch for document-mode boxes that are not ready yet. *)
Definition isDimmed (promptType : JsString.t) (box : Box) : bool :=
  negb (isClickable promptType box)
  && isType box && bool_decide (promptType = js "document") && negb (isComplete box).

Inductive PointerEvents : Type := PointerAll | PointerNone.
Inductive Cursor : Type := CursorPointer | CursorDefault.

(** One [<g class="ocr-box-group">] appended to the overlay: the geometry
    shared by its two rectangles, its colours, its label, its style and its
    click listener (the text it copies), if it has one. *)
Record Group : Type := mkGroup {
  rectX : Number.t;
  rectY : Number.t;
  rectWidth : Number.t;
  rectHeight : Number.t;
  fillColor : JsString.t;
  strokeColor : JsString.t;
  strokeWidth : nat;
  labelText : JsString.t;
  labelWidth : nat;
  labelColor : JsString.t;
  pointerEvents : PointerEvents;
  cursor : Cursor;
  dimmed : bool;
  onClickCopy : option JsString.t;
  title : option JsString.t
}.

(** The callback of [newBoxes.forEach]: the group built for one box. *)
Definition groupOf (imageWidth imageHeight : Number.t) (promptType : JsString.t)
    (box : Box) : Group :=
  let s := scaleBox box imageWidth imageHeight in
  let color := colorOf box in
  let unknown := isUnknownType box in
  let text := displayText box in
  let clickable := isClickable promptType box in
  let copy := copyText promptType box in
  {| rectX := scaledX1 s;
     rectY := scaledY1 s;
     rectWidth := Number.sub (scaledX2 s) (scaledX1 s);
     rectHeight := Number.sub (scaledY2 s) (scaledY1 s);
     fillColor := if unknown then js "#00FF00" else color;
     strokeColor := color;
     strokeWidth := if unknown then 3 else 2;
     labelText := text;
     labelWidth := length text * 7 + 4 * 2;
     labelColor := if unknown then js "#00FF00" else js "white";
     pointerEvents := if clickable then PointerAll else PointerNone;
     cursor := if clickable then CursorPointer
               else if isDimmed promptType box then CursorDefault
               else if isType box then CursorDefault else CursorPointer;
     dimmed := isDimmed promptType box;
     onClickCopy := if clickable then Some copy else None;
     title := if clickable then
                Some (js "Click to copy: " ++
                      (if bool_decide (50 < length copy)
                       then substring copy 0 (Some 50) ++ js "..." else copy))
              else None |}.

(** The state [renderBoxes] works on: the children and the [viewBox]
    attribute of [ocrBoxesOverlay], and the module variable [lastBoxCount]. *)
Record Overlay : Type := mkOverlay {
  children : list Group;
  viewBox : option (Number.t * Number.t);
  lastBoxCount : nat
}.

Definition renderBoxes (boxes : list Box) (imageWidth imageHeight : Number.t)
    (promptType : JsString.t) (o : Overlay) : Overlay :=
  if Number.falsy imageWidth || Number.falsy imageHeight
     || bool_decide (length boxes = 0)
  then o
  else
    let newBoxes := drop (lastBoxCount o) boxes in      (* boxes.slice(lastBoxCount) *)
    {| children := children o ++ (groupOf imageWidth imageHeight promptType <$> newBoxes);
       viewBox := match viewBox o with
                  | Some v => Some v
                  | None => Some (imageWidth, imageHeight)
                  end;
       lastBoxCount := length boxes |}.

(** [lastBoxCount = 0; ocrBoxesOverlay.innerHTML = ''], the reset before the
    final render. *)
Definition resetBoxes (o : Overlay) : Overlay :=
  {| children := []; viewBox := viewBox o; lastBoxCount := 0 |}.

(** The reset at the start of an operation and on its failure, which also
    removes the [viewBox] attribute. *)
Definition clearOverlay : Overlay :=
  {| children := []; viewBox := None; lastBoxCount := 0 |}.

(** ** performOCR: the token poll and the settlement *)

Inductive Status : Type :=
  StIdle | StLoading | StProcessing | StLoaded | StError.

(** The JSON body of [GET /progress], as far as the poll reads it. *)
Record Progress : Type := mkProgress {
  status : Status;
  chars_generated : nat;
  raw_token_stream : option JsString.t
}.

(** What [ipcRenderer.invoke('perform-ocr', ...)] resolves to. *)
Record OcrResult : Type := mkOcrResult {
  success : bool;
  prompt_type : JsString.t;
  result : JsString.t;
  raw_tokens : option JsString.t;
  error : JsString.t
}.

(** The contents of the results panel. *)
Inductive Panel : Type :=
| PanelEmpty
| PanelText (s : JsString.t)          (* [textContent = s] *)
| PanelMarkdown (s : JsString.t)      (* [displayResults(s, 'document')] *)
| PanelError (msg : JsString.t).

(** The locals of one call of [performOCR] that stay fixed once the image has
    loaded. *)
Record Operation : Type := mkOperation {
  imageNaturalWidth : Number.t;
  imageNaturalHeight : Number.t;
  currentPromptType : JsString.t
}.

(** The mutable state of the page during the operation: the overlay, the
    results panel, [currentRawTokens] and the interval.  [pendingPolls]
    counts the poll callbacks suspended at [await fetch].  The status line
    ([progressStatus], the buttons) is not part of this state. *)
Record Page : Type := mkPage {
  overlay : Overlay;
  resultsContent : Panel;
  currentRawTokens : option JsString.t;
  tokenPollInterval : bool;
  pendingPolls : nat;
  settled : bool
}.

(** A string used as a condition: [undefined] and the empty string are
    falsy. *)
Definition truthy (s : option JsString.t) : bool :=
  match s with
  | Some (_ :: _) => true
  | _ => false
  end.

(** The page when the interval has just been set. *)
Definition startOperation : Page :=
  {| overlay := clearOverlay;
     resultsContent := PanelEmpty;
     currentRawTokens := None;
     tokenPollInterval := true;
     pendingPolls := 0;
     settled := false |}.

(** The body of the poll callback after its two awaits, on the body [data]. *)
Definition pollBody (op : Operation) (data : Progress) (p : Page) : Page :=
  match status data, raw_token_stream data with
  | StProcessing, Some (c :: s) =>
      let stream := c :: s in
      let boxes := parseBoxesFromTokens stream false in
      let o := renderBoxes boxes (imageNaturalWidth op) (imageNaturalHeight op)
                           (currentPromptType op) (overlay p) in
      let panel :=
        if bool_decide (currentPromptType op = js "ocr") then
          match extractTextFromTokens stream with
          | [] => resultsContent p
          | extractedText => PanelText extractedText
          end
        else PanelText stream in
      {| overlay := o; resultsContent := panel;
         currentRawTokens := currentRawTokens p;
         tokenPollInterval := tokenPollInterval p;
         pendingPolls := pendingPolls p;
         settled := settled p |}
  | _, _ => p
  end.

(** The code after [await ipcRenderer.invoke(...)]: the interval is cleared,
    then either the final render and the display of the result, or the
    clean-up of a failed operation. *)
Definition settle (op : Operation) (r : OcrResult) (p : Page) : Page :=
  if success r then
    let o :=
      if truthy (raw_tokens r) && negb (Number.falsy (imageNaturalWidth op))
         && negb (Number.falsy (imageNaturalHeight op))
      then
        let boxes := parseBoxesFromTokens (default [] (raw_tokens r)) true in
        renderBoxes boxes (imageNaturalWidth op) (imageNaturalHeight op)
                    (currentPromptType op) (resetBoxes (overlay p))
      else overlay p in
    let panel :=
      if bool_decide (prompt_type r = js "ocr") then
        PanelText (if truthy (raw_tokens r)
                   then extractTextFromTokens (default [] (raw_tokens r))
                   else result r)
      else if bool_decide (prompt_type r = js "document") then
        PanelMarkdown (result r)
      else
        PanelText (if truthy (raw_tokens r) then default [] (raw_tokens r)
                   else result r) in
    {| overlay := o; resultsContent := panel;
       currentRawTokens := raw_tokens r;
       tokenPollInterval := false;
       pendingPolls := pendingPolls p;
       settled := true |}
  else
    {| overlay := clearOverlay;
       resultsContent := PanelError (error r);
       currentRawTokens := currentRawTokens p;
       tokenPollInterval := false;
       pendingPolls := pendingPolls p;
       settled := true |}.

(** The events of the event loop that concern one operation. *)
Inductive Event : Type :=
| Tick                              (* the interval fires: a fetch starts *)
| PollResolved (data : Progress)    (* a pending fetch delivers its body *)
| PollFailed                        (* a pending fetch or its JSON fails *)
| Settled (r : OcrResult).          (* the OCR request resolves *)

(** Can the event happen in this state? *)
Definition enabled (p : Page) (e : Event) : bool :=
  match e with
  | Tick => tokenPollInterval p
  | PollResolved _ | PollFailed => bool_decide (0 < pendingPolls p)
  | Settled _ => negb (settled p)
  end.

Definition withPending (n : nat) (p : Page) : Page :=
  {| overlay := overlay p; resultsContent := resultsContent p;
     currentRawTokens := currentRawTokens p;
     tokenPollInterval := tokenPollInterval p;
     pendingPolls := n; settled := settled p |}.

(** One turn of the event loop; an event that cannot happen changes nothing. *)
Definition step (op : Operation) (p : Page) (e : Event) : Page :=
  if enabled p e then
    match e with
    | Tick => withPending (S (pendingPolls p)) p
    | PollResolved data => pollBody op data (withPending (pendingPolls p - 1) p)
    | PollFailed => withPending (pendingPolls p - 1) p
    | Settled r => settle op r p
    end
  else p.

Definition run (op : Operation) (p : Page) (events : list Event) : Page :=
  foldl (step op) p events.


(** ** The pattern, read deterministically

    Each group of the pattern excludes the character the next literal starts
    with, so giving characters back can never help: the groups are the
    maximal runs.  [detMatch] is used in the proofs only; lemma
    [matchNodes_refDet] shows it is what the backtracking matcher computes. *)
Definition detMatch (s : JsString.t) : option (list JsString.t * JsString.t) :=
  s1 ← stripPrefix (js "<|ref|>") s;
  let n1 := RegExp.runLength (chr "<") s1 in
  if bool_decide (n1 = 0) then None else
  s2 ← stripPrefix (js "<|/ref|><|det|>[[") (drop n1 s1);
  let n2 := RegExp.runLength (chr "]") s2 in
  if bool_decide (n2 = 0) then None else
  s3 ← stripPrefix (js "]]<|/det|>") (drop n2 s2);
  Some ([take n1 s1; take n2 s2], s3).

(** A match list as the first loop leaves it: the matches lie inside the
    text, left to right, without overlap. *)
Fixpoint ordered (bound : nat) (matches : list MatchData) (limit : nat) : Prop :=
  match matches with
  | [] => bound ≤ limit
  | m :: ms => bound ≤ matchStart m ∧ matchStart m < matchEnd m ∧ ordered (matchEnd m) ms limit
  end.

(** Does the match carry four numeric coordinates? *)
Definition wellFormed (m : MatchData) : bool :=
  bool_decide (length (parseCoords (coords m)) = 4).

(** ** Runs of the poll *)

(** The events of a run in which every tick's fetch delivers its body before
    the next tick, the bodies carrying the given streams in turn. *)
Definition pollEvents (streams : list JsString.t) : list Event :=
  streams ≫= λ stream,
    [Tick; PollResolved (mkProgress StProcessing (length stream) (Some stream))].

(** A stream that only grows by appending: each text is a prefix of the next. *)
Fixpoint appendOnly (previous : JsString.t) (streams : list JsString.t) : Prop :=
  match streams with
  | [] => True
  | stream :: streams' => previous `prefix_of` stream ∧ appendOnly stream streams'
  end.

(** The page of an operation in which nothing is in flight and the interval
    is still set, with [n] groups drawn so far. *)
Definition polling (p : Page) (n : nat) : Prop :=
  tokenPollInterval p = true ∧ pendingPolls p = 0 ∧ settled p = false ∧
  length (children (overlay p)) = n ∧ lastBoxCount (overlay p) = n.

(** ** getServerUrl and the base URL of the main process *)

(** [getServerUrl()]; [value] is [serverUrlInput.value], [None] when the
    input element is missing.  The test is on the value as typed, the trim
    comes after it; [url.slice(0, -1)] drops the last character. *)
Definition getServerUrl (value : option JsString.t) : JsString.t :=
  let url := if truthy value then trim (default [] value)
             else js "http://127.0.0.1:5000" in
  if bool_decide (last url = Some (chr "/")) then take (length url - 1) url else url.

(** [PYTHON_SERVER_URL] of the main process. *)
Definition PYTHON_SERVER_URL : JsString.t := js "http://127.0.0.1:5000".

(** [serverUrl || PYTHON_SERVER_URL], the base of every request the main
    process makes for the renderer. *)
Definition baseUrl (serverUrl : JsString.t) : JsString.t :=
  if truthy (Some serverUrl) then serverUrl else PYTHON_SERVER_URL.

(** The URL of the health check, [`${base}/health`], for the [serverUrl] the
    renderer passes, and the URL the renderer polls,
    [`${getServerUrl()}/progress`]. *)
Definition healthUrl (value : option JsString.t) : JsString.t :=
  baseUrl (getServerUrl value) ++ js "/health".

Definition progressUrl (value : option JsString.t) : JsString.t :=
  getServerUrl value ++ js "/progress".

(** ** loadModel: the progress poll *)

(** [Math.min(x, y)] and [Math.max(x, y)]: NaN when an argument is NaN. *)
Definition Math_min (x y : Number.t) : Number.t :=
  match x, y with
  | Number.NaN, _ | _, Number.NaN => Number.NaN
  | Number.Infinity true, _ | _, Number.Infinity true => Number.Infinity true
  | Number.Infinity false, z | z, Number.Infinity false => z
  | Number.Finite a, Number.Finite b =>
      Number.Finite (if bool_decide (a ≤ b)%Qc then a else b)
  end.

Definition Math_max (x y : Number.t) : Number.t :=
  match x, y with
  | Number.NaN, _ | _, Number.NaN => Number.NaN
  | Number.Infinity false, _ | _, Number.Infinity false => Number.Infinity false
  | Number.Infinity true, z | z, Number.Infinity true => z
  | Number.Finite a, Number.Finite b =>
      Number.Finite (if bool_decide (a ≤ b)%Qc then b else a)
  end.

(** The body of [GET /progress] as [pollProgress] reads it; a missing or null
    field is [None]. *)
Record LoadProgress : Type := mkLoadProgress {
  lp_status : Status;
  progress_percent : option Number.t;
  lp_stage : option JsString.t
}.

(** [Math.max(0, Math.min(100, data.progress_percent || 0))]. *)
Definition progressPercent (data : LoadProgress) : Number.t :=
  let reported :=
    match progress_percent data with
    | Some v => if Number.falsy v then Number.ofZ 0 else v
    | None => Number.ofZ 0
    end in
  Math_max (Number.ofZ 0) (Math_min (Number.ofZ 100) reported).

(** What [pollProgress] writes: the width of the bar in percent, the text of
    the stage, and the local [pollInterval] (is it set?). *)
Record ModelProgress : Type := mkModelProgress {
  barWidth : Number.t;
  progressStage : JsString.t;
  pollInterval : bool
}.

(** [pollProgress], after its two awaits, on the body [data]. *)
Definition pollProgress (data : LoadProgress) (b : ModelProgress) : ModelProgress :=
  match lp_status data with
  | StLoading =>
      {| barWidth := progressPercent data;
         progressStage := match lp_stage data with
                          | Some (c :: stage) => c :: stage
                          | _ => []
                          end;
         pollInterval := pollInterval b |}
  | StLoaded =>
      {| barWidth := Number.ofZ 100; progressStage := js "complete";
         pollInterval := false |}
  | StError =>
      {| barWidth := barWidth b; progressStage := js "error"; pollInterval := false |}
  | _ => b
  end.

(** ** What a match looks like in the text *)

(** The span of the text a match covers reads back as the three markers
    around the label and the coordinate list. *)
Definition matchShape (text : JsString.t) (m : MatchData) : Prop :=
  ∃ label coordString,
    md_content m = trim label ∧ coords m = coordString ∧
    label ≠ [] ∧ Forall (λ x, x ≠ chr "<") label ∧
    coordString ≠ [] ∧ Forall (λ x, x ≠ chr "]") coordString ∧
    matchEnd m = matchStart m + 34 + length label + length coordString ∧
    take (matchEnd m - matchStart m) (drop (matchStart m) text)
    = js "<|ref|>" ++ label ++ js "<|/ref|><|det|>[[" ++ coordString ++ js "]]<|/det|>".

(** ** What of a box and of a group stays the same while the text grows *)

(** The part of a box that comes from its match alone: the label, the kind,
    the display type and the four coordinates. *)
Definition staticOf (box : Box)
  : JsString.t * bool * JsString.t * (Number.t * Number.t * Number.t * Number.t) :=
  (content box, isType box, type box, (x1 box, y1 box, x2 box, y2 box)).

(** The same part, computed from the match. *)
Definition staticOfMatch (m : MatchData)
  : option (JsString.t * bool * JsString.t * (Number.t * Number.t * Number.t * Number.t)) :=
  match parseCoords (coords m) with
  | [c0; c1; c2; c3] =>
      let known := bool_decide (md_content m ∈ KNOWN_TYPES) in
      Some (md_content m, known, (if known then md_content m else js "text"),
            (c0, c1, c2, c3))
  | _ => None
  end.

(** The part of a group that is drawn: rectangles, colours and label. *)
Definition shapeOf (g : Group)
  : Number.t * Number.t * Number.t * Number.t
    * JsString.t * JsString.t * nat * JsString.t * nat * JsString.t :=
  (rectX g, rectY g, rectWidth g, rectHeight g,
   fillColor g, strokeColor g, strokeWidth g, labelText g, labelWidth g, labelColor g).

(** The piece [extractTextFromTokens] keeps of a box: the label of a box that
    is not a type tag. *)
Definition textPieceOf
    (st : JsString.t * bool * JsString.t * (Number.t * Number.t * Number.t * Number.t))
  : option JsString.t :=
  let '(label, known, _, _) := st in if known then None else Some label.

(** ** main.js: the start of the Python server *)

(** [s.includes(needle)]. *)
Fixpoint includes (needle s : JsString.t) : bool :=
  match stripPrefix needle s with
  | Some _ => true
  | None =>
      match s with
      | _ :: s' => includes needle s'
      | [] => false
      end
  end.

(** The calls of [resolve] and [reject] inside the promise of
    [startPythonServer]. *)
Inductive Settlement : Type :=
| Resolve                  (* [resolve()] in [markAsReady] *)
| RejectScriptNotFound     (* [reject(new Error('Python script not found: ...'))] *)
| RejectTimeout.           (* [reject(new Error('Python server failed to start within timeout'))] *)

(** The state the closures of [startPythonServer] share: the local
    [resolved], the calls made so far on the promise (oldest first),
    [startTime], and what the event loop still holds for the function: the
    timers set with [setTimeout(checkWithRetry, _)] and the calls of
    [checkWithRetry] suspended at [await checkServerHealth()].  [spawned]
    tells whether the process was started and its listeners attached. *)
Record Startup : Type := mkStartup {
  spawned : bool;
  resolved : bool;
  settlements : list Settlement;
  startTime : Z;
  timers : nat;
  probes : nat
}.

Definition maxWaitTime : Z := 30000.

(** [markAsReady]. *)
Definition markAsReady (s : Startup) : Startup :=
  if resolved s then s
  else {| spawned := spawned s; resolved := true;
          settlements := settlements s ++ [Resolve];
          startTime := startTime s; timers := timers s; probes := probes s |}.

(** The executor of the promise, run at time [now]: without the script it
    rejects and returns; otherwise it spawns the process, attaches the
    listeners and sets the first timer. *)
Definition startPythonServer (scriptExists : bool) (now : Z) : Startup :=
  if negb scriptExists then
    {| spawned := false; resolved := false; settlements := [RejectScriptNotFound];
       startTime := now; timers := 0; probes := 0 |}
  else
    {| spawned := true; resolved := false; settlements := [];
       startTime := now; timers := 1; probes := 0 |}.

(** The listeners of [stdout] and of [stderr]: the same test on each chunk. *)
Definition onData (data : JsString.t) (s : Startup) : Startup :=
  if includes (js "Running on") data then markAsReady s else s.

(** [checkWithRetry] up to its [await], run at time [now]. *)
Definition checkWithRetry (now : Z) (s : Startup) : Startup :=
  if resolved s then s
  else if bool_decide (maxWaitTime ≤ now - startTime s)%Z then
    if negb (resolved s) then
      {| spawned := spawned s; resolved := true;
         settlements := settlements s ++ [RejectTimeout];
         startTime := startTime s; timers := timers s; probes := probes s |}
    else s
  else
    {| spawned := spawned s; resolved := resolved s; settlements := settlements s;
       startTime := startTime s; timers := timers s; probes := S (probes s) |}.

(** How [checkServerHealth] settles: it returns [response.data.status === 'ok']
    or throws what [axios.get] threw. *)
Inductive Health : Type :=
| Returned (ok : bool)
| Threw.

(** [checkWithRetry] after its [await]: [markAsReady()] when the probe
    returned, a new timer when it threw. *)
Definition afterProbe (r : Health) (s : Startup) : Startup :=
  match r with
  | Returned _ => markAsReady s
  | Threw =>
      {| spawned := spawned s; resolved := resolved s; settlements := settlements s;
         startTime := startTime s; timers := S (timers s); probes := probes s |}
  end.

(** The events that reach the closures. *)
Inductive StartupEvent : Type :=
| Stdout (data : JsString.t)
| Stderr (data : JsString.t)
| Close (code : Z)
| TimerFired (now : Z)          (* a timer runs [checkWithRetry] *)
| ProbeSettled (r : Health).    (* a suspended [checkWithRetry] resumes *)

(** One turn of the event loop; an event that cannot happen changes nothing. *)
Definition startupStep (s : Startup) (e : StartupEvent) : Startup :=
  match e with
  | Stdout data | Stderr data => if spawned s then onData data s else s
  | Close _ => s
  | TimerFired now =>
      if bool_decide (0 < timers s) then
        checkWithRetry now
          {| spawned := spawned s; resolved := resolved s; settlements := settlements s;
             startTime := startTime s; timers := timers s - 1; probes := probes s |}
      else s
  | ProbeSettled r =>
      if bool_decide (0 < probes s) then
        afterProbe r
          {| spawned := spawned s; resolved := resolved s; settlements := settlements s;
             startTime := startTime s; timers := timers s; probes := probes s - 1 |}
      else s
  end.

Definition startupRun (s : Startup) (events : list StartupEvent) : Startup :=
  foldl startupStep s events.

(** Is the event a sign of readiness: a chunk with the words [Running on], or
    a probe that returned? *)
Definition readySign (e : StartupEvent) : bool :=
  match e with
  | Stdout data | Stderr data => includes (js "Running on") data
  | ProbeSettled (Returned _) => true
  | _ => false
  end.

(** ** The operations of the page and the flag [isProcessing] *)

(** The four functions that take the flag. *)
Inductive Task : Type :=
| TaskLoadModel      (* [loadModel] *)
| TaskOCR            (* [performOCR] *)
| TaskPDF            (* [performPDFOCR] *)
| TaskBatch.         (* [performBatchOCRWithPaths] *)

(** The module variables [isProcessing] and [currentImagePath], the
    [disabled] property of [ocrBtn], and the calls that have passed their
    guard and not yet reached their [finally]. *)
Record Client : Type := mkClient {
  isProcessing : bool;
  currentImagePath : option JsString.t;
  ocrBtnDisabled : bool;
  running : list Task
}.

(** The page as the script leaves it when it has loaded; the button is as the
    document declares it. *)
Definition initialClient (ocrBtnDisabled : bool) : Client :=
  {| isProcessing := false; currentImagePath := None;
     ocrBtnDisabled := ocrBtnDisabled; running := [] |}.

(** What [ipcRenderer.invoke('check-server-status', ...)] resolved to, as far
    as the two buttons depend on it. *)
Inductive ServerStatus : Type :=
| StatusOk (modelLoaded : bool)     (* [result.success], [result.data.model_loaded] as a condition *)
| StatusFailed.                      (* [result.success] is falsy *)

Inductive ClientEvent : Type :=
| CallLoadModel
| CallPerformOCR
| CallPerformPDFOCR
| CallPerformBatchOCRWithPaths (imagePaths : option (list JsString.t))
| Finally (task : Task)              (* the [finally] block of a running call *)
| LoadImage (filePath : JsString.t)  (* [loadImage] up to its [await] *)
| ClearImage
| StatusChecked (r : ServerStatus).  (* [checkServerStatus] after its [await] *)

(** A call that passes its guard: the flag is set and the call runs. *)
Definition begin (task : Task) (c : Client) : Client :=
  {| isProcessing := true;
     currentImagePath := currentImagePath c;
     ocrBtnDisabled := match task with TaskOCR => true | _ => ocrBtnDisabled c end;
     running := running c ++ [task] |}.

Instance Task_eq_dec : EqDecision Task.
Proof. solve_decision. Defined.

(** Remove the first occurrence of [task]. *)
Fixpoint removeTask (task : Task) (l : list Task) : list Task :=
  match l with
  | [] => []
  | t :: l' => if bool_decide (t = task) then l' else t :: removeTask task l'
  end.

(** One turn of the event loop; an event that cannot happen changes nothing. *)
Definition clientStep (c : Client) (e : ClientEvent) : Client :=
  match e with
  | CallLoadModel => if isProcessing c then c else begin TaskLoadModel c
  | CallPerformOCR =>
      if negb (truthy (currentImagePath c)) || isProcessing c then c
      else begin TaskOCR c
  | CallPerformPDFOCR => if isProcessing c then c else begin TaskPDF c
  | CallPerformBatchOCRWithPaths imagePaths =>
      if isProcessing c then c
      else match imagePaths with
           | None | Some [] => c
           | Some (_ :: _) => begin TaskBatch c
           end
  | Finally task =>
      if bool_decide (task ∈ running c) then
        {| isProcessing := false; currentImagePath := currentImagePath c;
           ocrBtnDisabled := ocrBtnDisabled c;
           running := removeTask task (running c) |}
      else c
  | LoadImage filePath =>
      {| isProcessing := isProcessing c; currentImagePath := Some filePath;
         ocrBtnDisabled := ocrBtnDisabled c; running := running c |}
  | ClearImage =>
      {| isProcessing := isProcessing c; currentImagePath := None;
         ocrBtnDisabled := true; running := running c |}
  | StatusChecked (StatusOk modelLoaded) =>
      if isProcessing c then c
      else {| isProcessing := isProcessing c; currentImagePath := currentImagePath c;
              ocrBtnDisabled := negb (truthy (currentImagePath c) && modelLoaded);
              running := running c |}
  | StatusChecked StatusFailed =>
      {| isProcessing := isProcessing c; currentImagePath := currentImagePath c;
         ocrBtnDisabled := true; running := running c |}
  end.

Definition clientRun (c : Client) (events : list ClientEvent) : Client :=
  foldl clientStep c events.

(** ** viewBoxesImage *)

(** [x + y]. *)
Definition Number_add (x y : Number.t) : Number.t :=
  match x, y with
  | Number.NaN, _ | _, Number.NaN => Number.NaN
  | Number.Finite a, Number.Finite b => Number.Finite (a + b)
  | Number.Infinity s, Number.Finite _ | Number.Finite _, Number.Infinity s =>
      Number.Infinity s
  | Number.Infinity s, Number.Infinity s' =>
      if bool_decide (s = s') then Number.Infinity s else Number.NaN
  end.

(** [s.slice(start, end)] for indices that are not negative. *)
Definition slice (s : JsString.t) (start end_ : nat) : JsString.t :=
  take (end_ - start) (drop start s).

(** The value of a digit of radix 16. *)
Definition hexDigitValue (c : N) : option Z :=
  if ((48 <=? c) && (c <=? 57))%N then Some (Z.of_N c - 48)%Z
  else if ((97 <=? c) && (c <=? 102))%N then Some (Z.of_N c - 87)%Z
  else if ((65 <=? c) && (c <=? 70))%N then Some (Z.of_N c - 55)%Z
  else None.

(** The values of the longest run of hexadecimal digits at the head. *)
Fixpoint spanHex (s : JsString.t) : list Z :=
  match s with
  | c :: s' =>
      match hexDigitValue c with
      | Some v => v :: spanHex s'
      | None => []
      end
  | [] => []
  end.

(** [parseInt(s, 16)]: leading white space is skipped, then a sign and a
    prefix [0x] or [0X] are read if they are there, then the longest run of
    hexadecimal digits; NaN when the run is empty. *)
Definition parseInt16 (s : JsString.t) : Number.t :=
  let '(neg, s1) := Number.spanSign (trimStart s) in
  let s2 :=
    match s1 with
    | 48%N :: x :: rest => if bool_decide (x = 120%N ∨ x = 88%N) then rest else s1
    | _ => s1
    end in
  match spanHex s2 with
  | [] => Number.NaN
  | ds =>
      let value := foldl (λ acc d, 16 * acc + d)%Z 0%Z ds in
      Number.ofZ (if neg then (- value)%Z else value)
  end.

(** A value of [ctx.fillStyle]: a literal of the source, or the string
    [rgba(r, g, b, alpha)] that [hexToRgba] builds, kept as its four
    numbers. *)
Inductive FillStyle : Type :=
| FillLiteral (css : JsString.t)
| FillRgba (r g b alpha : Number.t).

Definition hexToRgba (hex : JsString.t) (alpha : Number.t) : FillStyle :=
  FillRgba (parseInt16 (slice hex 1 3)) (parseInt16 (slice hex 3 5))
           (parseInt16 (slice hex 5 7)) alpha.

(** What the callback of [boxes.forEach] in [viewBoxesImage] draws for one
    box: the rectangle filled and stroked, and the label chip with its
    text. *)
Record CanvasBox : Type := mkCanvasBox {
  boxX : Number.t;
  boxY : Number.t;
  boxWidth : Number.t;
  boxHeight : Number.t;
  boxFillStyle : FillStyle;
  boxStrokeStyle : JsString.t;
  boxLineWidth : nat;
  chipFont : JsString.t;
  chipText : JsString.t;
  chipY : Number.t;
  chipWidth : Number.t;
  chipTextX : Number.t;
  chipTextY : Number.t;
  chipTextFill : JsString.t
}.

(** [measureText font text] stands for [ctx.measureText(text).width] under
    [ctx.font = font]. *)
Definition drawBox (measureText : JsString.t → JsString.t → Number.t)
    (imgWidth imgHeight : Number.t) (box : Box) : CanvasBox :=
  let s := scaleBox box imgWidth imgHeight in
  let color := colorOf box in
  let unknown := isUnknownType box in
  let text := displayText box in
  let font := if unknown then js "bold 12px system-ui" else js "500 12px system-ui" in
  let labelY := Math_max (Number.ofZ 0) (Number.sub (scaledY1 s) (Number.ofZ 18)) in
  {| boxX := scaledX1 s;
     boxY := scaledY1 s;
     boxWidth := Number.sub (scaledX2 s) (scaledX1 s);
     boxHeight := Number.sub (scaledY2 s) (scaledY1 s);
     boxFillStyle := if unknown then FillLiteral (js "rgba(0, 255, 0, 0.3)")
                     else hexToRgba color (Number.Finite (Q2Qc (1 # 10)));
     boxStrokeStyle := color;
     boxLineWidth := if unknown then 3 else 2;
     chipFont := font;
     chipText := text;
     chipY := labelY;
     chipWidth := Number_add (measureText font text) (Number.ofZ (4 * 2));
     chipTextX := Number_add (scaledX1 s) (Number.ofZ 4);
     chipTextY := Number_add labelY (Number.ofZ 13);
     chipTextFill := if unknown then js "#00FF00" else js "white" |}.

(** The boxes drawn on the canvas that the lightbox shows, for an image that
    has loaded with the given size; [None] when the function returns at its
    guard. *)
Definition viewBoxesImage (measureText : JsString.t → JsString.t → Number.t)
    (currentImagePath currentRawTokens : option JsString.t)
    (imgWidth imgHeight : Number.t) : option (list CanvasBox) :=
  if negb (truthy currentImagePath) then None
  else if truthy currentRawTokens then
    Some (drawBox measureText imgWidth imgHeight
            <$> parseBoxesFromTokens (default [] currentRawTokens) true)
  else Some [].

(** The outline and the label of a drawn box, and of a group of the
    overlay: rectangle, stroke colour, stroke width, label text and its
    colour. *)
Definition outlineOfCanvas (b : CanvasBox)
  : Number.t * Number.t * Number.t * Number.t * JsString.t * nat * JsString.t * JsString.t :=
  (boxX b, boxY b, boxWidth b, boxHeight b,
   boxStrokeStyle b, boxLineWidth b, chipText b, chipTextFill b).

Definition outlineOfGroup (g : Group)
  : Number.t * Number.t * Number.t * Number.t * JsString.t * nat * JsString.t * JsString.t :=
  (rectX g, rectY g, rectWidth g, rectHeight g,
   strokeColor g, strokeWidth g, labelText g, labelColor g).

(** A number that is an integer from 0 to 255. *)
Definition isByte (n : Number.t) : Prop :=
  ∃ z : Z, n = Number.ofZ z ∧ (0 ≤ z < 256)%Z.

(** Zero or more, plus infinity included. *)
Definition notNegative (n : Number.t) : Prop :=
  match n with
  | Number.Finite q => (Qc_of_Z 0 ≤ q)%Qc
  | Number.Infinity negative => negative = false
  | Number.NaN => False
  end.

(** ** The regular expression of image references

    The pattern written once in [displayResults] and once in [downloadZip],
    with the global flag: the literal run [!\[], a capturing group that is a
    greedy star over the class of the characters other than [\]], the literal
    run [\](images/], a capturing group that is a greedy plus over the class
    of the characters other than [)], and a literal [)]. *)

Module ImageRegExp.

Inductive node : Type :=
| Lit (l : JsString.t)             (* a run of literal characters *)
| NotAtLeast (least : nat) (c : N). (* a group over [^c]: a star for [least = 0], a plus for [least = 1] *)

(** The backtracking matcher, anchored at the head of [s]: the captures,
    left to right, and the unconsumed rest.  A greedy group first takes the
    longest run and gives characters back one at a time while the
    continuation fails, never going below [least]. *)
Fixpoint matchNodes (p : list node) (s : JsString.t)
  : option (list JsString.t * JsString.t) :=
  match p with
  | [] => Some ([], s)
  | Lit l :: p' =>
      match stripPrefix l s with
      | Some s' => matchNodes p' s'
      | None => None
      end
  | NotAtLeast least c :: p' =>
      (fix giveBack (k : nat) : option (list JsString.t * JsString.t) :=
         if bool_decide (k < least) then None
         else
           match matchNodes p' (drop k s) with
           | Some (caps, rest) => Some (take k s :: caps, rest)
           | None =>
               match k with
               | 0 => None
               | S k' => giveBack k'
               end
           end) (RegExp.runLength c s)
  end.

(** A RegExp object with the global flag: its pattern and [lastIndex]. *)
Record obj : Type := mkObj { source : list node; lastIndex : nat }.

(** The search of [exec]: the pattern is tried at [i], then at [i+1], ... up
    to and including the end of the input; [suffix] is the input from [i]. *)
Fixpoint search (p : list node) (suffix : JsString.t) (i : nat)
  : option RegExp.result :=
  match matchNodes p suffix with
  | Some (caps, rest) =>
      Some (RegExp.mkResult i (take (length suffix - length rest) suffix) caps)
  | None =>
      match suffix with
      | _ :: suffix' => search p suffix' (S i)
      | [] => None
      end
  end.

(** [re.exec(s)] for a global RegExp. *)
Definition exec (re : obj) (s : JsString.t) : option RegExp.result * obj :=
  if bool_decide (length s < lastIndex re) then (None, mkObj (source re) 0)
  else
    match search (source re) (drop (lastIndex re) s) (lastIndex re) with
    | Some m => (Some m, mkObj (source re) (RegExp.index m + length (RegExp.whole m)))
    | None => (None, mkObj (source re) 0)
    end.

(** The results of calling [exec] until it returns null, oldest first.  The
    fuel bounds the number of calls; [None] means it ran out. *)
Fixpoint execAll (fuel : nat) (re : obj) (s : JsString.t)
    (results : list RegExp.result) : option (list RegExp.result) :=
  match fuel with
  | 0 => None
  | S fuel' =>
      match exec re s with
      | (Some m, re') => execAll fuel' re' s (results ++ [m])
      | (None, _) => Some results
      end
  end.

End ImageRegExp.

Definition imageRegex : list ImageRegExp.node :=
  [ ImageRegExp.Lit (js "!["); ImageRegExp.NotAtLeast 0 (chr "]");
    ImageRegExp.Lit (js "](images/"); ImageRegExp.NotAtLeast 1 (chr ")");
    ImageRegExp.Lit (js ")") ].

(** All the matches of the pattern in [text], in order: what the [while]
    loop of [downloadZip] sees, and what [replace] collects in
    [displayResults].  A match is never empty, so the step that [replace]
    takes after an empty match plays no part, and one more call of [exec]
    than the text has characters is enough (lemma [execAll_terminates]). *)
Definition imageMatches (text : JsString.t) : list RegExp.result :=
  default [] (ImageRegExp.execAll (S (length text))
                (ImageRegExp.mkObj imageRegex 0) text []).

(** ** downloadZip *)

(** [set.add(x)] on a [Set] kept as the list of its values in insertion
    order. *)
Definition setAdd (x : JsString.t) (set : list JsString.t) : list JsString.t :=
  if bool_decide (x ∈ set) then set else set ++ [x].

(** The set [imageFiles] after the loop. *)
Definition imageFilesOf (text : JsString.t) : list JsString.t :=
  foldl (λ set m, setAdd (RegExp.group m 2) set) [] (imageMatches text).

(** The URLs [downloadZip] fetches, in order, with [url] for
    [getServerUrl()]; [None] when it stops at its guard with
    ['No document to download']. *)
Definition downloadZip (currentResultText currentPromptType : option JsString.t)
    (url : JsString.t) : option (list JsString.t) :=
  if negb (truthy currentResultText)
     || negb (bool_decide (currentPromptType = Some (js "document")))
  then None
  else Some ((λ filename, url ++ js "/outputs/images/" ++ filename)
               <$> imageFilesOf (default [] currentResultText)).

(** ** displayResults *)

(** GetSubstitution of the language specification, for a pattern without
    named groups: [$$], [$&], [$`], [$'] and [$n], [$nn] are replaced, any
    other [$] stands for itself.  A two-digit reference beyond the number of
    groups is read as a one-digit reference followed by a digit; a reference
    to group 0 or beyond the number of groups stands for itself. *)
Fixpoint getSubstitution (matched str : JsString.t) (position : nat)
    (captures : list JsString.t) (template : JsString.t) : JsString.t :=
  let oneDigit (d : N) (after : JsString.t) : JsString.t :=
    let index := N.to_nat (d - 48) in
    (if bool_decide (1 ≤ index ≤ length captures)
     then default [] (captures !! (index - 1))
     else [chr "$"; d]) ++ after in
  match template with
  | [] => []
  | c :: rest =>
      if bool_decide (c ≠ chr "$") then
        c :: getSubstitution matched str position captures rest
      else
        match rest with
        | [] => [chr "$"]
        | d1 :: rest' =>
            if bool_decide (d1 = chr "$") then
              chr "$" :: getSubstitution matched str position captures rest'
            else if bool_decide (d1 = chr "&") then
              matched ++ getSubstitution matched str position captures rest'
            else if bool_decide (d1 = chr "`") then
              take position str
              ++ getSubstitution matched str position captures rest'
            else if bool_decide (d1 = chr "'") then
              drop (position + length matched) str
              ++ getSubstitution matched str position captures rest'
            else if Number.isDigit d1 then
              match rest' with
              | d2 :: rest'' =>
                  let index := N.to_nat (10 * (d1 - 48) + (d2 - 48)) in
                  if Number.isDigit d2 && bool_decide (index ≤ length captures) then
                    (if bool_decide (1 ≤ index)
                     then default [] (captures !! (index - 1))
                     else [chr "$"; d1; d2])
                    ++ getSubstitution matched str position captures rest''
                  else oneDigit d1 (getSubstitution matched str position captures rest')
              | [] => oneDigit d1 []
              end
            else chr "$" :: getSubstitution matched str position captures rest
        end
  end.

(** The text with each match replaced by [replacement m]: the loop at the end
    of [replace], which keeps what lies between the matches. *)
Definition spliceMatches (replacement : RegExp.result → JsString.t)
    (matches : list RegExp.result) (text : JsString.t) : JsString.t :=
  let '(accumulated, nextSourcePosition) :=
    foldl (λ '(accumulated, nextSourcePosition) m,
             let position := RegExp.index m in
             if bool_decide (nextSourcePosition ≤ position) then
               (accumulated
                ++ take (position - nextSourcePosition) (drop nextSourcePosition text)
                ++ replacement m,
                position + length (RegExp.whole m))
             else (accumulated, nextSourcePosition))
          ([], 0) matches in
  accumulated ++ drop nextSourcePosition text.

(** [text.replace(re, template)] for a global [re] whose matches in [text]
    are [matches]. *)
Definition replaceMatches (matches : list RegExp.result) (text template : JsString.t)
  : JsString.t :=
  spliceMatches
    (λ m, getSubstitution (RegExp.whole m) text (RegExp.index m)
                          (RegExp.captures m) template)
    matches text.

(** The decimal digits of an integer, as a template literal writes it. *)
Definition decimal (z : Z) : JsString.t :=
  js (DecimalString.NilZero.string_of_int (Z.to_int z)).

(** The replacement of [displayResults], with [url] for [getServerUrl()] and
    [cacheBuster] for [Date.now()]. *)
Definition imageTemplate (url : JsString.t) (cacheBuster : Z) : JsString.t :=
  js "![$1](" ++ url ++ js "/outputs/images/$2?t=" ++ decimal cacheBuster ++ js ")".

(** [renderedMarkdown], the text handed to [marked.parse] in document mode. *)
Definition renderedMarkdown (formattedResult url : JsString.t) (cacheBuster : Z)
  : JsString.t :=
  replaceMatches (imageMatches formattedResult) formattedResult
                 (imageTemplate url cacheBuster).

(** ** The size fields of an OCR request *)

(** [parseInt(s)] without a radix: leading white space is skipped, a sign is
    read if there is one, then digits of radix 16 after a prefix [0x] or
    [0X], digits of radix 10 otherwise; NaN when there is no digit.  The
    result is a binary64 number: the integer of the digits rounded to
    nearest, so an infinity from [2 ** 1024] on, with the sign applied to
    it, so [-0] for a zero after a minus sign.  (The language lets an
    implementation replace by zeros the digits of a decimal numeral after
    the 20th; the model keeps them.) *)
Definition parseInt (s : JsString.t) : Binary64.t :=
  let '(neg, s1) := Number.spanSign (trimStart s) in
  let signed (value : Z) :=
    if neg then Binary64.opp (Binary64.ofZ value) else Binary64.ofZ value in
  let decimalDigits :=
    match Number.spanDigits s1 with
    | ([], _) => S754_nan
    | (ds, _) => signed (Number.digitsValue ds)
    end in
  match s1 with
  | c :: x :: rest =>
      if bool_decide (c = chr "0") && bool_decide (x = chr "x" ∨ x = chr "X") then
        match spanHex rest with
        | [] => S754_nan
        | ds => signed (foldl (λ acc d, 16 * acc + d)%Z 0%Z ds)
        end
      else decimalDigits
  | _ => decimalDigits
  end.

(** [value || fallback] on numbers. *)
Definition orNumber (value fallback : Binary64.t) : Binary64.t :=
  if Binary64.falsy value then fallback else value.

(** The numbers appended to the form as [base_size] and [image_size], for
    the texts of the two fields: the renderer sends [parseInt(field.value)],
    the handler of the main process appends [baseSize || 1024] and
    [imageSize || 640]. *)
Definition sizesSent (baseSizeValue imageSizeValue : JsString.t)
  : Binary64.t * Binary64.t :=
  (orNumber (parseInt baseSizeValue) (Binary64.ofZ 1024),
   orNumber (parseInt imageSizeValue) (Binary64.ofZ 640)).

(** ** showMessage *)

(** The sentence the results panel holds before the first result. *)
Definition placeholder : JsString.t := js "OCR results will appear here".

(** [showMessage(message, type)] for a panel whose [textContent] is given:
    the markup it writes to [innerHTML], or [None] when it leaves the panel
    alone. *)
Definition showMessage (message type textContent : JsString.t)
  : option JsString.t :=
  if includes placeholder textContent
  then Some (js "<p class=" ++ [34%N] ++ type ++ [34%N] ++ js ">"
             ++ message ++ js "</p>")
  else None.

(** The call at the end of a successful [performOCR], on the text the
    settlement has just put into the panel. *)
Definition completionMessage (textContent : JsString.t) : option JsString.t :=
  showMessage (js "OCR completed successfully!") (js "success") textContent.

(** [needle] occurs in [s]. *)
Definition occursIn (needle s : JsString.t) : Prop :=
  ∃ before after, s = before ++ needle ++ after.

(** ** cleanTextForTTS: the last two steps *)

(** [s.replace(/\s+/g, ' ')]: every maximal run of white space gives way to
    one space.  [inRun] tells that the character before was white space. *)
Fixpoint collapseWhiteSpace (inRun : bool) (s : JsString.t) : JsString.t :=
  match s with
  | [] => []
  | c :: s' =>
      if isWhiteSpace c then
        if inRun then collapseWhiteSpace true s'
        else chr " " :: collapseWhiteSpace true s'
      else c :: collapseWhiteSpace false s'
  end.

(** [cleanTextForTTS]: the guard, and the end of the chain,
    [.replace(/\s+/g, ' ').trim()].  The eleven replacements before it, which
    strip the Markdown markup, are left open: [stripMarkup] stands for
    them. *)
Definition cleanTextForTTS (stripMarkup : JsString.t → JsString.t)
    (text : option JsString.t) : JsString.t :=
  if negb (truthy text) then []
  else trim (collapseWhiteSpace false (stripMarkup (default [] text))).

(** ** What a match of the image pattern looks like in the text *)

Definition imageRef (text : JsString.t) (m : RegExp.result) : Prop :=
  ∃ alt name rest,
    RegExp.captures m = [alt; name] ∧
    RegExp.whole m = js "![" ++ alt ++ js "](images/" ++ name ++ js ")" ∧
    text = take (RegExp.index m) text ++ RegExp.whole m ++ rest ∧
    RegExp.index m ≤ length text ∧
    Forall (λ x, x ≠ chr "]") alt ∧
    name ≠ [] ∧ Forall (λ x, x ≠ chr ")") name.

(** What holds of the page at every turn; [d] is the initial state of the
    button. *)
Definition clientInv (d : bool) (c : Client) : Prop :=
  length (running c) ≤ 1 ∧
  isProcessing c = bool_decide (running c ≠ []) ∧
  (TaskOCR ∈ running c → ocrBtnDisabled c = true) ∧
  (ocrBtnDisabled c = false → d = false ∨ currentImagePath c ≠ None).

(** What holds of the shared state at every turn. *)
Definition startupInv (s : Startup) : Prop :=
  timers s + probes s ≤ 1 ∧
  length (settlements s) ≤ 1 ∧
  (if spawned s then resolved s = bool_decide (settlements s ≠ [])
   else settlements s = [RejectScriptNotFound] ∧ timers s + probes s = 0).

(** * Properties *)

(** ** Strings *)

Section strings.
Implicit Types s l : list N.

Lemma stripPrefix_Some l s s' : stripPrefix l s = Some s' ↔ s = l ++ s'.
Proof.
  revert s. induction l as [|a l IH]; intros [|b s]; simpl.
  - split; congruence.
  - split; congruence.
  - split; [done | discriminate].
  - case_bool_decide as Hab.
    + rewrite IH. subst b. split; [by intros -> | by intros [= ->]].
    + split; [done | intros [= ? _]; done].
Qed.

Lemma stripPrefix_app l s : stripPrefix l (l ++ s) = Some s.
Proof. by apply stripPrefix_Some. Qed.

Lemma substring_to_end s a : substring s a None = drop a s.
Proof.
  unfold substring; simpl.
  destruct (decide (a ≤ length s)) as [Ha|Ha].
  - rewrite !Nat.min_l, Nat.max_r by lia.
    apply take_ge. rewrite length_drop. lia.
  - rewrite (Nat.min_r a), Nat.min_id, Nat.max_id, Nat.sub_diag by lia.
    rewrite !drop_ge by lia. done.
Qed.

Lemma substring_between s a b :
  a ≤ b → b ≤ length s → substring s a (Some b) = take (b - a) (drop a s).
Proof.
  intros Hab Hb. unfold substring; simpl.
  rewrite (Nat.min_l a), (Nat.min_l b) by lia.
  by rewrite Nat.min_l, Nat.max_r by lia.
Qed.

End strings.

(** ** The matcher and [exec] *)

Section matcher.
Import RegExp.
Implicit Types (p : list node) (s rest : list N).

(** What is not consumed is a suffix of the input. *)
Lemma matchNodes_suffix p s caps rest :
  matchNodes p s = Some (caps, rest) → ∃ consumed, s = consumed ++ rest.
Proof.
  revert s caps rest. induction p as [|[l|c] p IH]; intros s caps rest; simpl.
  - intros [= <- <-]. by exists [].
  - destruct (stripPrefix l s) as [s'|] eqn:Hl; [|done].
    apply stripPrefix_Some in Hl as ->. intros [consumed ->]%IH.
    exists (l ++ consumed). by rewrite <-(assoc_L (++)).
  - generalize (runLength c s). intros k. induction k as [|k IHk]; [done|].
    destruct (matchNodes p (drop (S k) s)) as [[caps' rest']|] eqn:Hm; [|done].
    intros [= <- <-]. apply IH in Hm as [consumed Hc].
    exists (take (S k) s ++ consumed).
    by rewrite <-(assoc_L (++)), <-Hc, take_drop.
Qed.

Lemma matchNodes_split p s caps rest :
  matchNodes p s = Some (caps, rest) → s = take (length s - length rest) s ++ rest.
Proof.
  intros [consumed ->]%matchNodes_suffix. rewrite length_app.
  replace (length consumed + length rest - length rest) with (length consumed) by lia.
  by rewrite take_app_length.
Qed.

(** The result of the search: the first position at or after [i] where the
    pattern matches. *)
Lemma search_Some p suffix i m :
  search p suffix i = Some m →
  ∃ k caps rest,
    k ≤ length suffix ∧ index m = i + k ∧
    matchNodes p (drop k suffix) = Some (caps, rest) ∧
    (∀ j, j < k → matchNodes p (drop j suffix) = None) ∧
    captures m = caps ∧
    drop k suffix = whole m ++ rest.
Proof.
  revert i m. induction suffix as [|c suffix IH]; intros i m.
  - cbn [search]. destruct (matchNodes p []) as [[caps rest]|] eqn:Hm; [|done].
    intros [= <-]. exists 0, caps, rest. cbn [index captures whole].
    rewrite drop_0. pose proof (matchNodes_split _ _ _ _ Hm).
    split_and!; try done; try lia.
  - cbn [search]. destruct (matchNodes p (c :: suffix)) as [[caps rest]|] eqn:Hm.
    + intros [= <-]. exists 0, caps, rest. cbn [index captures whole].
      rewrite drop_0. pose proof (matchNodes_split _ _ _ _ Hm).
      split_and!; try done; try lia.
    + intros (k & caps & rest & Hk & Hi & Hmk & Hfirst & Hcaps & Hwhole)%IH.
      exists (S k), caps, rest. simpl. repeat split; try done; try lia.
      intros [|j] Hj; simpl; [done|]. apply Hfirst. lia.
Qed.

Lemma search_None p suffix i :
  search p suffix i = None ↔ ∀ j, j ≤ length suffix → matchNodes p (drop j suffix) = None.
Proof.
  revert i. induction suffix as [|c suffix IH]; intros i; simpl.
  - destruct (matchNodes p []) as [[caps rest]|] eqn:Hm.
    + split; [done|]. intros H. specialize (H 0 (Nat.le_0_l _)).
      simpl in H. congruence.
    + split; [|done]. intros _ j Hj. by rewrite drop_nil.
  - destruct (matchNodes p (c :: suffix)) as [[caps rest]|] eqn:Hm.
    + split; [done|]. intros H. specialize (H 0 (Nat.le_0_l _)).
      simpl in H. congruence.
    + rewrite IH. split.
      * intros H [|j] Hj; simpl; [done|]. apply H. lia.
      * intros H j Hj. apply (H (S j)). lia.
Qed.

(** The search finds the first matching position, whatever lies before. *)
Lemma search_first p suffix i k caps rest :
  k ≤ length suffix →
  matchNodes p (drop k suffix) = Some (caps, rest) →
  (∀ j, j < k → matchNodes p (drop j suffix) = None) →
  search p suffix i =
    Some (mkResult (i + k)
            (take (length (drop k suffix) - length rest) (drop k suffix)) caps).
Proof.
  revert i suffix. induction k as [|k IH]; intros i suffix Hk Hm Hfirst.
  - rewrite drop_0 in Hm |- *. rewrite Nat.add_0_r.
    destruct suffix; simpl in *; by rewrite Hm.
  - destruct suffix as [|c suffix]; simpl in Hk; [lia|].
    pose proof (Hfirst 0 (Nat.lt_0_succ _)) as H0. rewrite drop_0 in H0.
    cbn [search]. rewrite H0. simpl in Hm.
    rewrite (IH (S i) suffix); try done; try lia.
    + simpl. do 3 f_equal. lia.
    + intros j Hj. apply (Hfirst (S j)). lia.
Qed.

End matcher.

(** ** The deterministic reading of the pattern *)

Section deterministic.
Import RegExp.
Implicit Types (p : list node) (s rest : list N).

Lemma runLength_le c s : runLength c s ≤ length s.
Proof. induction s as [|x s IH]; simpl; [lia|]. case_bool_decide; simpl; lia. Qed.

(** Inside the run no character is [c]. *)
Lemma runLength_inside c s k :
  k < runLength c s → ∃ x s', drop k s = x :: s' ∧ x ≠ c.
Proof.
  revert k. induction s as [|x s IH]; intros k; simpl; [lia|].
  case_bool_decide as Hx; [lia|]. destruct k as [|k]; simpl.
  - intros _. by exists x, s.
  - intros Hk. apply IH. lia.
Qed.

Lemma runLength_take c s : Forall (λ x, x ≠ c) (take (runLength c s) s).
Proof.
  induction s as [|x s IH]; simpl; [constructor|].
  case_bool_decide as Hx; simpl; [constructor|]. by constructor.
Qed.

(** A run of characters other than [c], stopped by a [c], is the maximal run. *)
Lemma runLength_app c run s :
  Forall (λ x, x ≠ c) run → runLength c (run ++ c :: s) = length run.
Proof.
  induction 1 as [|x run Hx _ IH]; simpl.
  - by rewrite bool_decide_eq_true_2.
  - by rewrite bool_decide_eq_false_2, IH.
Qed.

(** When the literal after a group starts with the excluded character, the
    group takes its maximal run and nothing is given back. *)
Lemma matchNodes_NotPlus_Lit c l p s :
  matchNodes (NotPlus c :: Lit (c :: l) :: p) s =
    if bool_decide (runLength c s = 0) then None
    else '(caps, rest) ← matchNodes (Lit (c :: l) :: p) (drop (runLength c s) s);
         Some (take (runLength c s) s :: caps, rest).
Proof.
  remember (Lit (c :: l) :: p) as q eqn:Hq.
  cbn [matchNodes].
  match goal with |- ?f (runLength c s) = _ => set (giveBack := f) end.
  assert (∀ k, k < runLength c s → giveBack k = None) as Hblocked.
  { induction k as [|k IH]; intros Hk; [done|]. cbn [giveBack].
    destruct (runLength_inside c s (S k) Hk) as (x & s' & -> & Hx).
    rewrite Hq. cbn [matchNodes stripPrefix].
    rewrite bool_decide_eq_false_2 by done. apply IH. lia. }
  destruct (runLength c s) as [|n] eqn:Hn; [done|].
  rewrite bool_decide_eq_false_2 by done. cbn [giveBack].
  destruct (matchNodes q (drop (S n) s)) as [[caps rest]|];
    simpl; [done|]. apply Hblocked. lia.
Qed.

Lemma matchNodes_Lit l p s :
  matchNodes (Lit l :: p) s = stripPrefix l s ≫= matchNodes p.
Proof. done. Qed.

Lemma matchNodes_refDet s : matchNodes refDetRegex s = detMatch s.
Proof.
  unfold refDetRegex, detMatch. rewrite matchNodes_Lit.
  destruct (stripPrefix (js "<|ref|>") s) as [s1|]; [|done].
  cbn [mbind option_bind].
  change (js "<|/ref|><|det|>[[") with (chr "<" :: js "|/ref|><|det|>[[").
  rewrite matchNodes_NotPlus_Lit. case_bool_decide; [done|].
  rewrite matchNodes_Lit.
  destruct (stripPrefix _ (drop _ s1)) as [s2|]; [|done].
  cbn [mbind option_bind].
  change (js "]]<|/det|>") with (chr "]" :: js "]<|/det|>").
  rewrite matchNodes_NotPlus_Lit. case_bool_decide; [done|].
  rewrite matchNodes_Lit.
  by destruct (stripPrefix _ (drop _ s2)) as [s3|].
Qed.

(** The shape of a match: the three literals around the two groups. *)
Lemma detMatch_Some s caps rest :
  detMatch s = Some (caps, rest) ↔
  ∃ c1 c2,
    caps = [c1; c2] ∧
    s = js "<|ref|>" ++ c1 ++ js "<|/ref|><|det|>[[" ++ c2 ++ js "]]<|/det|>" ++ rest ∧
    c1 ≠ [] ∧ Forall (λ x, x ≠ chr "<") c1 ∧
    c2 ≠ [] ∧ Forall (λ x, x ≠ chr "]") c2.
Proof.
  unfold detMatch. split.
  - destruct (stripPrefix (js "<|ref|>") s) as [s1|] eqn:H1; [|done].
    cbn [mbind option_bind].
    case_bool_decide as Hn1; [done|].
    destruct (stripPrefix _ (drop _ s1)) as [s2|] eqn:H2; [|done].
    cbn [mbind option_bind].
    case_bool_decide as Hn2; [done|].
    destruct (stripPrefix _ (drop _ s2)) as [s3|] eqn:H3; [|done].
    cbn [mbind option_bind].
    intros [= <- <-].
    apply stripPrefix_Some in H1, H2, H3.
    exists (take (runLength (chr "<") s1) s1), (take (runLength (chr "]") s2) s2).
    split_and!; try done.
    + rewrite H1. f_equal. rewrite <-H3, take_drop, <-H2. by rewrite take_drop.
    + intros Hnil%(f_equal length). rewrite length_take in Hnil.
      pose proof (runLength_le (chr "<") s1). simpl in Hnil. lia.
    + apply runLength_take.
    + intros Hnil%(f_equal length). rewrite length_take in Hnil.
      pose proof (runLength_le (chr "]") s2). simpl in Hnil. lia.
    + apply runLength_take.
  - intros (c1 & c2 & -> & -> & Hc1 & Hf1 & Hc2 & Hf2).
    rewrite stripPrefix_app. cbn [mbind option_bind].
    change (js "<|/ref|><|det|>[[") with (chr "<" :: js "|/ref|><|det|>[[").
    rewrite <-(app_comm_cons _ _ (chr "<")), runLength_app by done.
    rewrite bool_decide_eq_false_2 by (by destruct c1).
    rewrite drop_app_length, take_app_length.
    rewrite (app_comm_cons _ _ (chr "<")), stripPrefix_app. cbn [mbind option_bind].
    change (js "]]<|/det|>") with (chr "]" :: js "]<|/det|>").
    rewrite <-(app_comm_cons _ _ (chr "]")), runLength_app by done.
    rewrite bool_decide_eq_false_2 by (by destruct c2).
    rewrite drop_app_length, take_app_length.
    by rewrite (app_comm_cons _ _ (chr "]")), stripPrefix_app.
Qed.

(** A match of the pattern is never empty. *)
Lemma refDet_consumes s caps rest :
  matchNodes refDetRegex s = Some (caps, rest) → length rest < length s.
Proof.
  rewrite matchNodes_refDet. intros (c1 & c2 & _ & -> & _)%detMatch_Some.
  rewrite !length_app. simpl. lia.
Qed.

End deterministic.

(** ** The first loop: collecting the matches *)

Section collect.
Import RegExp.
Variable p : list node.
Hypothesis p_consumes :
  ∀ s caps rest, matchNodes p s = Some (caps, rest) → length rest < length s.
Implicit Types (text : list N) (re : obj) (matches acc : list MatchData).

(** A successful [exec] returns a non-empty match inside the text, at or
    after [lastIndex], and moves [lastIndex] to its end. *)
Lemma exec_Some re text m re' :
  source re = p → lastIndex re ≤ length text →
  exec re text = (Some m, re') →
  lastIndex re ≤ index m ∧ 0 < length (whole m) ∧
  index m + length (whole m) ≤ length text ∧
  re' = mkObj p (index m + length (whole m)).
Proof.
  intros Hp Hle. unfold exec. rewrite bool_decide_eq_false_2 by lia.
  destruct (search _ _ _) as [m'|] eqn:Hs; [|done]. intros [= -> <-].
  rewrite Hp in Hs |- *.
  apply search_Some in Hs as (k & caps & rest & Hk & Hi & Hm & _ & _ & Hw).
  rewrite length_drop in Hk.
  pose proof (p_consumes _ _ _ Hm) as Hlt.
  apply (f_equal length) in Hw. rewrite length_app, !length_drop in Hw.
  rewrite !length_drop in Hlt. split_and!; [lia..|done].
Qed.

(** A failed [exec] resets [lastIndex]. *)
Lemma exec_None re text re' :
  exec re text = (None, re') → re' = mkObj (source re) 0.
Proof.
  unfold exec. case_bool_decide; [by intros [= <-]|].
  destruct (search _ _ _); [done|]. by intros [= <-].
Qed.

(** The loop ends within [length text - lastIndex + 1] calls of [exec]; it
    leaves the matches ordered and the RegExp object as it was created. *)
Lemma collectMatches_spec fuel re text acc :
  source re = p → lastIndex re ≤ length text →
  length text - lastIndex re < fuel →
  ∃ matches,
    collectMatches fuel re text acc = Some (acc ++ matches, mkObj p 0) ∧
    ordered (lastIndex re) matches (length text).
Proof.
  revert re acc. induction fuel as [|fuel IH]; intros re acc Hp Hle Hfuel; [lia|].
  cbn [collectMatches]. destruct (exec re text) as [[m|] re'] eqn:He.
  - destruct (exec_Some _ _ _ _ Hp Hle He) as (Hi & Hw & Hend & ->).
    destruct (IH (mkObj p (index m + length (whole m))) (acc ++ [matchDataOf m]))
      as (matches & -> & Hord); cbn [source lastIndex]; [done|lia|lia|].
    exists (matchDataOf m :: matches). split.
    + by rewrite <-(assoc_L (++)).
    + cbn [ordered matchDataOf matchStart matchEnd]. split_and!; [done|lia|done].
  - apply exec_None in He as ->. exists []. rewrite Hp, (right_id_L [] (++)).
    split; [done|]. simpl. lia.
Qed.

(** More fuel than needed changes nothing. *)
Lemma collectMatches_fuel_mono fuel fuel' re text acc r :
  collectMatches fuel re text acc = Some r → fuel ≤ fuel' →
  collectMatches fuel' re text acc = Some r.
Proof.
  revert fuel' re acc. induction fuel as [|fuel IH]; intros fuel' re acc; [done|].
  intros Hc Hle. destruct fuel' as [|fuel']; [lia|]. cbn [collectMatches] in Hc |- *.
  destruct (exec re text) as [[m|] re']; [|done]. apply IH; [done|lia].
Qed.

End collect.

Section collected.
Implicit Types (text : list N) (matches : list MatchData).

(** The first loop of [parseBoxesFromTokens] terminates: one more call of
    [exec] than the text has characters is always enough. *)
Lemma collectMatches_terminates fuel text :
  length text < fuel →
  collectMatches fuel newRefDetRegex text [] =
    Some (matchesOf text, RegExp.mkObj refDetRegex 0).
Proof.
  intros Hfuel.
  destruct (collectMatches_spec refDetRegex refDet_consumes (S (length text))
              newRefDetRegex text []) as (matches & Hc & _);
    cbn [RegExp.source RegExp.lastIndex newRefDetRegex]; [done|lia|lia|].
  unfold matchesOf. rewrite Hc. cbn [from_option fst].
  eapply collectMatches_fuel_mono; [done|lia].
Qed.

Lemma matchesOf_ordered text : ordered 0 (matchesOf text) (length text).
Proof.
  destruct (collectMatches_spec refDetRegex refDet_consumes (S (length text))
              newRefDetRegex text []) as (matches & Hc & Hord);
    cbn [RegExp.source RegExp.lastIndex newRefDetRegex]; [done|lia|lia|].
  unfold matchesOf. by rewrite Hc.
Qed.

(** With enough fuel the bounded function returns, and returns the boxes of
    [parseBoxesFromTokens]. *)
Lemma parseBoxesFromTokens_fuel_enough fuel text isOcrComplete :
  length text < fuel →
  parseBoxesFromTokens_fuel fuel text isOcrComplete =
    Some (parseBoxesFromTokens text isOcrComplete).
Proof.
  intros Hfuel. unfold parseBoxesFromTokens_fuel.
  by rewrite collectMatches_terminates.
Qed.

Lemma ordered_le bound matches limit : ordered bound matches limit → bound ≤ limit.
Proof.
  revert bound. induction matches as [|m matches IH]; intros bound; simpl; [done|].
  intros (? & ? & ?%IH). lia.
Qed.

Lemma ordered_bounds bound matches limit i m :
  ordered bound matches limit → matches !! i = Some m →
  bound ≤ matchStart m ∧ matchStart m < matchEnd m ∧ matchEnd m ≤ limit.
Proof.
  revert bound i. induction matches as [|m0 matches IH]; intros bound i; [done|].
  intros (Hb & Hlt & Hord). pose proof (ordered_le _ _ _ Hord) as Hlim.
  destruct i as [|i]; simpl.
  - intros [= <-]. lia.
  - intros Hm. destruct (IH _ _ Hord Hm) as (?&?&?). lia.
Qed.

Lemma ordered_consecutive bound matches limit i m m' :
  ordered bound matches limit →
  matches !! i = Some m → matches !! S i = Some m' →
  matchEnd m ≤ matchStart m'.
Proof.
  revert bound i. induction matches as [|m0 matches IH]; intros bound i; [done|].
  intros (Hb & Hlt & Hord). destruct i as [|i]; simpl.
  - intros [= <-] Hm'. by destruct (ordered_bounds _ _ _ 0 m' Hord Hm') as (?&?&?).
  - intros Hm Hm'. by apply (IH _ _ Hord Hm).
Qed.

Lemma foldl_push {A B} (g : A → option B) (l : list A) (acc : list B) :
  foldl (λ boxes i, match g i with Some b => boxes ++ [b] | None => boxes end) acc l
  = acc ++ omap g l.
Proof.
  revert acc. induction l as [|i l IH]; intros acc; simpl.
  - by rewrite (right_id_L [] (++)).
  - rewrite IH. destruct (g i); [|done]. by rewrite <-(assoc_L (++)).
Qed.

(** The second loop pushes, in order, the boxes of the matches that have one. *)
Lemma processMatches_omap text isOcrComplete matches :
  processMatches text isOcrComplete matches =
    omap (boxAt text isOcrComplete matches) (seq 0 (length matches)).
Proof. unfold processMatches. by rewrite foldl_push. Qed.

End collected.

(** ** The second loop: one box per well-formed match *)

Section boxes.
Implicit Types (text : list N) (matches : list MatchData) (m : MatchData).

Lemma trailingOf_last text isOcrComplete matches m :
  trailingOf text isOcrComplete (matches ++ [m]) (length matches) m =
    Some (trim (drop (matchEnd m) text),
          isOcrComplete && bool_decide (0 < length (trim (drop (matchEnd m) text)))).
Proof.
  unfold trailingOf. rewrite length_app. simpl.
  rewrite bool_decide_eq_false_2 by lia. by rewrite substring_to_end.
Qed.

Lemma trailingOf_inner text isOcrComplete matches i m m' :
  matches !! S i = Some m' →
  trailingOf text isOcrComplete matches i m =
    Some (trim (substring text (matchEnd m) (Some (matchStart m'))),
          bool_decide (0 < length (trim (substring text (matchEnd m)
                                           (Some (matchStart m')))))).
Proof.
  intros Hm'. unfold trailingOf. pose proof (lookup_lt_Some _ _ _ Hm').
  rewrite bool_decide_eq_true_2 by lia.
  replace (i + 1) with (S i) by lia. by rewrite Hm'.
Qed.

Lemma trailingOf_is_Some text isOcrComplete matches i m :
  i < length matches → is_Some (trailingOf text isOcrComplete matches i m).
Proof.
  intros Hi. unfold trailingOf. case_bool_decide as Hlast; [|done].
  destruct (lookup_lt_is_Some_2 matches (i + 1)) as [m' ->]; [lia|done].
Qed.

(** [boxAt] pushes a box exactly for the matches with four numeric
    coordinates. *)
Lemma boxAt_is_Some text isOcrComplete matches i m :
  matches !! i = Some m →
  is_Some (boxAt text isOcrComplete matches i) ↔ length (parseCoords (coords m)) = 4.
Proof.
  intros Hm. unfold boxAt. rewrite Hm. cbn [mbind option_bind].
  destruct (trailingOf_is_Some text isOcrComplete matches i m) as [[tc fl] Ht];
    [by eapply lookup_lt_Some|].
  destruct (parseCoords (coords m)) as [|c0 [|c1 [|c2 [|c3 [|c4 cs]]]]];
    try (split; [by intros [? [=]] | done]).
  rewrite Ht. cbn [mbind option_bind]. split; [done | by eexists].
Qed.

(** The box of a well-formed match, field by field. *)
Lemma boxAt_wellFormed text isOcrComplete matches i m tc fl :
  matches !! i = Some m → wellFormed m = true →
  trailingOf text isOcrComplete matches i m = Some (tc, fl) →
  ∃ box,
    boxAt text isOcrComplete matches i = Some box ∧
    content box = md_content m ∧
    isType box = bool_decide (md_content m ∈ KNOWN_TYPES) ∧
    type box = (if isType box then md_content m else js "text") ∧
    parseCoords (coords m) = [x1 box; y1 box; x2 box; y2 box] ∧
    textContent box = tc ∧ isComplete box = fl.
Proof.
  intros Hm Hwf Ht. unfold boxAt. rewrite Hm. cbn [mbind option_bind].
  apply bool_decide_eq_true_1 in Hwf.
  destruct (parseCoords (coords m)) as [|c0 [|c1 [|c2 [|c3 [|c4 cs]]]]]; try done.
  rewrite Ht. cbn [mbind option_bind]. eexists. split; [done|]. by cbn.
Qed.

(** Every returned box is the box of some match. *)
Lemma elem_of_parseBoxesFromTokens text isOcrComplete box :
  box ∈ parseBoxesFromTokens text isOcrComplete ↔
  ∃ i, i < length (matchesOf text) ∧
       boxAt text isOcrComplete (matchesOf text) i = Some box.
Proof.
  unfold parseBoxesFromTokens. rewrite processMatches_omap, list_elem_of_omap.
  split.
  - intros (i & Hi%elem_of_seq & Hb). exists i. split; [lia|done].
  - intros (i & Hi & Hb). exists i. split; [|done]. apply elem_of_seq. lia.
Qed.

(** The loop over indices, read as a loop over the matches. *)
Lemma omap_seq_lookup {A B} (f : nat → option B) (g : A → option B) (l : list A) k :
  (∀ i, f (k + i) = l !! i ≫= g) → omap f (seq k (length l)) = omap g l.
Proof.
  revert k. induction l as [|x l IH]; intros k Hf; [done|].
  pose proof (Hf 0) as H0. rewrite Nat.add_0_r in H0. simpl in H0.
  assert (omap f (seq (S k) (length l)) = omap g l) as Htl.
  { apply IH. intros i. specialize (Hf (S i)). by rewrite Nat.add_succ_r in Hf. }
  unfold omap in Htl. simpl. by rewrite H0, Htl.
Qed.

Lemma contents_of_boxes text isOcrComplete matches :
  content <$> processMatches text isOcrComplete matches =
  md_content <$> filter (λ m, wellFormed m = true) matches.
Proof.
  rewrite processMatches_omap, list_fmap_omap.
  rewrite (omap_seq_lookup _
             (λ m, if wellFormed m then Some (md_content m) else None) matches 0).
  - induction matches as [|m matches IH]; [done|].
    cbn [omap list_omap]. rewrite filter_cons.
    destruct (wellFormed m) eqn:Hwf.
    + rewrite decide_True by done. rewrite fmap_cons. f_equal. apply IH.
    + rewrite decide_False by done. apply IH.
  - intros i. cbn [Nat.add]. destruct (matches !! i) as [m|] eqn:Hm.
    + cbn [mbind option_bind]. destruct (wellFormed m) eqn:Hwf.
      * destruct (trailingOf_is_Some text isOcrComplete matches i m) as [[tc fl] Ht];
          [by eapply lookup_lt_Some|].
        destruct (boxAt_wellFormed _ _ _ _ _ _ _ Hm Hwf Ht) as (box & -> & Hc & _).
        by rewrite <-Hc.
      * destruct (boxAt text isOcrComplete matches i) as [box|] eqn:Hb; [|done].
        assert (is_Some (boxAt text isOcrComplete matches i)) as Hs by (by eexists).
        apply (boxAt_is_Some _ _ _ _ _ Hm) in Hs.
        unfold wellFormed in Hwf. by rewrite bool_decide_eq_true_2 in Hwf.
    + unfold boxAt. by rewrite Hm.
Qed.

End boxes.

(** * The claims *)

(** ** C1: the text after the last match *)

(** C1, as the specification states it: the last annotation is never final
    while the stream is open.  The loop runs over the matches, not over the
    annotations, so when the last match is dropped for its coordinates (here
    three numbers) the last annotation returned belongs to a match that is not
    the last: its text is closed by the match that follows, and it is final
    although [isOcrComplete] is false. *)
Lemma dropped_last_match_leaves_final_annotation :
  (∃ box,
     parseBoxesFromTokens
       (js "<|ref|>title<|/ref|><|det|>[[0,0,10,10]]<|/det|>FOO<|ref|>x<|/ref|><|det|>[[1,2,3]]<|/det|>tail")
       false = [box] ∧
     content box = js "title" ∧ textContent box = js "FOO" ∧ isComplete box = true) ∧
  ¬ (∀ text box, last (parseBoxesFromTokens text false) = Some box →
                 isComplete box = false).
Proof.
  assert (∃ box,
     parseBoxesFromTokens
       (js "<|ref|>title<|/ref|><|det|>[[0,0,10,10]]<|/det|>FOO<|ref|>x<|/ref|><|det|>[[1,2,3]]<|/det|>tail")
       false = [box] ∧
     content box = js "title" ∧ textContent box = js "FOO" ∧ isComplete box = true)
    as Hrun.
  { eexists. split; [vm_compute; reflexivity|]. by split_and!. }
  split; [exact Hrun|].
  destruct Hrun as (box & Hparse & _ & _ & Hfinal). intros Hnever.
  specialize (Hnever _ box (f_equal last Hparse)). congruence.
Qed.

(** C1, amended.  Let the last match found in the raw text be [m] and let it
    carry four numeric coordinates, so that it has an annotation.  That
    annotation is the last element of the returned list; its [textContent]
    (trailingText) is the text from the end of [m] to the end of the raw
    text, trimmed; its [isComplete] (isFinal) flag is true exactly when
    [isOcrComplete] (streamEnded) is true and the trimmed text is not empty.
    In particular it is not final while the stream is open, and not final
    when the stream has ended with nothing after the match. *)
Theorem last_match_trailing_text text isOcrComplete matches m :
  matchesOf text = matches ++ [m] →
  wellFormed m = true →
  ∃ box,
    last (parseBoxesFromTokens text isOcrComplete) = Some box ∧
    content box = md_content m ∧
    textContent box = trim (drop (matchEnd m) text) ∧
    isComplete box = isOcrComplete && bool_decide (0 < length (textContent box)) ∧
    (isComplete box = true ↔ isOcrComplete = true ∧ textContent box ≠ []) ∧
    (isOcrComplete = false → isComplete box = false) ∧
    (textContent box = [] → isComplete box = false).
Proof.
  intros Hms Hwf.
  assert ((matches ++ [m]) !! length matches = Some m) as Hm
    by (by rewrite list_lookup_middle).
  destruct (boxAt_wellFormed text isOcrComplete _ _ _ _ _ Hm Hwf
              (trailingOf_last text isOcrComplete matches m))
    as (box & Hbox & Hc & _ & _ & _ & Htc & Hfl).
  exists box. rewrite Htc. split_and!; try done.
  - unfold parseBoxesFromTokens. rewrite Hms, processMatches_omap.
    rewrite length_app, Nat.add_comm. cbn [length]. rewrite seq_S, omap_app.
    cbn [omap list_omap Nat.add]. rewrite Hbox. apply last_snoc.
  - rewrite Hfl. destruct isOcrComplete; cbn [andb].
    + rewrite bool_decide_eq_true. split.
      * intros Hlen. split; [done|]. intros Hnil. rewrite Hnil in Hlen. simpl in Hlen. lia.
      * intros [_ Hne]. destruct (trim _); [done|]. simpl. lia.
    + split; [done|]. by intros [? _].
  - intros ->. by rewrite Hfl.
  - intros Hnil. rewrite Hfl, Hnil. by rewrite andb_false_r.
Qed.

Lemma last_match_trailing_text_witness :
  ∃ box,
    last (parseBoxesFromTokens
            (js "<|ref|>title<|/ref|><|det|>[[0,0,100,50]]<|/det|>Hello") true)
      = Some box ∧
    textContent box = js "Hello" ∧ isComplete box = true.
Proof.
  destruct (last_match_trailing_text
              (js "<|ref|>title<|/ref|><|det|>[[0,0,100,50]]<|/det|>Hello") true
              [] (mkMatchData (js "title") (js "0,0,100,50") 0 49))
    as (box & Hlast & _ & Htc & Hfl & _).
  - vm_compute. reflexivity.
  - vm_compute. reflexivity.
  - exists box. split; [exact Hlast|]. split.
    + rewrite Htc. vm_compute. reflexivity.
    + rewrite Hfl, Htc. vm_compute. reflexivity.
Defined.

(** ** C2: the text between two matches *)

(** C2.  Let [m] be the match at index [i], not the last one, [m'] the match
    at index [i + 1], and let [m] carry four numeric coordinates.  The
    annotation of [m] is in the returned list; its [textContent] is the text
    of the raw input from the end of [m] up to the start of [m'], trimmed; its
    [isComplete] flag is true exactly when that trimmed text has positive
    length; and the annotation is the same whatever [isOcrComplete] is. *)
Theorem inner_match_trailing_text text isOcrComplete i m m' :
  matchesOf text !! i = Some m →
  matchesOf text !! S i = Some m' →
  wellFormed m = true →
  ∃ box,
    boxAt text isOcrComplete (matchesOf text) i = Some box ∧
    box ∈ parseBoxesFromTokens text isOcrComplete ∧
    content box = md_content m ∧
    matchEnd m ≤ matchStart m' ∧ matchStart m' ≤ length text ∧
    textContent box = trim (take (matchStart m' - matchEnd m) (drop (matchEnd m) text)) ∧
    textContent box = trim (substring text (matchEnd m) (Some (matchStart m'))) ∧
    isComplete box = bool_decide (0 < length (textContent box)) ∧
    (isComplete box = true ↔ textContent box ≠ []) ∧
    boxAt text (negb isOcrComplete) (matchesOf text) i = Some box.
Proof.
  intros Hm Hm' Hwf.
  pose proof (matchesOf_ordered text) as Hord.
  pose proof (ordered_consecutive _ _ _ _ _ _ Hord Hm Hm') as Hle.
  destruct (ordered_bounds _ _ _ _ _ Hord Hm') as (_ & Hlt' & Hend').
  destruct (boxAt_wellFormed text isOcrComplete _ _ _ _ _ Hm Hwf
              (trailingOf_inner text isOcrComplete _ _ m _ Hm'))
    as (box & Hbox & Hc & Hty & Htype & Hco & Htc & Hfl).
  exists box. split_and!; try done; try lia.
  - apply elem_of_parseBoxesFromTokens. exists i. split; [|done].
    by eapply lookup_lt_Some.
  - rewrite Htc. by rewrite substring_between by lia.
  - by rewrite Hfl, Htc.
  - rewrite Hfl, Htc, bool_decide_eq_true. destruct (trim _); simpl; split; try done; lia.
  - destruct (boxAt_wellFormed text (negb isOcrComplete) _ _ _ _ _ Hm Hwf
                (trailingOf_inner text (negb isOcrComplete) _ _ m _ Hm'))
      as (box' & Hbox' & Hc' & Hty' & Htype' & Hco' & Htc' & Hfl').
    rewrite Hbox'. f_equal.
    rewrite Hco in Hco'. destruct box, box'. by simplify_eq/=.
Qed.

Lemma inner_match_trailing_text_witness :
  ∃ box,
    box ∈ parseBoxesFromTokens
            (js "<|ref|>title<|/ref|><|det|>[[0,0,10,10]]<|/det|>FOO<|ref|>text<|/ref|><|det|>[[0,0,20,20]]<|/det|>BAR")
            false ∧
    textContent box = js "FOO" ∧ isComplete box = true.
Proof.
  destruct (inner_match_trailing_text
              (js "<|ref|>title<|/ref|><|det|>[[0,0,10,10]]<|/det|>FOO<|ref|>text<|/ref|><|det|>[[0,0,20,20]]<|/det|>BAR")
              false 0
              (mkMatchData (js "title") (js "0,0,10,10") 0 48)
              (mkMatchData (js "text") (js "0,0,20,20") 51 98))
    as (box & _ & Hin & _ & _ & _ & _ & Htc & Hfl & _).
  - vm_compute. reflexivity.
  - vm_compute. reflexivity.
  - vm_compute. reflexivity.
  - exists box. split; [exact Hin|]. split.
    + rewrite Htc. vm_compute. reflexivity.
    + rewrite Hfl, Htc. vm_compute. reflexivity.
Defined.

(** ** C3: malformed coordinates *)

(** C3.  The coordinate string of a match is split on commas, each piece is
    trimmed and read by [parseFloat], and the NaN results are dropped.  A
    match yields a box if and only if exactly four numbers remain.  The other
    matches contribute nothing and do not stop the loop: the returned list
    holds, in order, the boxes of all the matches with four numbers. *)
Theorem malformed_coordinates_dropped text isOcrComplete :
  (∀ coordString,
     parseCoords coordString =
       filter (λ n, Number.isNaN n = false)
              ((λ s, Number.parseFloat (trim s)) <$> split (chr ",") coordString)) ∧
  (∀ i m, matchesOf text !! i = Some m →
     (is_Some (boxAt text isOcrComplete (matchesOf text) i)
      ↔ length (parseCoords (coords m)) = 4)) ∧
  parseBoxesFromTokens text isOcrComplete =
    omap (boxAt text isOcrComplete (matchesOf text)) (seq 0 (length (matchesOf text))) ∧
  content <$> parseBoxesFromTokens text isOcrComplete =
    md_content <$> filter (λ m, wellFormed m = true) (matchesOf text) ∧
  (∀ fuel, length text < fuel →
     parseBoxesFromTokens_fuel fuel text isOcrComplete =
       Some (parseBoxesFromTokens text isOcrComplete)).
Proof.
  split_and!.
  - done.
  - intros i m Hm. by apply boxAt_is_Some.
  - apply processMatches_omap.
  - apply contents_of_boxes.
  - intros fuel Hfuel. by apply parseBoxesFromTokens_fuel_enough.
Qed.

(** ** C9: the worked example of the last span *)

(** Two finite numbers are equal when their reduced fractions are. *)
Lemma Finite_ext (a b : Qc) : (this a == this b)%Q → Number.Finite a = Number.Finite b.
Proof. intros Heq. f_equal. by apply Qc_is_canon. Qed.

(** Evaluate a parse of a concrete text and compare it with a one-box list. *)
Ltac eval_one_box :=
  vm_compute; f_equal; f_equal; apply Finite_ext; reflexivity.

(** C9, as the specification writes its input: the markers [<ref>] and
    [<det>] are not the ones the pattern looks for, nothing matches and no
    annotation is returned, whatever the flag. *)
Lemma plain_markers_yield_nothing :
  parseBoxesFromTokens (js "<ref>title</ref><det>[[0,0,100,50]]</det>Hello") false = [] ∧
  parseBoxesFromTokens (js "<ref>title</ref><det>[[0,0,100,50]]</det>Hello") true = [] ∧
  ¬ ((∃ box,
        parseBoxesFromTokens (js "<ref>title</ref><det>[[0,0,100,50]]</det>Hello") false
          = [box] ∧ isComplete box = false) ∧
     (∃ box,
        box ∈ parseBoxesFromTokens (js "<ref>title</ref><det>[[0,0,100,50]]</det>Hello") true
        ∧ isComplete box = true ∧ textContent box = js "Hello")).
Proof.
  assert (parseBoxesFromTokens (js "<ref>title</ref><det>[[0,0,100,50]]</det>Hello") false
          = []) as Hopen by (vm_compute; reflexivity).
  assert (parseBoxesFromTokens (js "<ref>title</ref><det>[[0,0,100,50]]</det>Hello") true
          = []) as Hended by (vm_compute; reflexivity).
  split_and!; [done..|]. rewrite Hopen. by intros [(box & ? & _) _].
Qed.

(** C9, with the markers of the token format.  On
    ["<|ref|>title<|/ref|><|det|>[[0,0,100,50]]<|/det|>Hello"] the parser
    returns exactly one annotation, the type tag [title] with the box
    (0, 0, 100, 50) and the trailing text ["Hello"]; it is not final when
    [isOcrComplete] is false and final when it is true. *)
Theorem last_span_finality_example :
  parseBoxesFromTokens
    (js "<|ref|>title<|/ref|><|det|>[[0,0,100,50]]<|/det|>Hello") false
  = [ {| content := js "title"; textContent := js "Hello"; isType := true;
         type := js "title";
         x1 := Number.ofZ 0; y1 := Number.ofZ 0;
         x2 := Number.ofZ 100; y2 := Number.ofZ 50;
         isComplete := false |} ] ∧
  parseBoxesFromTokens
    (js "<|ref|>title<|/ref|><|det|>[[0,0,100,50]]<|/det|>Hello") true
  = [ {| content := js "title"; textContent := js "Hello"; isType := true;
         type := js "title";
         x1 := Number.ofZ 0; y1 := Number.ofZ 0;
         x2 := Number.ofZ 100; y2 := Number.ofZ 50;
         isComplete := true |} ].
Proof. split; eval_one_box. Qed.

(** ** C10: the colour of a parsed annotation *)

Lemma known_types_have_colors ty :
  ty ∈ KNOWN_TYPES → ∃ c, TYPE_COLORS !! ty = Some c ∧ colorEntry ty = Some c.
Proof.
  unfold KNOWN_TYPES. intros Hin.
  repeat (apply elem_of_cons in Hin as [->|Hin];
          [eexists; split; vm_compute; reflexivity|]).
  by apply elem_of_nil in Hin.
Qed.

(** C10.  The display type of every annotation the parser returns is one of
    [KNOWN_TYPES]: its own label for a type tag, ['text'] otherwise.  Each of
    them is a key of [TYPE_COLORS], so the renderer never takes the branch for
    unknown types: [isUnknownType] is false, the colour is the one of the
    table and the lime and hot-pink styling is not used. *)
Theorem parsed_types_have_colors text isOcrComplete box :
  box ∈ parseBoxesFromTokens text isOcrComplete →
  type box ∈ KNOWN_TYPES ∧
  type box = (if isType box then content box else js "text") ∧
  isType box = bool_decide (content box ∈ KNOWN_TYPES) ∧
  TYPE_COLORS !! type box = Some (colorOf box) ∧
  isUnknownType box = false ∧
  ∀ imageWidth imageHeight promptType,
    let g := groupOf imageWidth imageHeight promptType box in
    fillColor g = colorOf box ∧ strokeColor g = colorOf box ∧
    strokeWidth g = 2 ∧ labelColor g = js "white".
Proof.
  intros (i & Hi & Hbox)%elem_of_parseBoxesFromTokens.
  destruct (lookup_lt_is_Some_2 (matchesOf text) i Hi) as [m Hm].
  assert (wellFormed m = true) as Hwf.
  { apply bool_decide_eq_true_2, (boxAt_is_Some text isOcrComplete _ _ _ Hm). by eexists. }
  destruct (trailingOf_is_Some text isOcrComplete (matchesOf text) i m Hi) as [[tc fl] Ht].
  destruct (boxAt_wellFormed _ _ _ _ _ _ _ Hm Hwf Ht)
    as (box' & Hbox' & Hc & Hty & Htype & _).
  rewrite Hbox in Hbox'. injection Hbox' as <-.
  assert (type box ∈ KNOWN_TYPES) as Hknown.
  { rewrite Htype. destruct (isType box) eqn:His.
    - symmetry in Hty. by apply bool_decide_eq_true_1 in Hty.
    - unfold KNOWN_TYPES. set_solver. }
  destruct (known_types_have_colors _ Hknown) as (c & Hlook & Hentry).
  assert (colorOf box = c) as Hcolor by (unfold colorOf; by rewrite Hentry).
  assert (isUnknownType box = false) as Hunknown
      by (unfold isUnknownType; by rewrite Hentry).
  split_and!.
  - exact Hknown.
  - rewrite Htype, Hc. reflexivity.
  - rewrite Hty, Hc. reflexivity.
  - rewrite Hcolor. exact Hlook.
  - exact Hunknown.
  - intros w h mode. cbn [groupOf fillColor strokeColor strokeWidth labelColor].
    rewrite Hunknown. repeat split; reflexivity.
Qed.

Lemma parsed_types_have_colors_witness :
  ∃ box,
    box ∈ parseBoxesFromTokens
            (js "<|ref|>Hello world<|/ref|><|det|>[[1,2,3,4]]<|/det|>") false ∧
    type box = js "text" ∧ TYPE_COLORS !! type box = Some (js "#3B82F6").
Proof.
  assert (mkBox (js "Hello world") [] false (js "text") (Number.ofZ 1) (Number.ofZ 2)
            (Number.ofZ 3) (Number.ofZ 4) false
          ∈ parseBoxesFromTokens
              (js "<|ref|>Hello world<|/ref|><|det|>[[1,2,3,4]]<|/det|>") false) as Hin.
  { replace (parseBoxesFromTokens _ _)
      with [mkBox (js "Hello world") [] false (js "text") (Number.ofZ 1) (Number.ofZ 2)
              (Number.ofZ 3) (Number.ofZ 4) false]
      by (symmetry; eval_one_box).
    apply list_elem_of_here. }
  eexists. split; [exact Hin|].
  destruct (parsed_types_have_colors _ _ _ Hin) as (_ & Hty & _ & Hcol & _).
  split; [vm_compute; reflexivity|]. rewrite Hcol. vm_compute. reflexivity.
Defined.

(** ** C5: which boxes can be clicked *)

(** C5.  In mode ['ocr'] a group is interactive exactly when its box is not a
    type tag, and a click copies the label ([content]).  In mode ['document']
    a group is interactive exactly when its box is a type tag that is complete
    and has a non-empty [textContent], and a click copies that text; a type tag
    that is not complete is dimmed and takes no pointer events.  In every
    other mode no group is interactive. *)
Theorem clickability_by_mode imageWidth imageHeight promptType box :
  let g := groupOf imageWidth imageHeight promptType box in
  (promptType = js "ocr" →
     (pointerEvents g = PointerAll ↔ isType box = false) ∧
     onClickCopy g = (if isType box then None else Some (content box)) ∧
     dimmed g = false) ∧
  (promptType = js "document" →
     (pointerEvents g = PointerAll
      ↔ isType box = true ∧ isComplete box = true ∧ textContent box ≠ []) ∧
     onClickCopy g =
       (if isType box && isComplete box && bool_decide (textContent box ≠ [])
        then Some (textContent box) else None) ∧
     (isType box = true → isComplete box = false →
      dimmed g = true ∧ pointerEvents g = PointerNone ∧ onClickCopy g = None)) ∧
  (promptType ≠ js "ocr" → promptType ≠ js "document" →
     pointerEvents g = PointerNone ∧ onClickCopy g = None ∧ dimmed g = false).
Proof.
  assert (bool_decide (js "ocr" = js "document") = false) as Hod by (by vm_compute).
  assert (bool_decide (js "document" = js "ocr") = false) as Hdo by (by vm_compute).
  cbn zeta. cbn [groupOf pointerEvents onClickCopy dimmed].
  unfold isDimmed, isClickable, copyText. split_and!.
  - intros ->. rewrite Hod, !bool_decide_eq_true_2 by done.
    destruct (isType box); cbn; intuition congruence.
  - intros ->. rewrite Hdo, !bool_decide_eq_true_2 by done.
    destruct (isType box), (isComplete box);
      (destruct (decide (textContent box = [])) as [Hnil|Hne];
       [rewrite (bool_decide_eq_false_2 (textContent box ≠ [])) by (by intros ?)
       |rewrite (bool_decide_eq_true_2 (textContent box ≠ [])) by done]);
      cbn; intuition congruence.
  - intros Hocr Hdoc. rewrite !bool_decide_eq_false_2 by done.
    by rewrite !andb_false_r.
Qed.

Lemma clickability_by_mode_witness :
  onClickCopy
    (groupOf (Number.ofZ 800) (Number.ofZ 600) (js "document")
       (mkBox (js "title") (js "Hello") true (js "title") (Number.ofZ 0)
          (Number.ofZ 0) (Number.ofZ 100) (Number.ofZ 50) true))
  = Some (js "Hello") ∧
  pointerEvents
    (groupOf (Number.ofZ 800) (Number.ofZ 600) (js "free")
       (mkBox (js "title") (js "Hello") true (js "title") (Number.ofZ 0)
          (Number.ofZ 0) (Number.ofZ 100) (Number.ofZ 50) true))
  = PointerNone.
Proof.
  split.
  - destruct (clickability_by_mode (Number.ofZ 800) (Number.ofZ 600) (js "document")
                (mkBox (js "title") (js "Hello") true (js "title") (Number.ofZ 0)
                   (Number.ofZ 0) (Number.ofZ 100) (Number.ofZ 50) true))
      as (_ & Hdoc & _).
    destruct (Hdoc eq_refl) as (_ & Hcopy & _). exact Hcopy.
  - destruct (clickability_by_mode (Number.ofZ 800) (Number.ofZ 600) (js "free")
                (mkBox (js "title") (js "Hello") true (js "title") (Number.ofZ 0)
                   (Number.ofZ 0) (Number.ofZ 100) (Number.ofZ 50) true))
      as (_ & _ & Hother).
    destruct Hother as (Hpe & _); [by vm_compute | by vm_compute | exact Hpe].
Defined.

(** ** Rounding of binary64 numbers *)

(** What the projection and [parseInt] need of the arithmetic: how many
    digits a mantissa keeps through the two shifts of a rounding, and from
    there the sign of a result, the double of a normal number, the product
    by a doubled factor and the quotient by 999. *)

Section rounding.
Local Open Scope Z_scope.
Import Binary64.


































End rounding.

(** ** C6: the projection onto the image *)

Section projection.
Import Binary64.
Local Open Scope Z_scope.




End projection.

(** ** C7: the pipeline is a function of its inputs *)

(** C7.  Two invocations of [parseBoxesFromTokens] on the same text and flag,
    each with any bound on its first loop that exceeds the length of the text,
    both return, and return the same list: same length and, index by index,
    the same annotation with the same label, kind, box, trailing text and
    completion flag.  Nothing outlives an invocation: the only object it
    mutates, the RegExp with its [lastIndex], is created by the invocation
    and is back at [lastIndex = 0] when the first loop ends. *)
Theorem parse_annotate_deterministic text isOcrComplete fuel fuel' :
  length text < fuel → length text < fuel' →
  (∃ boxes, parseBoxesFromTokens_fuel fuel text isOcrComplete = Some boxes) ∧
  (∀ boxes boxes',
     parseBoxesFromTokens_fuel fuel text isOcrComplete = Some boxes →
     parseBoxesFromTokens_fuel fuel' text isOcrComplete = Some boxes' →
     boxes' = boxes ∧ length boxes' = length boxes ∧
     ∀ i, boxes' !! i = boxes !! i) ∧
  collectMatches fuel newRefDetRegex text [] = Some (matchesOf text, newRefDetRegex).
Proof.
  intros Hfuel Hfuel'. split_and!.
  - eexists. by apply parseBoxesFromTokens_fuel_enough.
  - intros boxes boxes'.
    rewrite !parseBoxesFromTokens_fuel_enough by done.
    by intros [= <-] [= <-].
  - by apply collectMatches_terminates.
Qed.

Lemma parse_annotate_deterministic_witness :
  parseBoxesFromTokens_fuel 100
    (js "<|ref|>title<|/ref|><|det|>[[0,0,100,50]]<|/det|>Hello") true
  = parseBoxesFromTokens_fuel 55
      (js "<|ref|>title<|/ref|><|det|>[[0,0,100,50]]<|/det|>Hello") true.
Proof.
  destruct (parse_annotate_deterministic
              (js "<|ref|>title<|/ref|><|det|>[[0,0,100,50]]<|/det|>Hello") true 100 55)
    as ([boxes Hboxes] & Hsame & _).
  - vm_compute. lia.
  - vm_compute. lia.
  - destruct (parseBoxesFromTokens_fuel 55 _ true) as [boxes'|] eqn:Hboxes'.
    + destruct (Hsame boxes boxes' Hboxes eq_refl) as (-> & _). exact Hboxes.
    + exfalso.
      assert (parseBoxesFromTokens_fuel 55
                (js "<|ref|>title<|/ref|><|det|>[[0,0,100,50]]<|/det|>Hello") true
              ≠ None) as Hsome by (by vm_compute).
      exact (Hsome Hboxes').
Defined.

(** ** Appending text keeps the matches found so far *)

Section extension.
Import RegExp.
Implicit Types (s t u v x : list N).

(** A match stays a match when text is appended. *)
Lemma detMatch_app u s caps rest :
  detMatch u = Some (caps, rest) → detMatch (u ++ s) = Some (caps, rest ++ s).
Proof.
  intros (c1 & c2 & -> & -> & Hc1 & Hf1 & Hc2 & Hf2)%detMatch_Some.
  apply detMatch_Some. exists c1, c2. split_and!; try done.
  by rewrite <-!(assoc_L (++)).
Qed.

(** Two readings of the same text: one starts with [<], then has no [<] for
    a while ([P]) and no bracket for a while ([Q]); the other has a [<] at a
    later place and a closing bracket after it.  The bracket cannot come
    before the end of [Q]. *)
Lemma no_match_inside x pre P Q Z R T :
  x = chr "<" :: P ++ Q ++ Z →
  Forall (λ c, c ≠ chr "<") P → Forall (λ c, c ≠ chr "]") Q →
  x = pre ++ chr "<" :: R ++ chr "]" :: T →
  pre ≠ [] →
  length pre + 1 + length R < 1 + length P + length Q →
  False.
Proof.
  intros Hx HP HQ Hx' Hpre Hlen.
  assert (x !! length pre = Some (chr "<")) as Hopen
    by (rewrite Hx'; apply list_lookup_middle; done).
  assert (x !! (length pre + 1 + length R) = Some (chr "]")) as Hclose.
  { rewrite Hx'. rewrite (app_comm_cons R), (assoc_L (++)).
    apply list_lookup_middle. rewrite length_app. simpl. lia. }
  assert (1 + length P ≤ length pre) as Hafter.
  { destruct (decide (1 + length P ≤ length pre)) as [|Hin]; [done|]. exfalso.
    destruct pre as [|c pre]; [done|]. simpl in Hopen, Hin.
    rewrite Hx in Hopen. simpl in Hopen.
    rewrite lookup_app_l in Hopen by lia.
    by eapply Forall_lookup_1 in Hopen; [|exact HP]. }
  rewrite Hx in Hclose.
  replace (length pre + 1 + length R) with (S (length P + (length pre + length R - length P)))
    in Hclose by lia.
  simpl in Hclose. rewrite lookup_app_r in Hclose by lia.
  replace (length P + (length pre + length R - length P) - length P)
    with (length pre + length R - length P) in Hclose by lia.
  rewrite lookup_app_l in Hclose by lia.
  by eapply Forall_lookup_1 in Hclose; [|exact HQ].
Qed.

(** If the pattern matches further to the right inside [v], appending text
    cannot make it match at the head of [v]. *)
Lemma detMatch_no_new_match v s n caps rest :
  detMatch v = None → 0 < n →
  detMatch (drop n v) = Some (caps, rest) →
  detMatch (v ++ s) = None.
Proof.
  intros Hnone Hn Hlater.
  destruct (detMatch (v ++ s)) as [[caps' rest']|] eqn:Hnew; [exfalso|done].
  apply detMatch_Some in Hnew as (c1 & c2 & _ & Hx & Hc1 & Hf1 & Hc2 & Hf2).
  apply detMatch_Some in Hlater as (d1 & d2 & _ & Hw & Hd1 & Hg1 & Hd2 & Hg2).
  rewrite !(assoc_L (++) _ _ rest') in Hx.
  rewrite <-!(assoc_L (++)), !(assoc_L (++) _ _ rest') in Hx.
  apply app_eq_app in Hx as [l [[Hv Hrest]|[Hm Hs]]].
  - (* the new match lies inside [v] *)
    assert (detMatch v = Some ([c1; c2], l)) as Hold.
    { apply detMatch_Some. exists c1, c2. split_and!; try done.
      rewrite Hv. by rewrite <-!(assoc_L (++)). }
    congruence.
  - (* the new match ends with [v] or reaches beyond it *)
    destruct l as [|c l].
    { rewrite (right_id_L [] (++)) in Hm.
      assert (detMatch v = Some ([c1; c2], [])) as Hold.
      { apply detMatch_Some. exists c1, c2. split_and!; done. }
      congruence. }
    assert (n < length v) as Hnv.
    { destruct (decide (n < length v)); [done|]. rewrite drop_ge in Hw by lia.
      by destruct (js "<|ref|>") eqn:?. }
    apply (no_match_inside (v ++ c :: l) (take n v)
             (js "|ref|>" ++ c1) (js "<|/ref|><|det|>[[" ++ c2) (js "]]<|/det|>")
             (js "|ref|>" ++ d1 ++ js "<|/ref|><|det|>[[" ++ d2)
             (js "]<|/det|>" ++ rest ++ c :: l)).
    + rewrite <-Hm. by rewrite <-!(assoc_L (++)).
    + apply Forall_app. split; [|done]. by vm_compute; repeat constructor.
    + apply Forall_app. split; [|done]. by vm_compute; repeat constructor.
    + rewrite <-(take_drop n v) at 1. rewrite Hw. by rewrite <-!(assoc_L (++)).
    + intros Hnil%(f_equal length). rewrite length_take in Hnil. simpl in Hnil. lia.
    + apply (f_equal length) in Hm, Hw. rewrite !length_app in Hm, Hw |- *.
      rewrite length_drop in Hw. rewrite length_take. simpl in Hm.
      change (length (js "<|ref|>")) with 7 in *.
      change (length (js "|ref|>")) with 6 in *.
      change (length (js "<|/ref|><|det|>[[")) with 17 in *.
      change (length (js "]]<|/det|>")) with 10 in *.
      lia.
Qed.

(** A successful [exec] gives the same result on the longer text. *)
Lemma exec_extend re t s m re' :
  source re = refDetRegex → lastIndex re ≤ length t →
  exec re t = (Some m, re') →
  exec re (t ++ s) = (Some m, re').
Proof.
  intros Hp Hle. unfold exec. rewrite !bool_decide_eq_false_2
    by (rewrite ?length_app; lia).
  destruct (search _ (drop _ t) _) as [m'|] eqn:Hs; [|done]. intros [= -> <-].
  rewrite Hp in Hs |- *.
  apply search_Some in Hs as (k & caps & rest & Hk & Hi & Hm & Hfirst & Hcaps & Hw).
  rewrite drop_app_le by done. set (u := drop (lastIndex re) t) in *.
  rewrite (search_first refDetRegex (u ++ s) (lastIndex re) k caps (rest ++ s)).
  - rewrite drop_app_le by done. rewrite Hw.
    rewrite <-(assoc_L (++)), !length_app.
    replace (length (whole m) + (length rest + length s) - (length rest + length s))
      with (length (whole m)) by lia.
    rewrite take_app_length. destruct m; simpl in *. by subst.
  - rewrite length_app. lia.
  - rewrite drop_app_le by done. rewrite matchNodes_refDet in Hm |- *.
    by apply detMatch_app.
  - intros j Hj. rewrite drop_app_le by lia. rewrite matchNodes_refDet.
    apply (detMatch_no_new_match _ _ (k - j) caps rest).
    + rewrite <-matchNodes_refDet. by apply Hfirst.
    + lia.
    + rewrite drop_drop. replace (j + (k - j)) with k by lia.
      by rewrite <-matchNodes_refDet.
Qed.

(** The matches collected on a text are the first matches collected on any
    extension of it. *)
Lemma collectMatches_extend fuel fuel' re t s acc matches re' :
  source re = refDetRegex → lastIndex re ≤ length t →
  collectMatches fuel re t acc = Some (matches, re') →
  length (t ++ s) - lastIndex re < fuel' →
  ∃ extra, collectMatches fuel' re (t ++ s) acc = Some (matches ++ extra, mkObj refDetRegex 0).
Proof.
  revert fuel' re acc. induction fuel as [|fuel IH]; intros fuel' re acc Hp Hle; [done|].
  cbn [collectMatches]. destruct (exec re t) as [[m|] re1] eqn:He.
  - intros Hc Hfuel'.
    destruct (exec_Some refDetRegex refDet_consumes _ _ _ _ Hp Hle He)
      as (Hi & Hw & Hend & ->).
    destruct fuel' as [|fuel']; [lia|]. cbn [collectMatches].
    rewrite (exec_extend _ _ s _ _ Hp Hle He).
    apply (IH fuel') in Hc; cbn [source lastIndex]; [done..|].
    rewrite length_app in Hfuel' |- *. lia.
  - intros [= <- <-] Hfuel'.
    destruct (collectMatches_spec refDetRegex refDet_consumes fuel' re (t ++ s) acc)
      as (extra & -> & _); [done| |done|by exists extra].
    rewrite length_app. lia.
Qed.

Lemma matchesOf_prefix t s : matchesOf t `prefix_of` matchesOf (t ++ s).
Proof.
  pose proof (collectMatches_terminates (S (length t)) t (Nat.lt_succ_diag_r _)) as Ht.
  destruct (collectMatches_extend (S (length t)) (S (length (t ++ s)))
              newRefDetRegex t s [] _ _ eq_refl (Nat.le_0_l _) Ht) as [extra Hts].
  { cbn [lastIndex newRefDetRegex]. lia. }
  rewrite collectMatches_terminates in Hts by lia.
  injection Hts as ->. by exists extra.
Qed.

(** Appending text never removes an annotation. *)
Lemma parseBoxesFromTokens_length_mono t s isOcrComplete isOcrComplete' :
  length (parseBoxesFromTokens t isOcrComplete)
  ≤ length (parseBoxesFromTokens (t ++ s) isOcrComplete').
Proof.
  rewrite <-(length_fmap content (parseBoxesFromTokens t _)).
  rewrite <-(length_fmap content (parseBoxesFromTokens (t ++ s) _)).
  unfold parseBoxesFromTokens. rewrite !contents_of_boxes, !length_fmap.
  destruct (matchesOf_prefix t s) as [extra ->].
  rewrite filter_app, length_app. lia.
Qed.

End extension.

(** ** The renderer and the event loop *)

Section rendering.
Implicit Types (boxes : list Box) (o : Overlay) (p : Page) (op : Operation).

Lemma renderBoxes_guard boxes w h mode o :
  Number.falsy w = true ∨ Number.falsy h = true ∨ boxes = [] →
  renderBoxes boxes w h mode o = o.
Proof.
  unfold renderBoxes. intros [-> | [-> | ->]]; [done| |].
  - by rewrite orb_true_r.
  - by rewrite orb_true_r.
Qed.

Lemma renderBoxes_draw boxes w h mode o :
  Number.falsy w = false → Number.falsy h = false → boxes ≠ [] →
  renderBoxes boxes w h mode o =
    {| children := children o ++ (groupOf w h mode <$> drop (lastBoxCount o) boxes);
       viewBox := Some (default (w, h) (viewBox o));
       lastBoxCount := length boxes |}.
Proof.
  intros Hw Hh Hne. unfold renderBoxes. rewrite Hw, Hh.
  rewrite bool_decide_eq_false_2 by (by destruct boxes). cbn [orb].
  f_equal. by destruct (viewBox o).
Qed.

(** When the cursor is not beyond the list, a render leaves as many groups
    as the list has annotations, provided it started with as many groups as
    the cursor says. *)
Lemma renderBoxes_count boxes w h mode o :
  Number.falsy w = false → Number.falsy h = false →
  length (children o) = lastBoxCount o → lastBoxCount o ≤ length boxes →
  let o' := renderBoxes boxes w h mode o in
  length (children o') = length boxes ∧ lastBoxCount o' = length boxes ∧
  children o `prefix_of` children o'.
Proof.
  intros Hw Hh Hcount Hle. destruct boxes as [|box boxes].
  - rewrite renderBoxes_guard by auto. simpl in *. split_and!; [lia..|done].
  - cbn zeta. rewrite renderBoxes_draw by done. cbn [children lastBoxCount].
    rewrite length_app, length_fmap, length_drop. split_and!; [lia|done|].
    by apply prefix_app_r.
Qed.

(** One tick whose fetch resolves at once: the callback renders the boxes of
    the stream and leaves the bookkeeping of the page as it was. *)
Lemma poll_once op p stream :
  tokenPollInterval p = true →
  let p' := run op p (pollEvents [stream]) in
  overlay p' = renderBoxes (parseBoxesFromTokens stream false)
                 (imageNaturalWidth op) (imageNaturalHeight op)
                 (currentPromptType op) (overlay p) ∧
  tokenPollInterval p' = true ∧ pendingPolls p' = pendingPolls p ∧
  settled p' = settled p.
Proof.
  intros Htimer. cbn zeta.
  cbn [pollEvents mbind list_bind app run foldl].
  assert (step op p Tick = withPending (S (pendingPolls p)) p) as ->
    by (unfold step, enabled; by rewrite Htimer).
  unfold step, enabled. cbn [withPending pendingPolls].
  rewrite bool_decide_eq_true_2 by lia.
  unfold pollBody. cbn [status raw_token_stream].
  destruct stream as [|c stream].
  - rewrite renderBoxes_guard by (right; right; by vm_compute).
    cbn [withPending overlay tokenPollInterval pendingPolls settled].
    split_and!; try done. lia.
  - cbn [withPending overlay tokenPollInterval pendingPolls settled].
    split_and!; try done. lia.
Qed.

Lemma run_app op p events events' :
  run op p (events ++ events') = run op (run op p events) events'.
Proof. apply foldl_app. Qed.

(** Along a stream that only grows by appending, polled from a page that has
    drawn one group per annotation of the previous text, every poll leaves one
    group per annotation of its text and keeps the groups drawn before. *)
Lemma polls_invariant op streams :
  Number.falsy (imageNaturalWidth op) = false →
  Number.falsy (imageNaturalHeight op) = false →
  ∀ p previous,
    appendOnly previous streams →
    polling p (length (parseBoxesFromTokens previous false)) →
    let p' := run op p (pollEvents streams) in
    polling p' (length (parseBoxesFromTokens (default previous (last streams)) false)) ∧
    children (overlay p) `prefix_of` children (overlay p').
Proof.
  intros Hw Hh. induction streams as [|stream streams IH]; intros p previous.
  - by intros _ Hp.
  - intros [[extra ->] Happ] (Htimer & Hpending & Hsettled & Hcount & Hcursor).
    destruct (poll_once op p (previous ++ extra) Htimer) as (Ho & Ht & Hp & Hs).
    change (pollEvents ((previous ++ extra) :: streams))
      with (pollEvents [previous ++ extra] ++ pollEvents streams).
    cbn zeta. rewrite run_app.
    set (p1 := run op p (pollEvents [previous ++ extra])) in *.
    destruct (renderBoxes_count (parseBoxesFromTokens (previous ++ extra) false)
                (imageNaturalWidth op) (imageNaturalHeight op) (currentPromptType op)
                (overlay p) Hw Hh) as (Hc1 & Hl1 & Hpre1).
    { by rewrite Hcount, Hcursor. }
    { rewrite Hcursor. apply parseBoxesFromTokens_length_mono. }
    rewrite <-Ho in Hc1, Hl1, Hpre1.
    destruct (IH p1 (previous ++ extra) Happ) as (Hpoll & Hpre).
    { unfold polling. split_and!; try done; congruence. }
    split; [|by etrans].
    replace (default previous (last ((previous ++ extra) :: streams)))
      with (default (previous ++ extra) (last streams)); [done|].
    destruct streams as [|stream streams']; [done|]. rewrite last_cons_cons.
    destruct (last (stream :: streams')) eqn:Hlast; [done|].
    by apply last_None in Hlast.
Qed.

(** The final render of a successful settlement. *)
Lemma settle_final op r p :
  success r = true → truthy (raw_tokens r) = true →
  Number.falsy (imageNaturalWidth op) = false →
  Number.falsy (imageNaturalHeight op) = false →
  children (overlay (settle op r p)) =
    groupOf (imageNaturalWidth op) (imageNaturalHeight op) (currentPromptType op)
      <$> parseBoxesFromTokens (default [] (raw_tokens r)) true ∧
  lastBoxCount (overlay (settle op r p)) =
    length (parseBoxesFromTokens (default [] (raw_tokens r)) true).
Proof.
  intros Hs Hraw Hw Hh. unfold settle. rewrite Hs, Hraw, Hw, Hh. cbn [andb negb overlay].
  destruct (parseBoxesFromTokens (default [] (raw_tokens r)) true) as [|box boxes] eqn:Hb.
  - by rewrite renderBoxes_guard by auto.
  - rewrite renderBoxes_draw by done. cbn [children lastBoxCount resetBoxes].
    by rewrite drop_0.
Qed.

End rendering.

(** ** C4: the incremental renderer and its cursor *)

(** C4, as stated for every annotation list and every cursor: an empty list
    leaves the cursor where it was, not at the length of the list. *)
Lemma cursor_kept_on_empty_list :
  ¬ (∀ boxes imageWidth imageHeight promptType o,
       lastBoxCount (renderBoxes boxes imageWidth imageHeight promptType o)
       = length boxes).
Proof.
  intros Hall.
  specialize (Hall [] (Number.ofZ 800) (Number.ofZ 600) (js "ocr")
                (mkOverlay [] None 2)).
  by vm_compute in Hall.
Qed.

(** C4.  [renderBoxes] returns at once, changing neither the overlay nor the
    cursor, when a dimension is zero or NaN or the list is empty.  Otherwise
    it appends one group for each annotation at an index at or above the
    cursor and for no other, leaves the groups already there as they are, and
    sets the cursor to the length of the list.  Consequently, when the raw
    text only grows by appending and the polls start from a cleared overlay,
    every poll keeps the groups drawn before it, and after it the number of
    groups and the cursor both equal the number of annotations of the latest
    text; and after the final render of a successful operation with raw tokens
    the overlay holds exactly the groups of the final annotations, one each. *)
Theorem renderBoxes_incremental boxes imageWidth imageHeight promptType o
    op streams r p :
  (Number.falsy imageWidth = true ∨ Number.falsy imageHeight = true ∨ boxes = [] →
   renderBoxes boxes imageWidth imageHeight promptType o = o) ∧
  (Number.falsy imageWidth = false → Number.falsy imageHeight = false → boxes ≠ [] →
   let o' := renderBoxes boxes imageWidth imageHeight promptType o in
   children o' =
     children o ++ (groupOf imageWidth imageHeight promptType
                      <$> drop (lastBoxCount o) boxes) ∧
   (∀ j, j < length (children o) → children o' !! j = children o !! j) ∧
   (∀ j, children o' !! (length (children o) + j) =
         groupOf imageWidth imageHeight promptType <$> boxes !! (lastBoxCount o + j)) ∧
   lastBoxCount o' = length boxes) ∧
  (Number.falsy (imageNaturalWidth op) = false →
   Number.falsy (imageNaturalHeight op) = false →
   appendOnly [] streams →
   let latest := parseBoxesFromTokens (default [] (last streams)) false in
   let polled := run op startOperation (pollEvents streams) in
   length (children (overlay polled)) = length latest ∧
   lastBoxCount (overlay polled) = length latest ∧
   ∀ k, k ≤ length streams →
     children (overlay (run op startOperation (pollEvents (take k streams))))
     `prefix_of` children (overlay polled)) ∧
  (success r = true → truthy (raw_tokens r) = true →
   Number.falsy (imageNaturalWidth op) = false →
   Number.falsy (imageNaturalHeight op) = false →
   let final := parseBoxesFromTokens (default [] (raw_tokens r)) true in
   children (overlay (settle op r p)) =
     groupOf (imageNaturalWidth op) (imageNaturalHeight op) (currentPromptType op)
       <$> final ∧
   length (children (overlay (settle op r p))) = length final ∧
   lastBoxCount (overlay (settle op r p)) = length final).
Proof.
  split_and!.
  - apply renderBoxes_guard.
  - intros Hw Hh Hne. cbn zeta. rewrite renderBoxes_draw by done.
    cbn [children lastBoxCount]. split_and!; try done.
    + intros j Hj. by rewrite lookup_app_l.
    + intros j. rewrite lookup_app_r by lia.
      replace (length (children o) + j - length (children o)) with j by lia.
      by rewrite list_lookup_fmap, lookup_drop.
  - intros Hw Hh Happ. cbn zeta.
    assert (polling startOperation (length (parseBoxesFromTokens [] false))) as Hstart
      by (by vm_compute).
    destruct (polls_invariant op streams Hw Hh startOperation [] Happ Hstart)
      as ((_ & _ & _ & Hcount & Hcursor) & _).
    split_and!; try done.
    intros k Hk. rewrite <-(take_drop k streams) at 2.
    assert (∀ previous l, appendOnly previous l →
              appendOnly previous (take k l) ∧
              appendOnly (default previous (last (take k l))) (drop k l)) as Hsplit.
    { clear. intros previous l. revert k previous.
      induction l as [|x l IH]; intros [|k] previous; simpl; try done.
      intros [Hpre Happ]. destruct (IH k x Happ) as [Htake Hdrop].
      split; [done|]. destruct (take k l) eqn:Htk; [done|].
      rewrite last_cons_cons. destruct (last (_ :: _)) eqn:Hlast; [done|].
      by apply last_None in Hlast. }
    destruct (Hsplit [] streams Happ) as [Htake Hdrop].
    destruct (polls_invariant op (take k streams) Hw Hh startOperation [] Htake Hstart)
      as (Hpolling & _).
    unfold pollEvents. rewrite bind_app. fold (pollEvents (take k streams)).
    fold (pollEvents (drop k streams)). rewrite run_app.
    by destruct (polls_invariant op (drop k streams) Hw Hh _ _ Hdrop Hpolling).
  - intros Hs Hraw Hw Hh. cbn zeta.
    destruct (settle_final op r p Hs Hraw Hw Hh) as [Hc Hl].
    split_and!; try done. by rewrite Hc, length_fmap.
Qed.

Lemma renderBoxes_incremental_witness :
  lastBoxCount
    (renderBoxes
       (parseBoxesFromTokens
          (js "<|ref|>title<|/ref|><|det|>[[0,0,100,50]]<|/det|>Hello") false)
       (Number.ofZ 800) (Number.ofZ 600) (js "document") clearOverlay)
  = 1.
Proof.
  destruct (renderBoxes_incremental
              (parseBoxesFromTokens
                 (js "<|ref|>title<|/ref|><|det|>[[0,0,100,50]]<|/det|>Hello") false)
              (Number.ofZ 800) (Number.ofZ 600) (js "document") clearOverlay
              (mkOperation (Number.ofZ 800) (Number.ofZ 600) (js "document"))
              [] (mkOcrResult false [] [] None []) startOperation)
    as (_ & Hdraw & _).
  destruct Hdraw as (_ & _ & _ & Hcursor); [by vm_compute..|].
  rewrite Hcursor. by vm_compute.
Defined.

(** ** C8: polls in flight at settlement *)

Section settlement.
Implicit Types (o : Overlay) (p : Page) (op : Operation) (e : Event).

Lemma renderBoxes_prefix boxes w h mode o :
  children o `prefix_of` children (renderBoxes boxes w h mode o).
Proof.
  unfold renderBoxes. destruct (_ || _); [done|]. by apply prefix_app_r.
Qed.

Lemma pollBody_fields op data p :
  children (overlay p) `prefix_of` children (overlay (pollBody op data p)) ∧
  tokenPollInterval (pollBody op data p) = tokenPollInterval p ∧
  pendingPolls (pollBody op data p) = pendingPolls p ∧
  settled (pollBody op data p) = settled p.
Proof.
  unfold pollBody. destruct (status data); try done.
  destruct (raw_token_stream data) as [[|c s]|]; try done.
  cbn [overlay tokenPollInterval pendingPolls settled].
  split_and!; try done. apply renderBoxes_prefix.
Qed.

(** The interval is cleared by the settlement and never set again. *)
Lemma settled_interval_cleared op events :
  let p := run op startOperation events in
  settled p = true → tokenPollInterval p = false.
Proof.
  cbn zeta. induction events as [|e events IH] using rev_ind; [done|].
  rewrite run_app. cbn [run foldl]. set (p := run op startOperation events) in *.
  unfold step. destruct (enabled p e) eqn:He; [|done].
  destruct e as [|data| |r]; cbn [withPending settled tokenPollInterval]; try done.
  - destruct (pollBody_fields op data (withPending (pendingPolls p - 1) p))
      as (_ & -> & _ & ->). done.
  - intros _. unfold settle. by destruct (success r).
Qed.

(** After the settlement: no tick starts a fetch, no second settlement
    happens, and a poll in flight can only append groups. *)
Lemma step_after_settlement op p e :
  settled p = true → tokenPollInterval p = false →
  let p' := step op p e in
  settled p' = true ∧ tokenPollInterval p' = false ∧
  pendingPolls p' ≤ pendingPolls p ∧
  children (overlay p) `prefix_of` children (overlay p') ∧
  (pendingPolls p = 0 → p' = p).
Proof.
  intros Hs Ht. cbn zeta. unfold step, enabled.
  destruct e as [|data| |r]; rewrite ?Ht, ?Hs; cbn [negb]; try done.
  - case_bool_decide as Hpending; [|split_and!; try done; lia].
    destruct (pollBody_fields op data (withPending (pendingPolls p - 1) p))
      as (Hpre & -> & -> & ->).
    cbn [withPending overlay tokenPollInterval pendingPolls settled] in *.
    split_and!; try done; lia.
  - case_bool_decide as Hpending; [|split_and!; try done; lia].
    cbn [withPending overlay tokenPollInterval pendingPolls settled].
    split_and!; try done; lia.
Qed.

Lemma run_after_settlement op p later :
  settled p = true → tokenPollInterval p = false →
  let p' := run op p later in
  settled p' = true ∧ tokenPollInterval p' = false ∧
  pendingPolls p' ≤ pendingPolls p ∧
  children (overlay p) `prefix_of` children (overlay p') ∧
  (pendingPolls p = 0 → p' = p).
Proof.
  cbn zeta. revert p. induction later as [|e later IH]; intros p Hs Ht.
  - cbn [run foldl]. by split_and!.
  - cbn [run foldl].
    destruct (step_after_settlement op p e Hs Ht) as (Hs1 & Ht1 & Hp1 & Hpre1 & Hsame1).
    destruct (IH (step op p e) Hs1 Ht1) as (Hs2 & Ht2 & Hp2 & Hpre2 & Hsame2).
    fold (run op (step op p e) later) in *.
    split_and!; try done; [lia|by etrans|].
    intros Hzero. rewrite (Hsame1 Hzero) in Hsame2 |- *. by apply Hsame2.
Qed.

End settlement.

(** C8, as stated: a poll started before the settlement and resolved after it
    is not discarded.  Here the final text has one annotation and the late
    poll carries two; the late poll adds a group to the overlay of the final
    render.  After a failed operation the late poll draws on the cleared
    overlay. *)
Lemma late_poll_changes_overlay :
  let op := mkOperation (Number.ofZ 800) (Number.ofZ 600) (js "document") in
  let late :=
    mkProgress StProcessing 98
      (Some (js "<|ref|>title<|/ref|><|det|>[[0,0,10,10]]<|/det|>FOO<|ref|>text<|/ref|><|det|>[[0,0,20,20]]<|/det|>BAR")) in
  let final :=
    mkOcrResult true (js "document") (js "Hello")
      (Some (js "<|ref|>title<|/ref|><|det|>[[0,0,100,50]]<|/det|>Hello")) [] in
  let failed := mkOcrResult false [] [] None (js "timeout") in
  let p := run op startOperation [Tick; Settled final] in
  let q := run op startOperation [Tick; Settled failed] in
  (settled p = true ∧ enabled p (PollResolved late) = true ∧
   length (children (overlay p)) = 1 ∧
   length (children (overlay (step op p (PollResolved late)))) = 2) ∧
  (settled q = true ∧ enabled q (PollResolved late) = true ∧
   length (children (overlay q)) = 0 ∧
   length (children (overlay (step op q (PollResolved late)))) = 2) ∧
  ¬ (∀ events data,
       settled (run op startOperation events) = true →
       overlay (step op (run op startOperation events) (PollResolved data))
       = overlay (run op startOperation events)).
Proof.
  cbn zeta. split; [|split].
  - split_and!; by vm_compute.
  - split_and!; by vm_compute.
  - intros Hdiscard.
    specialize (Hdiscard
      [Tick; Settled (mkOcrResult false [] [] None (js "timeout"))]
      (mkProgress StProcessing 98
         (Some (js "<|ref|>title<|/ref|><|det|>[[0,0,10,10]]<|/det|>FOO<|ref|>text<|/ref|><|det|>[[0,0,20,20]]<|/det|>BAR")))
      eq_refl).
    apply (f_equal (λ o, length (children o))) in Hdiscard.
    by vm_compute in Hdiscard.
Qed.

(** C8.  Once the operation has settled the interval is cleared: no tick
    starts a fetch any more, the number of polls in flight can only go down
    and there is no second settlement.  There is no epoch: a poll in flight at
    the settlement runs its callback when it resolves, and the callback can
    only append groups behind those the overlay holds.  When no poll is in
    flight at the settlement, nothing changes the page afterwards: the final
    render is then the last write to the overlay. *)
Theorem settlement_stops_polling op events later :
  let p := run op startOperation events in
  let p' := run op p later in
  settled p = true →
  tokenPollInterval p = false ∧
  step op p Tick = p ∧
  settled p' = true ∧ tokenPollInterval p' = false ∧
  pendingPolls p' ≤ pendingPolls p ∧
  children (overlay p) `prefix_of` children (overlay p') ∧
  (pendingPolls p = 0 → p' = p).
Proof.
  cbn zeta. intros Hs.
  pose proof (settled_interval_cleared op events Hs) as Ht.
  destruct (run_after_settlement op _ later Hs Ht) as (? & ? & ? & ? & ?).
  split_and!; try done.
  unfold step, enabled. by rewrite Ht.
Qed.

Lemma settlement_stops_polling_witness :
  children
    (overlay
       (run (mkOperation (Number.ofZ 800) (Number.ofZ 600) (js "document"))
          startOperation
          [Tick;
           Settled (mkOcrResult true (js "document") (js "Hello")
                      (Some (js "<|ref|>title<|/ref|><|det|>[[0,0,100,50]]<|/det|>Hello"))
                      [])]))
  `prefix_of`
  children
    (overlay
       (run (mkOperation (Number.ofZ 800) (Number.ofZ 600) (js "document"))
          (run (mkOperation (Number.ofZ 800) (Number.ofZ 600) (js "document"))
             startOperation
             [Tick;
              Settled (mkOcrResult true (js "document") (js "Hello")
                         (Some (js "<|ref|>title<|/ref|><|det|>[[0,0,100,50]]<|/det|>Hello"))
                         [])])
          [PollResolved
             (mkProgress StProcessing 98
                (Some (js "<|ref|>title<|/ref|><|det|>[[0,0,10,10]]<|/det|>FOO<|ref|>text<|/ref|><|det|>[[0,0,20,20]]<|/det|>BAR")))])).
Proof.
  destruct (settlement_stops_polling
              (mkOperation (Number.ofZ 800) (Number.ofZ 600) (js "document"))
              [Tick;
               Settled (mkOcrResult true (js "document") (js "Hello")
                          (Some (js "<|ref|>title<|/ref|><|det|>[[0,0,100,50]]<|/det|>Hello"))
                          [])]
              [PollResolved
                 (mkProgress StProcessing 98
                    (Some (js "<|ref|>title<|/ref|><|det|>[[0,0,10,10]]<|/det|>FOO<|ref|>text<|/ref|><|det|>[[0,0,20,20]]<|/det|>BAR")))])
    as (_ & _ & _ & _ & _ & Hprefix & _).
  - by vm_compute.
  - exact Hprefix.
Defined.

(** * Further properties of the code *)

(** ** [trim] *)

Section trimming.
Implicit Types s t : list N.

Lemma trimStart_split s :
  ∃ ws, s = ws ++ trimStart s ∧ Forall (λ c, isWhiteSpace c = true) ws.
Proof.
  induction s as [|c s (ws & Hs & Hws)]; simpl.
  - by exists [].
  - destruct (isWhiteSpace c) eqn:Hc.
    + exists (c :: ws). split; [by rewrite Hs at 1 | by constructor].
    + by exists [].
Qed.

Lemma trimStart_head s c r : trimStart s = c :: r → isWhiteSpace c = false.
Proof.
  induction s as [|x s IH]; simpl; [done|].
  destruct (isWhiteSpace x) eqn:Hx; [done|]. by intros [= <- _].
Qed.

Lemma trimStart_id s : (∀ c r, s = c :: r → isWhiteSpace c = false) → trimStart s = s.
Proof. destruct s as [|c r]; [done|]. intros H. simpl. by rewrite (H c r). Qed.

Lemma trimEnd_split s :
  ∃ ws, s = trimEnd s ++ ws ∧ Forall (λ c, isWhiteSpace c = true) ws.
Proof.
  unfold trimEnd. destruct (trimStart_split (reverse s)) as (ws & Hs & Hws).
  exists (reverse ws). split; [|by apply Forall_reverse].
  rewrite <-reverse_app, <-Hs. by rewrite reverse_involutive.
Qed.

Lemma trimEnd_last s c r : trimEnd s = r ++ [c] → isWhiteSpace c = false.
Proof.
  unfold trimEnd. intros H%(f_equal reverse).
  rewrite reverse_involutive, reverse_snoc in H. by eapply trimStart_head.
Qed.

(** [trim] removes white space from both ends and nothing else. *)
Lemma trim_split s :
  ∃ before after,
    s = before ++ trim s ++ after ∧
    Forall (λ c, isWhiteSpace c = true) before ∧
    Forall (λ c, isWhiteSpace c = true) after.
Proof.
  unfold trim. destruct (trimStart_split s) as (before & Hs & Hb).
  destruct (trimEnd_split (trimStart s)) as (after & Hs' & Ha).
  exists before, after. split; [|done]. by rewrite <-Hs'.
Qed.

Lemma trim_head s c r : trim s = c :: r → isWhiteSpace c = false.
Proof.
  unfold trim. destruct (trimEnd_split (trimStart s)) as (ws & Hs & _).
  intros Ht. rewrite Ht in Hs. by eapply trimStart_head.
Qed.

Lemma trim_last s c r : trim s = r ++ [c] → isWhiteSpace c = false.
Proof. apply trimEnd_last. Qed.

Lemma trim_idemp s : trim (trim s) = trim s.
Proof.
  unfold trim at 1. rewrite trimStart_id by (intros c r; apply trim_head).
  unfold trimEnd. rewrite trimStart_id; [by rewrite reverse_involutive|].
  intros c r Hr. apply (trim_last s c (reverse r)).
  by rewrite <-reverse_cons, <-Hr, reverse_involutive.
Qed.

Lemma trim_Forall (P : N → Prop) s : Forall P s → Forall P (trim s).
Proof.
  destruct (trim_split s) as (before & after & Hs & _). intros H.
  rewrite Hs in H. by apply Forall_app in H as [_ [H _]%Forall_app].
Qed.

Lemma trim_length s : length (trim s) ≤ length s.
Proof.
  destruct (trim_split s) as (before & after & Hs & _).
  rewrite Hs at 2. rewrite !length_app. lia.
Qed.

End trimming.

(** ** The matches, read back from the text *)

Section shapes.
Import RegExp.
Implicit Types (text : list N) (m : MatchData).

Lemma exec_shape re text r re' :
  source re = refDetRegex → lastIndex re ≤ length text →
  exec re text = (Some r, re') → matchShape text (matchDataOf r).
Proof.
  intros Hp Hle. unfold exec. rewrite bool_decide_eq_false_2 by lia.
  destruct (search _ _ _) as [r'|] eqn:Hs; [|done]. intros [= -> <-].
  rewrite Hp in Hs.
  apply search_Some in Hs as (k & caps & rest & Hk & Hi & Hm & _ & Hcaps & Hw).
  rewrite matchNodes_refDet in Hm.
  apply detMatch_Some in Hm as (c1 & c2 & -> & Hd & Hc1 & Hf1 & Hc2 & Hf2).
  rewrite Hw in Hd. rewrite !(assoc_L (++) _ _ rest) in Hd.
  apply app_inv_tail in Hd.
  exists c1, c2. unfold matchDataOf, group.
  cbn [md_content coords matchStart matchEnd]. rewrite Hcaps. cbn.
  split_and!; try done.
  - rewrite Hd, !length_app.
    change (length (js "<|ref|>")) with 7.
    change (length (js "<|/ref|><|det|>[[")) with 17.
    change (length (js "]]<|/det|>")) with 10. lia.
  - replace (index r + length (whole r) - index r) with (length (whole r)) by lia.
    rewrite Hi, <-drop_drop, Hw, take_app_length. done.
Qed.

Lemma collectMatches_shape fuel re text acc matches re' :
  source re = refDetRegex → lastIndex re ≤ length text →
  Forall (matchShape text) acc →
  collectMatches fuel re text acc = Some (matches, re') →
  Forall (matchShape text) matches.
Proof.
  revert re acc. induction fuel as [|fuel IH]; intros re acc Hp Hle Hacc; [done|].
  cbn [collectMatches]. destruct (exec re text) as [[r|] re1] eqn:He.
  - destruct (exec_Some refDetRegex refDet_consumes _ _ _ _ Hp Hle He)
      as (Hi & Hw & Hend & ->).
    apply IH; cbn [source lastIndex]; [done|lia|].
    apply Forall_app. split; [done|]. constructor; [|done].
    by eapply exec_shape.
  - by intros [= <- _].
Qed.

(** Every match found by the first loop is a span of the text that reads
    [<|ref|>label<|/ref|><|det|>[[coords]]<|/det|>]. *)
Lemma matchesOf_shape text : Forall (matchShape text) (matchesOf text).
Proof.
  eapply (collectMatches_shape (S (length text)) newRefDetRegex text []);
    [done|cbn; lia|done|].
  apply collectMatches_terminates. lia.
Qed.

(** The returned boxes, traced back to their match. *)
Lemma parsed_box_origin text isOcrComplete box :
  box ∈ parseBoxesFromTokens text isOcrComplete →
  ∃ i m,
    matchesOf text !! i = Some m ∧ wellFormed m = true ∧ matchShape text m ∧
    content box = md_content m ∧
    isType box = bool_decide (md_content m ∈ KNOWN_TYPES) ∧
    type box = (if isType box then md_content m else js "text") ∧
    parseCoords (coords m) = [x1 box; y1 box; x2 box; y2 box] ∧
    trailingOf text isOcrComplete (matchesOf text) i m
    = Some (textContent box, isComplete box).
Proof.
  intros (i & Hi & Hbox)%elem_of_parseBoxesFromTokens.
  destruct (lookup_lt_is_Some_2 (matchesOf text) i Hi) as [m Hm].
  assert (wellFormed m = true) as Hwf.
  { apply bool_decide_eq_true_2, (boxAt_is_Some text isOcrComplete _ _ _ Hm). by eexists. }
  destruct (trailingOf_is_Some text isOcrComplete (matchesOf text) i m Hi) as [[tc fl] Ht].
  destruct (boxAt_wellFormed _ _ _ _ _ _ _ Hm Hwf Ht)
    as (box' & Hbox' & Hc & Hty & Htype & Hco & Htc & Hfl).
  rewrite Hbox in Hbox'. injection Hbox' as <-.
  exists i, m. split_and!; try done.
  - eapply Forall_lookup_1; [apply matchesOf_shape|done].
  - by rewrite Ht, Htc, Hfl.
Qed.

End shapes.

(** ** Invariants of the returned boxes *)

Section parsed.
Implicit Types (text : list N) (m : MatchData) (box : Box).

(** X1.  The four coordinates of a returned box are never NaN: each is the
    value [parseFloat] read from one piece of the coordinate list. *)
Theorem parsed_coordinates_not_NaN text isOcrComplete box :
  box ∈ parseBoxesFromTokens text isOcrComplete →
  Number.isNaN (x1 box) = false ∧ Number.isNaN (y1 box) = false ∧
  Number.isNaN (x2 box) = false ∧ Number.isNaN (y2 box) = false ∧
  ∃ m, m ∈ matchesOf text ∧
       ∀ v, v ∈ [x1 box; y1 box; x2 box; y2 box] →
            ∃ piece, piece ∈ split (chr ",") (coords m) ∧
                     v = Number.parseFloat (trim piece).
Proof.
  intros (i & m & Hm & _ & _ & _ & _ & _ & Hco & _)%parsed_box_origin.
  assert (∀ v, v ∈ [x1 box; y1 box; x2 box; y2 box] →
               Number.isNaN v = false ∧
               ∃ piece, piece ∈ split (chr ",") (coords m) ∧
                        v = Number.parseFloat (trim piece)) as Hall.
  { intros v Hv. rewrite <-Hco in Hv. unfold parseCoords in Hv.
    apply list_elem_of_filter in Hv as [Hnan Hv].
    apply list_elem_of_fmap in Hv as (piece & -> & Hpiece). eauto. }
  split_and!; [apply Hall; repeat constructor..|].
  exists m. split; [by eapply list_elem_of_lookup_2|]. intros v Hv. by apply Hall.
Qed.

Lemma parsed_coordinates_not_NaN_witness :
  ∃ box,
    box ∈ parseBoxesFromTokens
            (js "<|ref|>a<|/ref|><|det|>[[1, x, 2.5, Infinity, -3e2]]<|/det|>") false ∧
    Number.isNaN (x2 box) = false.
Proof.
  assert (∃ box, parseBoxesFromTokens
            (js "<|ref|>a<|/ref|><|det|>[[1, x, 2.5, Infinity, -3e2]]<|/det|>") false
          = [box]) as [box Hbox] by (vm_compute; eauto).
  exists box. assert (box ∈ parseBoxesFromTokens
            (js "<|ref|>a<|/ref|><|det|>[[1, x, 2.5, Infinity, -3e2]]<|/det|>") false)
    as Hin by (rewrite Hbox; apply list_elem_of_here).
  split; [exact Hin|].
  exact (proj1 (proj2 (proj2 (parsed_coordinates_not_NaN _ _ _ Hin)))).
Defined.

(** X2.  In a returned box the label and the trailing text carry no white
    space at either end, the label has no [<] in it, and a box flagged
    complete always has a trailing text that is not empty. *)
Theorem parsed_texts_trimmed text isOcrComplete box :
  box ∈ parseBoxesFromTokens text isOcrComplete →
  trim (content box) = content box ∧
  (chr "<" ∉ content box) ∧
  trim (textContent box) = textContent box ∧
  (isComplete box = true → textContent box ≠ []) ∧
  (∀ c, head (textContent box) = Some c ∨ last (textContent box) = Some c →
        isWhiteSpace c = false).
Proof.
  intros (i & m & Hm & _ & Hshape & Hc & _ & _ & _ & Ht)%parsed_box_origin.
  destruct Hshape as (label & cs & Hlabel & _ & _ & Hfree & _).
  assert (∃ raw, textContent box = trim raw ∧
                 (isComplete box = true → trim raw ≠ [])) as (raw & Htc & Hfl).
  { unfold trailingOf in Ht. case_bool_decide.
    - destruct (matchesOf text !! (i + 1)) as [next|]; [|done].
      injection Ht as Htc Hfl. eexists. split; [done|].
      rewrite <-Hfl, bool_decide_eq_true. intros Hlen Hnil.
      rewrite Hnil in Hlen. simpl in Hlen. lia.
    - injection Ht as Htc Hfl. eexists. split; [done|].
      rewrite <-Hfl. intros [_ Hlen%bool_decide_eq_true_1]%andb_true_iff Hnil.
      rewrite Hnil in Hlen. simpl in Hlen. lia. }
  rewrite Hc, Hlabel, Htc. split_and!.
  - apply trim_idemp.
  - intros Hin. eapply Forall_forall in Hin; [|by apply trim_Forall]. done.
  - apply trim_idemp.
  - done.
  - intros c [Hhead|Hlast].
    + destruct (trim raw) as [|c' r] eqn:Hr; [done|]. injection Hhead as ->.
      by eapply trim_head.
    + destruct (trim raw) as [|c' r] eqn:Hr using rev_ind; [done|].
      rewrite last_snoc in Hlast. injection Hlast as ->. by eapply trim_last.
Qed.

Lemma parsed_texts_trimmed_witness :
  ∃ box,
    box ∈ parseBoxesFromTokens
            (js "<|ref|> title <|/ref|><|det|>[[0,0,100,50]]<|/det|>  Hello  ") true ∧
    content box = js "title" ∧ textContent box = js "Hello" ∧
    trim (textContent box) = textContent box.
Proof.
  assert (∃ box, parseBoxesFromTokens
            (js "<|ref|> title <|/ref|><|det|>[[0,0,100,50]]<|/det|>  Hello  ") true
          = [box] ∧ content box = js "title" ∧ textContent box = js "Hello")
    as (box & Hbox & Hc & Ht)
    by (vm_compute; eexists; split_and!; reflexivity).
  exists box.
  assert (box ∈ parseBoxesFromTokens
            (js "<|ref|> title <|/ref|><|det|>[[0,0,100,50]]<|/det|>  Hello  ") true)
    as Hin by (rewrite Hbox; apply list_elem_of_here).
  destruct (parsed_texts_trimmed _ _ _ Hin) as (_ & _ & Htrim & _).
  split; [exact Hin|]. split; [exact Hc|]. split; [exact Ht | exact Htrim].
Defined.

Lemma ordered_span bound matches limit :
  ordered bound matches limit →
  Forall (λ m, matchStart m + 36 ≤ matchEnd m) matches →
  bound + 36 * length matches ≤ limit.
Proof.
  revert bound. induction matches as [|m matches IH]; intros bound; simpl.
  - lia.
  - intros (Hb & _ & Hord) [Hm Hrest]%Forall_cons. specialize (IH _ Hord Hrest). lia.
Qed.

Lemma omap_length_le {A B} (f : A → option B) (l : list A) :
  length (omap f l) ≤ length l.
Proof.
  unfold omap. induction l as [|x l IH]; simpl; [done|].
  destruct (f x); simpl; lia.
Qed.

(** X3.  The matches lie side by side in the text and each takes at least 36
    characters, so a text has at most one box for every 36 of its characters;
    a text shorter than 36 characters, and the empty text, have none. *)
Theorem parsed_boxes_bound text isOcrComplete :
  36 * length (parseBoxesFromTokens text isOcrComplete) ≤ length text ∧
  length (parseBoxesFromTokens text isOcrComplete) ≤ length (matchesOf text) ∧
  36 * length (matchesOf text) ≤ length text ∧
  (length text < 36 → parseBoxesFromTokens text isOcrComplete = []).
Proof.
  assert (36 * length (matchesOf text) ≤ length text) as Hms.
  { apply (ordered_span 0); [apply matchesOf_ordered|].
    eapply Forall_impl; [apply matchesOf_shape|].
    intros m (label & cs & _ & _ & Hl & _ & Hc & _ & Hend & _).
    destruct label, cs; try done. simpl in Hend. lia. }
  assert (length (parseBoxesFromTokens text isOcrComplete) ≤ length (matchesOf text))
    as Hboxes.
  { unfold parseBoxesFromTokens. rewrite processMatches_omap.
    etrans; [apply omap_length_le|]. by rewrite length_seq. }
  split_and!; [lia|done|done|].
  intros Hshort. destruct (parseBoxesFromTokens text isOcrComplete); [done|].
  simpl in Hboxes. lia.
Qed.

Lemma parsed_boxes_bound_witness :
  parseBoxesFromTokens (js "<|ref|>a<|/ref|><|det|>[[1,2,3,4]]") true = [].
Proof.
  destruct (parsed_boxes_bound (js "<|ref|>a<|/ref|><|det|>[[1,2,3,4]]") true)
    as (_ & _ & _ & Hshort).
  apply Hshort. vm_compute. lia.
Defined.

End parsed.

(** ** What appending text changes *)

Section growth.
Implicit Types (t s text : list N) (m : MatchData) (box : Box).

Lemma static_of_boxes text isOcrComplete matches :
  staticOf <$> processMatches text isOcrComplete matches = omap staticOfMatch matches.
Proof.
  rewrite processMatches_omap, list_fmap_omap.
  apply (omap_seq_lookup _ staticOfMatch matches 0).
  intros i. cbn [Nat.add]. destruct (matches !! i) as [m|] eqn:Hm.
  - cbn [mbind option_bind]. unfold staticOfMatch.
    destruct (wellFormed m) eqn:Hwf.
    + destruct (trailingOf_is_Some text isOcrComplete matches i m) as [[tc fl] Ht];
        [by eapply lookup_lt_Some|].
      destruct (boxAt_wellFormed _ _ _ _ _ _ _ Hm Hwf Ht)
        as (box & -> & Hc & Hty & Htype & -> & _).
      cbn [fmap option_fmap option_map]. unfold staticOf.
      by rewrite Hc, Htype, Hty.
    + destruct (boxAt text isOcrComplete matches i) as [box|] eqn:Hb.
      * assert (is_Some (boxAt text isOcrComplete matches i)) as Hs by (by eexists).
        apply (boxAt_is_Some _ _ _ _ _ Hm) in Hs.
        unfold wellFormed in Hwf. by rewrite bool_decide_eq_true_2 in Hwf.
      * apply bool_decide_eq_false_1 in Hwf.
        by destruct (parseCoords (coords m)) as [|c0 [|c1 [|c2 [|c3 [|c4 cs]]]]].
  - unfold boxAt. by rewrite Hm.
Qed.

(** The static parts of the boxes of a text are the first static parts of
    the boxes of any extension. *)
Lemma static_prefix t s isOcrComplete isOcrComplete' :
  ∃ more,
    staticOf <$> parseBoxesFromTokens (t ++ s) isOcrComplete'
    = (staticOf <$> parseBoxesFromTokens t isOcrComplete) ++ more.
Proof.
  unfold parseBoxesFromTokens. rewrite !static_of_boxes.
  destruct (matchesOf_prefix t s) as [extra ->]. rewrite omap_app. eauto.
Qed.

(** The box of a match that is not the last one does not change. *)
Lemma boxAt_stable t s isOcrComplete isOcrComplete' extra i :
  S i < length (matchesOf t) →
  boxAt (t ++ s) isOcrComplete' (matchesOf t ++ extra) i
  = boxAt t isOcrComplete (matchesOf t) i.
Proof.
  intros Hi. unfold boxAt. rewrite lookup_app_l by lia.
  destruct (matchesOf t !! i) as [m|] eqn:Hm; [|done]. cbn [mbind option_bind].
  destruct (parseCoords (coords m)) as [|c0 [|c1 [|c2 [|c3 [|c4 cs]]]]]; try done.
  destruct (lookup_lt_is_Some_2 (matchesOf t) (S i) Hi) as [next Hnext].
  rewrite (trailingOf_inner t isOcrComplete _ _ m _ Hnext).
  rewrite (trailingOf_inner (t ++ s) isOcrComplete' _ _ m next)
    by (by rewrite lookup_app_l by lia).
  pose proof (matchesOf_ordered t) as Hord.
  pose proof (ordered_consecutive _ _ _ _ _ _ Hord Hm Hnext) as Hle.
  destruct (ordered_bounds _ _ _ _ _ Hord Hnext) as (_ & Hlt & Hend).
  rewrite !substring_between by (rewrite ?length_app; lia).
  rewrite drop_app_le by lia.
  rewrite take_app_le by (rewrite length_drop; lia). done.
Qed.

(** X4.  Appending text to the raw text never changes an annotation already
    returned, except the last one: every annotation but the last is returned
    again, at the same index and equal in every field, and the last one keeps
    its label, kind, type and coordinates (only its trailing text and
    completion flag can change).  The flag plays no part in this. *)
Theorem parsed_boxes_stable t s isOcrComplete isOcrComplete' :
  (∀ i, S i < length (parseBoxesFromTokens t isOcrComplete) →
        parseBoxesFromTokens (t ++ s) isOcrComplete' !! i
        = parseBoxesFromTokens t isOcrComplete !! i) ∧
  (∀ i box, parseBoxesFromTokens t isOcrComplete !! i = Some box →
        ∃ box', parseBoxesFromTokens (t ++ s) isOcrComplete' !! i = Some box' ∧
                staticOf box' = staticOf box) ∧
  length (parseBoxesFromTokens t isOcrComplete)
  ≤ length (parseBoxesFromTokens (t ++ s) isOcrComplete').
Proof.
  split_and!.
  - intros i Hi. unfold parseBoxesFromTokens in *.
    destruct (matchesOf_prefix t s) as [extra Hext]. rewrite Hext.
    rewrite !processMatches_omap in *. rewrite length_app.
    destruct (length (matchesOf t)) as [|n] eqn:Hn; [simpl in Hi; lia|].
    rewrite seq_S in Hi |- *. cbn [Nat.add] in *.
    replace (seq 0 (S (n + length extra))) with (seq 0 n ++ seq n (S (length extra)))
      by (rewrite <-seq_app; f_equal; lia).
    rewrite !omap_app in *.
    assert (omap (boxAt (t ++ s) isOcrComplete' (matchesOf t ++ extra)) (seq 0 n)
            = omap (boxAt t isOcrComplete (matchesOf t)) (seq 0 n)) as Hsame.
    { apply list_omap_ext, Forall_Forall2_diag, Forall_forall.
      intros k Hk%elem_of_seq. apply boxAt_stable. lia. }
    rewrite Hsame. rewrite length_app in Hi.
    pose proof (omap_length_le (boxAt t isOcrComplete (matchesOf t)) [n]) as Hone.
    change (length [n]) with 1 in Hone. rewrite !lookup_app_l by lia. done.
  - intros i box Hbox.
    destruct (static_prefix t s isOcrComplete isOcrComplete') as [more Hmore].
    assert ((staticOf <$> parseBoxesFromTokens (t ++ s) isOcrComplete') !! i
            = Some (staticOf box)) as Hlook.
    { rewrite Hmore. apply lookup_app_l_Some. by rewrite list_lookup_fmap, Hbox. }
    rewrite list_lookup_fmap in Hlook.
    destruct (parseBoxesFromTokens (t ++ s) isOcrComplete' !! i) as [box'|]; [|done].
    exists box'. split; [done|]. cbn in Hlook. congruence.
  - apply parseBoxesFromTokens_length_mono.
Qed.

Lemma parsed_boxes_stable_witness :
  parseBoxesFromTokens
    (js "<|ref|>title<|/ref|><|det|>[[0,0,10,10]]<|/det|>FOO<|ref|>text<|/ref|><|det|>[[0,0,20,20]]<|/det|>BAR" ++ js " and more")
    true !! 0
  = parseBoxesFromTokens
      (js "<|ref|>title<|/ref|><|det|>[[0,0,10,10]]<|/det|>FOO<|ref|>text<|/ref|><|det|>[[0,0,20,20]]<|/det|>BAR")
      false !! 0.
Proof.
  destruct (parsed_boxes_stable
              (js "<|ref|>title<|/ref|><|det|>[[0,0,10,10]]<|/det|>FOO<|ref|>text<|/ref|><|det|>[[0,0,20,20]]<|/det|>BAR")
              (js " and more") false true) as (Hsame & _).
  apply Hsame. vm_compute. lia.
Defined.

End growth.

(** ** The overlay drawn by the polls *)

Section drawn.
Implicit Types (t s : list N) (box : Box) (o : Overlay) (p : Page) (op : Operation).

(** What is drawn of a group depends on the static part of its box only. *)
Lemma shapeOf_static w h mode box box' :
  staticOf box = staticOf box' →
  shapeOf (groupOf w h mode box) = shapeOf (groupOf w h mode box').
Proof.
  unfold staticOf. intros [= Hc Hk Hty Hx1 Hy1 Hx2 Hy2].
  unfold shapeOf, groupOf, scaleBox, colorOf, isUnknownType, displayText.
  cbn [rectX rectY rectWidth rectHeight fillColor strokeColor strokeWidth labelText
       labelWidth labelColor scaledX1 scaledY1 scaledX2 scaledY2].
  by rewrite Hc, Hk, Hty, Hx1, Hy1, Hx2, Hy2.
Qed.

Lemma fmap_static_shape w h mode (l l' : list Box) :
  staticOf <$> l = staticOf <$> l' →
  shapeOf <$> (groupOf w h mode <$> l) = shapeOf <$> (groupOf w h mode <$> l').
Proof.
  revert l'. induction l as [|b l IH]; intros [|b' l']; try done.
  rewrite !fmap_cons. intros Heq.
  assert (staticOf b = staticOf b') as Hb by congruence.
  assert (staticOf <$> l = staticOf <$> l') as Hl by congruence.
  f_equal; [by apply shapeOf_static | by apply IH].
Qed.

(** The groups of the boxes of a text are, as drawn, the first groups of the
    boxes of any extension. *)
Lemma shape_take w h mode t s :
  shapeOf <$> (groupOf w h mode <$> parseBoxesFromTokens t false)
  = take (length (parseBoxesFromTokens t false))
      (shapeOf <$> (groupOf w h mode <$> parseBoxesFromTokens (t ++ s) false)).
Proof.
  destruct (static_prefix t s false false) as [more Hmore].
  rewrite <-!fmap_take. apply fmap_static_shape. rewrite fmap_take, Hmore.
  by rewrite take_app_length' by (by rewrite length_fmap).
Qed.

Lemma polls_shape op streams :
  Number.falsy (imageNaturalWidth op) = false →
  Number.falsy (imageNaturalHeight op) = false →
  ∀ p previous,
    appendOnly previous streams →
    polling p (length (parseBoxesFromTokens previous false)) →
    shapeOf <$> children (overlay p)
    = shapeOf <$> (groupOf (imageNaturalWidth op) (imageNaturalHeight op)
                     (currentPromptType op) <$> parseBoxesFromTokens previous false) →
    shapeOf <$> children (overlay (run op p (pollEvents streams)))
    = shapeOf <$> (groupOf (imageNaturalWidth op) (imageNaturalHeight op)
                     (currentPromptType op)
                   <$> parseBoxesFromTokens (default previous (last streams)) false).
Proof.
  intros Hw Hh. induction streams as [|stream streams IH]; intros p previous.
  - by intros _ _ Hshape.
  - intros [[extra ->] Happ] Hpolling Hshape.
    pose proof Hpolling as (Htimer & Hpending & Hsettled & Hcount & Hcursor).
    destruct (poll_once op p (previous ++ extra) Htimer) as (Ho & _).
    destruct (polls_invariant op [previous ++ extra] Hw Hh p previous)
      as (Hpolling1 & _); [by split; [exists extra|]|done|].
    cbn [last default] in Hpolling1.
    change (pollEvents ((previous ++ extra) :: streams))
      with (pollEvents [previous ++ extra] ++ pollEvents streams).
    rewrite run_app. set (p1 := run op p (pollEvents [previous ++ extra])) in *.
    replace (default previous (last ((previous ++ extra) :: streams)))
      with (default (previous ++ extra) (last streams)).
    2:{ destruct streams as [|x l]; [done|]. rewrite last_cons_cons.
        destruct (last (x :: l)) eqn:Hlast; [done|]. by apply last_None in Hlast. }
    apply IH; [done|done|]. rewrite Ho.
    destruct (parseBoxesFromTokens (previous ++ extra) false) as [|b bs] eqn:Hboxes.
    + rewrite renderBoxes_guard by auto. rewrite Hshape.
      pose proof (parseBoxesFromTokens_length_mono previous extra false false) as Hmono.
      rewrite Hboxes in Hmono.
      destruct (parseBoxesFromTokens previous false); [done|]. simpl in Hmono. lia.
    + rewrite renderBoxes_draw by done. cbn [children].
      rewrite fmap_app, Hshape, Hcursor, !fmap_drop.
      rewrite (shape_take _ _ _ previous extra), Hboxes.
      by rewrite take_drop.
Qed.

(** X5.  While the raw text only grows by appending, the overlay the polls
    have built, group by group, shows the same rectangles, colours and labels
    as one render of the latest text from a cleared overlay would.  The groups
    drawn earlier can differ only in what depends on the trailing text:
    pointer events, cursor, dimming, click listener and tooltip. *)
Theorem incremental_overlay_shape op streams :
  Number.falsy (imageNaturalWidth op) = false →
  Number.falsy (imageNaturalHeight op) = false →
  appendOnly [] streams →
  let latest := parseBoxesFromTokens (default [] (last streams)) false in
  let polled := overlay (run op startOperation (pollEvents streams)) in
  let full := renderBoxes latest (imageNaturalWidth op) (imageNaturalHeight op)
                (currentPromptType op) clearOverlay in
  shapeOf <$> children polled = shapeOf <$> children full ∧
  lastBoxCount polled = lastBoxCount full.
Proof.
  intros Hw Hh Happ. cbn zeta.
  assert (polling startOperation (length (parseBoxesFromTokens [] false))) as Hstart
    by (by vm_compute).
  destruct (polls_invariant op streams Hw Hh startOperation [] Happ Hstart)
    as ((_ & _ & _ & _ & Hcursor) & _).
  rewrite (polls_shape op streams Hw Hh startOperation [] Happ Hstart)
    by (by vm_compute).
  rewrite Hcursor.
  destruct (parseBoxesFromTokens (default [] (last streams)) false) as [|b bs] eqn:Hb.
  - by rewrite renderBoxes_guard by auto.
  - rewrite renderBoxes_draw by done. by cbn.
Qed.

Lemma incremental_overlay_shape_witness :
  lastBoxCount
    (overlay
       (run (mkOperation (Number.ofZ 800) (Number.ofZ 600) (js "document"))
          startOperation
          (pollEvents
             [js "<|ref|>title<|/ref|><|det|>[[0,0,10,10]]<|/det|>FO";
              js "<|ref|>title<|/ref|><|det|>[[0,0,10,10]]<|/det|>FOO<|ref|>text<|/ref|><|det|>[[0,0,20,20]]<|/det|>BAR"])))
  = 2.
Proof.
  destruct (incremental_overlay_shape
              (mkOperation (Number.ofZ 800) (Number.ofZ 600) (js "document"))
              [js "<|ref|>title<|/ref|><|det|>[[0,0,10,10]]<|/det|>FO";
               js "<|ref|>title<|/ref|><|det|>[[0,0,10,10]]<|/det|>FOO<|ref|>text<|/ref|><|det|>[[0,0,20,20]]<|/det|>BAR"])
    as (_ & Hcursor).
  - by vm_compute.
  - by vm_compute.
  - cbn [appendOnly]. split_and!; [by apply prefix_nil| |done].
    by exists (js "O<|ref|>text<|/ref|><|det|>[[0,0,20,20]]<|/det|>BAR").
  - rewrite Hcursor. by vm_compute.
Defined.

(** The cursor never runs ahead of the groups drawn. *)
Lemma renderBoxes_cursor_behind boxes w h mode o :
  lastBoxCount o ≤ length (children o) →
  lastBoxCount (renderBoxes boxes w h mode o)
  ≤ length (children (renderBoxes boxes w h mode o)).
Proof.
  intros Hle. unfold renderBoxes. destruct (_ || _); [done|].
  cbn [children lastBoxCount]. rewrite length_app, length_fmap, length_drop. lia.
Qed.

(** X6.  Whatever the events of an operation are (ticks, poll results in any
    order and with any streams, failures, the settlement), the cursor
    [lastBoxCount] never exceeds the number of groups in the overlay: every
    index below the cursor has a group. *)
Theorem cursor_never_ahead op events :
  lastBoxCount (overlay (run op startOperation events))
  ≤ length (children (overlay (run op startOperation events))).
Proof.
  induction events as [|e events IH] using rev_ind; [done|].
  rewrite run_app. cbn [run foldl]. set (p := run op startOperation events) in *.
  unfold step. destruct (enabled p e); [|done].
  destruct e as [|data| |r]; cbn [withPending overlay]; try done.
  - unfold pollBody. cbn [withPending overlay status raw_token_stream].
    destruct (status data); try done.
    destruct (raw_token_stream data) as [[|c s]|]; try done.
    cbn [overlay]. by apply renderBoxes_cursor_behind.
  - unfold settle. destruct (success r); [|done]. cbn [overlay].
    destruct (_ && _); [|done]. by apply renderBoxes_cursor_behind.
Qed.

(** X7.  A list shorter than the cursor removes nothing: the groups stay and
    the cursor drops to the length of the list.  When a longer list follows,
    the indices from the lowered cursor on are drawn again, so the overlay
    ends with more groups than the list has annotations. *)
Theorem shrinking_list_duplicates boxes boxes' w h mode o :
  Number.falsy w = false → Number.falsy h = false →
  boxes ≠ [] → length boxes < lastBoxCount o →
  lastBoxCount o ≤ length (children o) →
  length boxes < length boxes' →
  let o1 := renderBoxes boxes w h mode o in
  let o2 := renderBoxes boxes' w h mode o1 in
  children o1 = children o ∧ lastBoxCount o1 = length boxes ∧
  children o2 = children o ++ (groupOf w h mode <$> drop (length boxes) boxes') ∧
  length (children o2) = length (children o) + (length boxes' - length boxes) ∧
  (lastBoxCount o ≤ length boxes' → length boxes' < length (children o2)).
Proof.
  intros Hw Hh Hne Hshort Hbehind Hgrow. cbn zeta.
  rewrite (renderBoxes_draw boxes) by done.
  rewrite (renderBoxes_draw boxes') by (destruct boxes'; [simpl in Hgrow; lia|done]).
  cbn [children lastBoxCount].
  rewrite drop_ge by lia. rewrite fmap_nil, (right_id_L [] (++)).
  split_and!; try done.
  - rewrite length_app, length_fmap, length_drop. done.
  - intros Hle. rewrite length_app, length_fmap, length_drop. lia.
Qed.

Lemma shrinking_list_duplicates_witness :
  length
    (children
       (renderBoxes
          (parseBoxesFromTokens
             (js "<|ref|>a<|/ref|><|det|>[[1,2,3,4]]<|/det|><|ref|>b<|/ref|><|det|>[[1,2,3,4]]<|/det|>")
             false)
          (Number.ofZ 800) (Number.ofZ 600) (js "ocr")
          (renderBoxes
             (parseBoxesFromTokens (js "<|ref|>a<|/ref|><|det|>[[1,2,3,4]]<|/det|>") false)
             (Number.ofZ 800) (Number.ofZ 600) (js "ocr")
             (renderBoxes
                (parseBoxesFromTokens
                   (js "<|ref|>a<|/ref|><|det|>[[1,2,3,4]]<|/det|><|ref|>b<|/ref|><|det|>[[1,2,3,4]]<|/det|>")
                   false)
                (Number.ofZ 800) (Number.ofZ 600) (js "ocr") clearOverlay))))
  = 3.
Proof.
  destruct (shrinking_list_duplicates
              (parseBoxesFromTokens (js "<|ref|>a<|/ref|><|det|>[[1,2,3,4]]<|/det|>") false)
              (parseBoxesFromTokens
                 (js "<|ref|>a<|/ref|><|det|>[[1,2,3,4]]<|/det|><|ref|>b<|/ref|><|det|>[[1,2,3,4]]<|/det|>")
                 false)
              (Number.ofZ 800) (Number.ofZ 600) (js "ocr")
              (renderBoxes
                 (parseBoxesFromTokens
                    (js "<|ref|>a<|/ref|><|det|>[[1,2,3,4]]<|/det|><|ref|>b<|/ref|><|det|>[[1,2,3,4]]<|/det|>")
                    false)
                 (Number.ofZ 800) (Number.ofZ 600) (js "ocr") clearOverlay))
    as (_ & _ & _ & Hcount & _).
  - by vm_compute.
  - by vm_compute.
  - by vm_compute.
  - vm_compute. lia.
  - vm_compute. lia.
  - vm_compute. lia.
  - rewrite Hcount. by vm_compute.
Defined.

End drawn.

(** ** extractTextFromTokens *)

Section extracted.
Implicit Types (t s text sep : list N) (pieces : list (list N)).

Lemma join_app sep pieces pieces' :
  pieces ≠ [] → pieces' ≠ [] →
  join sep (pieces ++ pieces') = join sep pieces ++ sep ++ join sep pieces'.
Proof.
  intros Hne Hne'. induction pieces as [|x pieces IH]; [done|].
  destruct pieces as [|y pieces].
  - destruct pieces' as [|z pieces']; [done|]. done.
  - change (join sep ((x :: y :: pieces) ++ pieces'))
      with (x ++ sep ++ join sep ((y :: pieces) ++ pieces')).
    rewrite IH by done.
    change (join sep (x :: y :: pieces)) with (x ++ sep ++ join sep (y :: pieces)).
    by rewrite <-!(assoc_L (++)).
Qed.

Lemma join_prefix sep pieces pieces' :
  join sep pieces `prefix_of` join sep (pieces ++ pieces').
Proof.
  destruct pieces as [|x pieces]; [apply prefix_nil|].
  destruct pieces' as [|y pieces']; [by rewrite (right_id_L [] (++))|].
  rewrite join_app by done. by apply prefix_app_r.
Qed.

Lemma text_pieces (boxes : list Box) :
  content <$> filter (λ box, isType box = false) boxes
  = omap textPieceOf (staticOf <$> boxes).
Proof.
  induction boxes as [|b boxes IH]; [done|].
  rewrite filter_cons, fmap_cons. cbn [omap list_omap]. unfold omap in IH.
  unfold staticOf at 1. cbn [textPieceOf].
  destruct (isType b); [by rewrite decide_False | rewrite decide_True by done].
  by rewrite fmap_cons, IH.
Qed.

Lemma staticOfMatch_spec (m : MatchData) :
  if wellFormed m
  then ∃ cs, staticOfMatch m
             = Some (md_content m, bool_decide (md_content m ∈ KNOWN_TYPES),
                     (if bool_decide (md_content m ∈ KNOWN_TYPES)
                      then md_content m else js "text"), cs)
  else staticOfMatch m = None.
Proof.
  unfold wellFormed, staticOfMatch.
  destruct (parseCoords (coords m)) as [|c0 [|c1 [|c2 [|c3 [|c4 cs]]]]];
    try (by rewrite bool_decide_eq_false_2).
  rewrite bool_decide_eq_true_2 by done. eauto.
Qed.

Lemma omap_cons {A B} (f : A → option B) (x : A) (l : list A) :
  omap f (x :: l) = match f x with Some y => y :: omap f l | None => omap f l end.
Proof. done. Qed.

Lemma pieces_of_matches (matches : list MatchData) :
  omap textPieceOf (omap staticOfMatch matches)
  = filter (λ label, label ∉ KNOWN_TYPES)
      (md_content <$> filter (λ m, wellFormed m = true) matches).
Proof.
  induction matches as [|m ms IH]; [done|].
  rewrite filter_cons, omap_cons.
  pose proof (staticOfMatch_spec m) as Hm.
  destruct (wellFormed m) eqn:Hwf.
  - destruct Hm as [cs ->]. rewrite decide_True by done.
    rewrite fmap_cons, filter_cons, omap_cons. cbn [textPieceOf].
    case_bool_decide as Hknown.
    + by rewrite decide_False by (by intros ?).
    + rewrite decide_True by done. by f_equal.
  - by rewrite Hm, decide_False by done.
Qed.

(** X8.  The text [extractTextFromTokens] returns only grows when text is
    appended to the raw text: what it returned before is a prefix of what it
    returns after.  It is the labels of the matches with four numeric
    coordinates that are not type tags, in order, joined by line feeds. *)
Theorem extracted_text_grows t s :
  extractTextFromTokens t `prefix_of` extractTextFromTokens (t ++ s) ∧
  extractTextFromTokens t
  = join [10%N]
      (filter (λ label, label ∉ KNOWN_TYPES)
         (md_content <$> filter (λ m, wellFormed m = true) (matchesOf t))).
Proof.
  split.
  - unfold extractTextFromTokens. cbn zeta. rewrite !text_pieces.
    destruct (static_prefix t s false false) as [more ->].
    rewrite omap_app. apply join_prefix.
  - unfold extractTextFromTokens. cbn zeta. f_equal.
    rewrite text_pieces. unfold parseBoxesFromTokens. rewrite static_of_boxes.
    apply pieces_of_matches.
Qed.

(** A text without [<] has no match. *)
Lemma no_marker_no_match text : chr "<" ∉ text → matchesOf text = [].
Proof.
  intros Hfree. pose proof (matchesOf_shape text) as Hshape.
  destruct (matchesOf text) as [|m ms]; [done|]. exfalso.
  apply Forall_cons in Hshape as [(label & cs & _ & _ & _ & _ & _ & _ & _ & Hspan) _].
  apply Hfree. apply (subseteq_drop (matchStart m)), (subseteq_take (matchEnd m - matchStart m)).
  rewrite Hspan. change (js "<|ref|>") with (chr "<" :: js "|ref|>").
  apply list_elem_of_here.
Qed.

(** X9.  A raw text without any [<] yields no annotation and an empty
    extracted text.  In mode ['ocr'] a poll that delivers such a stream draws
    nothing and leaves the results panel as it was, whatever count of
    characters comes with it, and a successful settlement whose raw tokens
    are such a text shows an empty results panel, whatever [result] holds. *)
Theorem plain_text_yields_nothing text isOcrComplete op r p :
  chr "<" ∉ text →
  parseBoxesFromTokens text isOcrComplete = [] ∧
  extractTextFromTokens text = [] ∧
  (currentPromptType op = js "ocr" →
   ∀ chars,
     overlay (pollBody op (mkProgress StProcessing chars (Some text)) p) = overlay p ∧
     resultsContent (pollBody op (mkProgress StProcessing chars (Some text)) p)
     = resultsContent p) ∧
  (success r = true → prompt_type r = js "ocr" → raw_tokens r = Some text →
   text ≠ [] → resultsContent (settle op r p) = PanelText []).
Proof.
  intros Hfree.
  assert (parseBoxesFromTokens text isOcrComplete = []) as Hparse
    by (unfold parseBoxesFromTokens; by rewrite no_marker_no_match).
  assert (parseBoxesFromTokens text false = []) as Hparse'
    by (unfold parseBoxesFromTokens; by rewrite no_marker_no_match).
  assert (extractTextFromTokens text = []) as Hextract
    by (unfold extractTextFromTokens; by rewrite Hparse').
  split_and!; try done.
  - intros Hocr chars. unfold pollBody. cbn [status raw_token_stream].
    destruct text as [|c text']; [done|].
    rewrite Hparse', Hextract, renderBoxes_guard by auto.
    by rewrite Hocr, bool_decide_eq_true_2 by done.
  - intros Hs Hocr Hraw Hne. unfold settle. rewrite Hs, Hocr, Hraw.
    rewrite bool_decide_eq_true_2 by done.
    destruct text; [done|]. cbn [resultsContent truthy from_option id].
    by rewrite Hextract.
Qed.

Lemma plain_text_yields_nothing_witness :
  resultsContent
    (settle (mkOperation (Number.ofZ 800) (Number.ofZ 600) (js "ocr"))
       (mkOcrResult true (js "ocr") (js "Hello world") (Some (js "Hello world")) [])
       startOperation)
  = PanelText [].
Proof.
  destruct (plain_text_yields_nothing (js "Hello world") true
              (mkOperation (Number.ofZ 800) (Number.ofZ 600) (js "ocr"))
              (mkOcrResult true (js "ocr") (js "Hello world") (Some (js "Hello world")) [])
              startOperation) as (_ & _ & _ & Hpanel).
  - vm_compute. intros Hin. by repeat (apply elem_of_cons in Hin as [Hin|Hin]; [done|]);
      apply elem_of_nil in Hin.
  - apply Hpanel; by vm_compute.
Defined.

End extracted.

(** ** The label chip and the tooltip *)

Section labels.
Implicit Types (box : Box) (s : list N).

Lemma substring_head_length s n : length (substring s 0 (Some n)) ≤ n.
Proof.
  unfold substring. cbn [from_option]. rewrite length_take, length_drop. lia.
Qed.

Lemma known_types_short ty : ty ∈ KNOWN_TYPES → length ty ≤ 13.
Proof.
  unfold KNOWN_TYPES. intros Hin.
  repeat (apply elem_of_cons in Hin as [->|Hin]; [vm_compute; lia|]).
  by apply elem_of_nil in Hin.
Qed.

(** X10.  For a box the parser returned, the label chip holds at most 33
    characters (a label longer than 30 is cut to 30 and gets three dots, a
    type name has at most 13), so its width is at most 239; the label is
    shown in full when it has at most 30 characters.  The tooltip of a
    clickable group shows at most 53 characters of the text it copies. *)
Theorem label_chip_bounded text isOcrComplete box w h mode :
  box ∈ parseBoxesFromTokens text isOcrComplete →
  let g := groupOf w h mode box in
  length (labelText g) ≤ 33 ∧ labelWidth g ≤ 239 ∧
  (isType box = false → length (content box) ≤ 30 → labelText g = content box) ∧
  (isType box = false → 30 < length (content box) →
   labelText g = take 30 (content box) ++ js "...") ∧
  (∀ tip, title g = Some tip → length tip ≤ 68).
Proof.
  intros (i & m & _ & _ & _ & Hc & Hk & Hty & _)%parsed_box_origin. cbn zeta.
  assert (length (displayText box) ≤ 33) as Hlen.
  { unfold displayText. destruct (isType box) eqn:His.
    - rewrite Hty. symmetry in Hk.
      apply bool_decide_eq_true_1, known_types_short in Hk. lia.
    - clear Hk. case_bool_decide; [|lia]. rewrite length_app.
      pose proof (substring_head_length (content box) 30).
      change (length (js "...")) with 3. lia. }
  cbn [groupOf labelText labelWidth title]. split_and!; [done|lia|..].
  - intros His Hshort. unfold displayText. rewrite His.
    by rewrite bool_decide_eq_false_2 by lia.
  - intros His Hlong. unfold displayText. rewrite His.
    rewrite bool_decide_eq_true_2 by done. f_equal.
    unfold substring. cbn [from_option]. rewrite drop_0. f_equal. lia.
  - intros tip. destruct (isClickable mode box); [|done].
    intros Htip. apply (inj Some) in Htip. subst tip. clear Hk.
    rewrite length_app. change (length (js "Click to copy: ")) with 15.
    case_bool_decide; [|lia]. rewrite length_app.
    pose proof (substring_head_length (copyText mode box) 50).
    change (length (js "...")) with 3. lia.
Qed.

Lemma label_chip_bounded_witness :
  ∃ box,
    box ∈ parseBoxesFromTokens
            (js "<|ref|>The quick brown fox jumps over the lazy dog<|/ref|><|det|>[[1,2,3,4]]<|/det|>")
            false ∧
    length (labelText (groupOf (Number.ofZ 800) (Number.ofZ 600) (js "ocr") box)) ≤ 33.
Proof.
  assert (∃ box, parseBoxesFromTokens
            (js "<|ref|>The quick brown fox jumps over the lazy dog<|/ref|><|det|>[[1,2,3,4]]<|/det|>")
            false = [box]) as [box Hbox] by (vm_compute; eauto).
  exists box.
  assert (box ∈ parseBoxesFromTokens
            (js "<|ref|>The quick brown fox jumps over the lazy dog<|/ref|><|det|>[[1,2,3,4]]<|/det|>")
            false) as Hin by (rewrite Hbox; apply list_elem_of_here).
  split; [exact Hin|].
  exact (proj1 (label_chip_bounded _ _ _ (Number.ofZ 800) (Number.ofZ 600) (js "ocr") Hin)).
Defined.

End labels.

(** ** getServerUrl *)

Section urls.
Implicit Types (v s : list N) (value : option (list N)).

Lemma trimStart_all_white s :
  Forall (λ c, isWhiteSpace c = true) s → trimStart s = [].
Proof. induction 1 as [|c s Hc _ IH]; simpl; [done|]. by rewrite Hc. Qed.

Lemma last_take_snoc s c : last s = Some c → s = take (length s - 1) s ++ [c].
Proof.
  intros (s' & ->)%last_Some. rewrite length_app. simpl.
  replace (length s' + 1 - 1) with (length s') by lia. by rewrite take_app_length.
Qed.

Lemma getServerUrl_white v :
  v ≠ [] → Forall (λ c, isWhiteSpace c = true) v → getServerUrl (Some v) = [].
Proof.
  intros Hne Hwhite. unfold getServerUrl.
  assert (truthy (Some v) = true) as -> by (by destruct v).
  cbn [from_option id]. unfold trim. rewrite (trimStart_all_white v Hwhite).
  by vm_compute.
Qed.

(** X11.  [getServerUrl] returns the default only for a missing or empty
    field.  Otherwise it returns the trimmed field with one trailing slash
    removed, if there is one: the result still ends in a slash exactly when
    the trimmed field ends in two, and a field of white space only gives the
    empty string, not the default. *)
Theorem getServerUrl_strips_one_slash value :
  (truthy value = false → getServerUrl value = js "http://127.0.0.1:5000") ∧
  (∀ v, value = Some v → v ≠ [] →
     (trim v = getServerUrl value ++ [chr "/"]
      ∨ (trim v = getServerUrl value ∧ last (trim v) ≠ Some (chr "/"))) ∧
     (last (getServerUrl value) = Some (chr "/")
      ↔ ∃ r, trim v = r ++ [chr "/"; chr "/"]) ∧
     (Forall (λ c, isWhiteSpace c = true) v → getServerUrl value = [])).
Proof.
  unfold getServerUrl. split.
  - intros ->. by vm_compute.
  - intros v -> Hne.
    assert (truthy (Some v) = true) as -> by (by destruct v).
    cbn [from_option id]. split_and!.
    + case_bool_decide as Hlast; [left|by right].
      by apply last_take_snoc.
    + generalize (trim v). intros u. case_bool_decide as Hlast.
      * apply last_Some in Hlast as [u' ->].
        rewrite length_app. simpl.
        replace (length u' + 1 - 1) with (length u') by lia.
        rewrite take_app_length. split.
        -- intros [r ->]%last_Some. exists r. by rewrite <-(assoc_L (++)).
        -- intros [r Hr]. change [chr "/"; chr "/"] with ([chr "/"] ++ [chr "/"]) in Hr.
           rewrite (assoc_L (++)) in Hr. apply app_inj_tail in Hr as [-> _].
           apply last_snoc.
      * split; [done|]. intros [r Hr]. exfalso. apply Hlast. rewrite Hr.
        change [chr "/"; chr "/"] with ([chr "/"] ++ [chr "/"]).
        rewrite (assoc_L (++)). apply last_snoc.
    + intros Hwhite. pose proof (getServerUrl_white v Hne Hwhite) as Hempty.
      unfold getServerUrl in Hempty.
      assert (truthy (Some v) = true) as Htruthy by (by destruct v).
      by rewrite Htruthy in Hempty.
Qed.

Lemma getServerUrl_strips_one_slash_witness :
  getServerUrl (Some (js " http://10.0.0.2:5000// ")) = js "http://10.0.0.2:5000/" ∧
  last (getServerUrl (Some (js " http://10.0.0.2:5000// "))) = Some (chr "/").
Proof.
  destruct (getServerUrl_strips_one_slash (Some (js " http://10.0.0.2:5000// ")))
    as (_ & Hfield).
  destruct (Hfield (js " http://10.0.0.2:5000// ") eq_refl) as (_ & Hslash & _).
  - by vm_compute.
  - split; [by vm_compute|]. apply Hslash. exists (js "http://10.0.0.2:5000").
    by vm_compute.
Defined.

(** X12.  The renderer polls [getServerUrl() + "/progress"] itself, while
    the health check goes through the main process, which replaces an empty
    [serverUrl] by its own default.  When [getServerUrl] is not empty both
    address the same server.  When it is empty (a field of white space, or a
    lone slash) the health check goes to the local default while the poll goes
    to the relative URL ["/progress"]. *)
Theorem poll_and_health_urls value :
  (getServerUrl value ≠ [] →
   healthUrl value = getServerUrl value ++ js "/health" ∧
   progressUrl value = getServerUrl value ++ js "/progress") ∧
  (getServerUrl value = [] →
   healthUrl value = js "http://127.0.0.1:5000/health" ∧
   progressUrl value = js "/progress") ∧
  (∀ v, value = Some v → v ≠ [] →
        Forall (λ c, isWhiteSpace c = true) v ∨ trim v = [chr "/"] →
        getServerUrl value = []).
Proof.
  unfold healthUrl, progressUrl, baseUrl. split_and!.
  - intros Hne. by destruct (getServerUrl value).
  - intros ->. by vm_compute.
  - intros v -> Hne [Hwhite|Hslash].
    + by apply getServerUrl_white.
    + unfold getServerUrl. assert (truthy (Some v) = true) as -> by (by destruct v).
      cbn [from_option id]. rewrite Hslash. by vm_compute.
Qed.

Lemma poll_and_health_urls_witness :
  healthUrl (Some (js "   ")) = js "http://127.0.0.1:5000/health" ∧
  progressUrl (Some (js "   ")) = js "/progress".
Proof.
  destruct (poll_and_health_urls (Some (js "   "))) as (_ & Hempty & _).
  apply Hempty. by vm_compute.
Defined.

End urls.

(** ** loadModel: the progress bar *)

Section progress.
Local Open Scope Qc_scope.

Lemma Qc_zero_le_hundred : Qc_of_Z 0 ≤ Qc_of_Z 100.
Proof. by vm_compute. Qed.

Lemma clamp_finite (q : Qc) :
  ∃ r, Math_max (Number.ofZ 0) (Math_min (Number.ofZ 100) (Number.Finite q))
       = Number.Finite r ∧ Qc_of_Z 0 ≤ r ∧ r ≤ Qc_of_Z 100 ∧
       (Qc_of_Z 0 ≤ q → q ≤ Qc_of_Z 100 → r = q).
Proof.
  cbn [Math_min Math_max Number.ofZ]. eexists. split; [done|].
  destruct (decide (Qc_of_Z 100 ≤ q)) as [Hbig|Hsmall].
  - rewrite (bool_decide_eq_true_2 _ Hbig).
    rewrite (bool_decide_eq_true_2 _ Qc_zero_le_hundred).
    split_and!; [apply Qc_zero_le_hundred|done|].
    intros _ Hle. by apply Qcle_antisym.
  - rewrite (bool_decide_eq_false_2 _ Hsmall).
    apply Qcnot_le_lt, Qclt_le_weak in Hsmall.
    destruct (decide (Qc_of_Z 0 ≤ q)) as [Hpos|Hneg].
    + rewrite (bool_decide_eq_true_2 _ Hpos). by split_and!.
    + rewrite (bool_decide_eq_false_2 _ Hneg).
      split_and!; [done|apply Qc_zero_le_hundred|done].
Qed.

(** X13.  The percentage [pollProgress] shows is always a finite number
    between 0 and 100, whatever number the server reports.  A missing field
    gives 0; NaN gives 0; zero, any negative number and minus infinity give
    0; 100, any number above it and infinity give 100; a number from 0 to 100
    is shown as it is.  A bar that is within the range stays within it.  A
    response ['loaded'] or ['error'] clears the interval, and nothing in
    [pollProgress] sets it again. *)
Theorem progress_bar_in_range data b :
  (∃ r, progressPercent data = Number.Finite r ∧ Qc_of_Z 0 ≤ r ∧ r ≤ Qc_of_Z 100) ∧
  (progress_percent data = None → progressPercent data = Number.ofZ 0) ∧
  (progress_percent data = Some Number.NaN → progressPercent data = Number.ofZ 0) ∧
  (progress_percent data = Some (Number.Infinity true) →
   progressPercent data = Number.ofZ 0) ∧
  (∀ q, progress_percent data = Some (Number.Finite q) → q ≤ Qc_of_Z 0 →
        progressPercent data = Number.ofZ 0) ∧
  (progress_percent data = Some (Number.Infinity false) →
   progressPercent data = Number.ofZ 100) ∧
  (∀ q, progress_percent data = Some (Number.Finite q) → Qc_of_Z 100 ≤ q →
        progressPercent data = Number.ofZ 100) ∧
  (∀ q, progress_percent data = Some (Number.Finite q) →
        Qc_of_Z 0 ≤ q → q ≤ Qc_of_Z 100 → progressPercent data = Number.Finite q) ∧
  ((∃ r, barWidth b = Number.Finite r ∧ Qc_of_Z 0 ≤ r ∧ r ≤ Qc_of_Z 100) →
   ∃ r, barWidth (pollProgress data b) = Number.Finite r
        ∧ Qc_of_Z 0 ≤ r ∧ r ≤ Qc_of_Z 100) ∧
  (lp_status data = StLoaded ∨ lp_status data = StError →
   pollInterval (pollProgress data b) = false) ∧
  (pollInterval b = false → pollInterval (pollProgress data b) = false).
Proof.
  assert (∀ q, progress_percent data = Some (Number.Finite q) →
               Qc_of_Z 0 ≤ q → q ≤ Qc_of_Z 100 →
               progressPercent data = Number.Finite q) as Hkeep.
  { intros q Hq Hpos Hle. unfold progressPercent. rewrite Hq. cbn [Number.falsy].
    case_bool_decide as Hzero.
    - subst q. vm_compute. by apply Finite_ext.
    - destruct (clamp_finite q) as (r & -> & _ & _ & Hsame). f_equal. by apply Hsame. }
  assert (∀ q, progress_percent data = Some (Number.Finite q) → q ≤ Qc_of_Z 0 →
               progressPercent data = Number.ofZ 0) as Hlow.
  { intros q Hq Hle. unfold progressPercent. rewrite Hq. cbn [Number.falsy].
    case_bool_decide as Hzero; [by vm_compute|].
    assert (¬ Qc_of_Z 0 ≤ q) as Hneg.
    { intros Hpos. apply Hzero. apply Qcle_antisym; [|done].
      by replace 0 with (Qc_of_Z 0) by (by apply Qc_is_canon). }
    assert (¬ Qc_of_Z 100 ≤ q) as Hsmall.
    { intros Hbig. apply Hneg. eapply Qcle_trans; [apply Qc_zero_le_hundred|done]. }
    cbn [Math_min Math_max Number.ofZ].
    by rewrite (bool_decide_eq_false_2 _ Hsmall), (bool_decide_eq_false_2 _ Hneg). }
  assert (∀ q, progress_percent data = Some (Number.Finite q) → Qc_of_Z 100 ≤ q →
               progressPercent data = Number.ofZ 100) as Hhigh.
  { intros q Hq Hbig. unfold progressPercent. rewrite Hq. cbn [Number.falsy].
    case_bool_decide as Hzero.
    - subst q. exfalso. revert Hbig. by vm_compute.
    - cbn [Math_min Math_max Number.ofZ].
      rewrite (bool_decide_eq_true_2 _ Hbig).
      by rewrite (bool_decide_eq_true_2 _ Qc_zero_le_hundred). }
  assert (∃ r, progressPercent data = Number.Finite r
               ∧ Qc_of_Z 0 ≤ r ∧ r ≤ Qc_of_Z 100) as Hrange.
  { destruct (progress_percent data) as [[|[]|q]|] eqn:Hfield.
    - exists (Qc_of_Z 0). unfold progressPercent. rewrite Hfield.
      split; [by vm_compute|]. split; [done|apply Qc_zero_le_hundred].
    - exists (Qc_of_Z 0). unfold progressPercent. rewrite Hfield.
      split; [by vm_compute|]. split; [done|apply Qc_zero_le_hundred].
    - exists (Qc_of_Z 100). unfold progressPercent. rewrite Hfield.
      split; [by vm_compute|]. split; [apply Qc_zero_le_hundred|done].
    - destruct (decide (q ≤ Qc_of_Z 0)) as [Hle|Hpos].
      + exists (Qc_of_Z 0). rewrite (Hlow q eq_refl Hle).
        split; [done|]. split; [done|apply Qc_zero_le_hundred].
      + apply Qcnot_le_lt, Qclt_le_weak in Hpos.
        destruct (decide (Qc_of_Z 100 ≤ q)) as [Hbig|Hsmall].
        * exists (Qc_of_Z 100). rewrite (Hhigh q eq_refl Hbig).
          split; [done|]. split; [apply Qc_zero_le_hundred|done].
        * apply Qcnot_le_lt, Qclt_le_weak in Hsmall.
          exists q. by rewrite (Hkeep q eq_refl Hpos Hsmall).
    - exists (Qc_of_Z 0). unfold progressPercent. rewrite Hfield.
      split; [by vm_compute|]. split; [done|apply Qc_zero_le_hundred]. }
  split_and!.
  - done.
  - intros Hfield. unfold progressPercent. rewrite Hfield. by vm_compute.
  - intros Hfield. unfold progressPercent. rewrite Hfield. by vm_compute.
  - intros Hfield. unfold progressPercent. rewrite Hfield. by vm_compute.
  - done.
  - intros Hfield. unfold progressPercent. rewrite Hfield. by vm_compute.
  - done.
  - done.
  - intros Hb. unfold pollProgress. destruct (lp_status data); cbn [barWidth]; try done.
    exists (Qc_of_Z 100). split; [done|]. split; [apply Qc_zero_le_hundred|done].
  - unfold pollProgress. by intros [-> | ->].
  - unfold pollProgress. intros Hoff. by destruct (lp_status data).
Qed.

Lemma progress_bar_in_range_witness :
  progressPercent (mkLoadProgress StLoading (Some (Number.ofZ 42)) None)
  = Number.ofZ 42 ∧
  progressPercent (mkLoadProgress StLoading (Some (Number.ofZ 150)) None)
  = Number.ofZ 100 ∧
  progressPercent (mkLoadProgress StLoading (Some (Number.ofZ (-3))) None)
  = Number.ofZ 0.
Proof.
  split_and!.
  - destruct (progress_bar_in_range
                (mkLoadProgress StLoading (Some (Number.ofZ 42)) None)
                (mkModelProgress (Number.ofZ 0) [] true))
      as (_ & _ & _ & _ & _ & _ & _ & Hkeep & _).
    apply Hkeep; [done|by vm_compute..].
  - destruct (progress_bar_in_range
                (mkLoadProgress StLoading (Some (Number.ofZ 150)) None)
                (mkModelProgress (Number.ofZ 0) [] true))
      as (_ & _ & _ & _ & _ & _ & Hhigh & _).
    apply (Hhigh (Qc_of_Z 150)); [done|by vm_compute].
  - destruct (progress_bar_in_range
                (mkLoadProgress StLoading (Some (Number.ofZ (-3))) None)
                (mkModelProgress (Number.ofZ 0) [] true))
      as (_ & _ & _ & _ & Hlow & _).
    apply (Hlow (Qc_of_Z (-3))); [done|by vm_compute].
Defined.

End progress.

(** ** main.js: the start of the Python server *)

Section startup.

Lemma startupInv_start scriptExists now :
  startupInv (startPythonServer scriptExists now).
Proof. destruct scriptExists; repeat split; cbn; lia. Qed.

Lemma startupInv_step s e : startupInv s → startupInv (startupStep s e).
Proof.
  destruct s as [sp res ss t0 tm pr]. unfold startupInv. cbn.
  intros (Hchain & Hlen & Hsp).
  destruct ss as [|x [|y ss]]; cbn in Hlen; [| |lia];
    destruct sp, res; cbn in Hsp; try done; try (destruct Hsp; done);
    destruct e as [data|data|code|now|[ok|]]; cbn;
    unfold onData, markAsReady, checkWithRetry; cbn;
    repeat (case_bool_decide || case_match); cbn;
    try (split_and!; first [done | lia | by destruct Hsp]).
Qed.

Lemma startupInv_run s events : startupInv s → startupInv (startupRun s events).
Proof.
  revert s. induction events as [|e events IH]; intros s Hs; [done|].
  cbn. apply IH. by apply startupInv_step.
Qed.

(** Once [resolved] is set, no turn settles the promise again or adds to the
    timers and probes. *)
Lemma settled_startup_quiet s e :
  resolved s = true →
  resolved (startupStep s e) = true ∧
  settlements (startupStep s e) = settlements s ∧
  timers (startupStep s e) + probes (startupStep s e) ≤ timers s + probes s.
Proof.
  destruct s as [sp res ss t0 tm pr]. cbn. intros ->.
  destruct e as [data|data|code|now|[ok|]]; cbn.
  1,2: destruct sp; [|done]; unfold onData; by destruct (includes _ data).
  - done.
  - case_bool_decide; [|done]. cbn. repeat split; lia.
  - case_bool_decide; [|done]. cbn. repeat split; lia.
  - case_bool_decide; [|done]. cbn. repeat split; lia.
Qed.

Lemma spawned_step s e : spawned (startupStep s e) = spawned s.
Proof.
  destruct s as [sp res ss t0 tm pr], e as [data|data|code|t|[ok|]]; cbn;
    unfold onData, markAsReady, checkWithRetry; cbn;
    repeat (case_bool_decide || case_match); done.
Qed.

Lemma spawned_run s events : spawned (startupRun s events) = spawned s.
Proof.
  revert s. induction events as [|e events IH]; intros s; [done|].
  cbn. by rewrite IH, spawned_step.
Qed.

(** X14.  Whatever the process writes and however the probes and timers
    interleave, the promise of [startPythonServer] is settled at most once
    (one call of [resolve] or [reject] in all) and at most one timer or probe
    is outstanding at any time.  When the script exists, [resolved] is set
    exactly when a call has been made; when it does not, the only call is the
    rejection at the start.  After the settlement no turn settles again or
    adds a timer or a probe, so the retry chain dies out. *)
Theorem startup_settles_once scriptExists now events :
  let s := startupRun (startPythonServer scriptExists now) events in
  length (settlements s) ≤ 1 ∧
  timers s + probes s ≤ 1 ∧
  (if scriptExists then resolved s = bool_decide (settlements s ≠ [])
   else settlements s = [RejectScriptNotFound] ∧ timers s + probes s = 0) ∧
  (∀ e, resolved s = true →
        settlements (startupStep s e) = settlements s ∧
        timers (startupStep s e) + probes (startupStep s e) ≤ timers s + probes s).
Proof.
  intros s.
  assert (spawned s = scriptExists) as Hspawned.
  { subst s. rewrite spawned_run. by destruct scriptExists. }
  destruct (startupInv_run _ events (startupInv_start scriptExists now))
    as (Hchain & Hlen & Hsp).
  fold s in Hchain, Hlen, Hsp. rewrite Hspawned in Hsp.
  split_and!; [done..|].
  intros e Hres. by destruct (settled_startup_quiet s e Hres) as (_ & ? & ?).
Qed.

(** What one turn can add to the calls made on the promise. *)
Lemma startupStep_settlements s e :
  startTime (startupStep s e) = startTime s ∧
  (settlements (startupStep s e) = settlements s ∨
   (settlements (startupStep s e) = settlements s ++ [Resolve] ∧ readySign e = true) ∨
   (settlements (startupStep s e) = settlements s ++ [RejectTimeout] ∧
    ∃ t, e = TimerFired t ∧ (maxWaitTime ≤ t - startTime s)%Z)).
Proof.
  destruct s as [sp res ss t0 tm pr], e as [data|data|code|t|[ok|]]; cbn;
    unfold onData, markAsReady, checkWithRetry; cbn;
    repeat (case_bool_decide || case_match); cbn; subst;
    (split; [done|]); eauto 6.
Qed.

Lemma startupRun_settlements s events x :
  x ∈ settlements (startupRun s events) →
  x ∈ settlements s ∨
  (x = Resolve ∧ ∃ e, e ∈ events ∧ readySign e = true) ∨
  (x = RejectTimeout ∧
   ∃ t, TimerFired t ∈ events ∧ (maxWaitTime ≤ t - startTime s)%Z).
Proof.
  revert s. induction events as [|e events IH]; intros s; cbn; [by left|].
  intros Hx. destruct (startupStep_settlements s e) as (Htime & Hstep).
  destruct (IH _ Hx) as [Hin|[(-> & e' & He' & Hsign)|(-> & t & Ht & Hlate)]].
  - destruct Hstep as [Hs|[(Hs & Hsign)|(Hs & t & -> & Hlate)]];
      rewrite Hs in Hin; [by left|..].
    + apply elem_of_app in Hin as [Hin|Hin]; [by left|].
      apply list_elem_of_singleton in Hin as ->.
      right; left. split; [done|]. exists e. split; [left|done].
    + apply elem_of_app in Hin as [Hin|Hin]; [by left|].
      apply list_elem_of_singleton in Hin as ->.
      right; right. split; [done|]. exists t. split; [left|done].
  - right; left. split; [done|]. exists e'. split; [by right|done].
  - right; right. split; [done|]. exists t. rewrite <- Htime. split; [by right|done].
Qed.

(** X15.  What settles the promise of [startPythonServer] when the script
    exists.  It is resolved only by a chunk of [stdout] or [stderr] that
    contains [Running on] in one piece, or by a health probe that returned;
    the value the probe returned plays no part, so an answer whose status is
    not ['ok'] marks the server as ready just the same.  It is rejected only
    by a timer that fires 30000 ms or more after the start, and never with
    the missing-script error. *)
Theorem startup_settlement_causes now events :
  let s := startupRun (startPythonServer true now) events in
  (Resolve ∈ settlements s ↔
   settlements s = [Resolve]) ∧
  (Resolve ∈ settlements s → ∃ e, e ∈ events ∧ readySign e = true) ∧
  (RejectTimeout ∈ settlements s →
   ∃ t, TimerFired t ∈ events ∧ (30000 ≤ t - now)%Z) ∧
  (RejectScriptNotFound ∉ settlements s) ∧
  (∀ s' ok, startupStep s' (ProbeSettled (Returned ok))
            = startupStep s' (ProbeSettled (Returned true))).
Proof.
  intros s.
  assert (∀ x, x ∈ settlements s →
    (x = Resolve ∧ ∃ e, e ∈ events ∧ readySign e = true) ∨
    (x = RejectTimeout ∧ ∃ t, TimerFired t ∈ events ∧ (30000 ≤ t - now)%Z))
    as Hcause.
  { intros x Hx. apply startupRun_settlements in Hx as [Hx|Hx]; [|done].
    cbn in Hx. by apply elem_of_nil in Hx. }
  pose proof (startupInv_run _ events (startupInv_start true now)) as (_ & Hlen & _).
  fold s in Hlen.
  split_and!.
  - split; [|intros ->; left].
    destruct (settlements s) as [|x [|y l]]; cbn in Hlen; [|by intros ->%list_elem_of_singleton|lia].
    by intros ?%elem_of_nil.
  - intros Hx. by destruct (Hcause _ Hx) as [(_ & ?)|(? & _)].
  - intros Hx. by destruct (Hcause _ Hx) as [(? & _)|(_ & ?)].
  - intros Hx. by destruct (Hcause _ Hx) as [(? & _)|(? & _)].
  - done.
Qed.

End startup.

(** ** The flag [isProcessing] *)

Section exclusion.

Lemma clientInv_step d c e :
  clientInv d c → clientInv d (clientStep c e).
Proof.
  destruct c as [busy path dis run]. unfold clientInv. cbn.
  intros (Hlen & Hbusy & Hocr & Hbtn).
  destruct run as [|t [|t' run]]; cbn in Hlen; [| |lia].
  - (* nothing runs *)
    cbn in Hbusy. subst busy.
    destruct e as [| | |[[|p ps]|]|task|filePath| |[loaded|]]; cbn;
      repeat case_match; cbn; split_and!; try done; try lia;
      try (intros _; by rewrite ?bool_decide_eq_true_2 by (intros ?; done));
      try (intros ?%elem_of_nil; done);
      try (intros Hin; apply list_elem_of_singleton in Hin; done);
      try (intros ?; right; done).
    intros Hdis. right. apply negb_false_iff, andb_true_iff in Hdis as [Hpath _].
    by destruct path.
  - (* one call runs *)
    cbn in Hbusy. subst busy.
    destruct e as [| | |[[|p ps]|]|task|filePath| |[loaded|]]; cbn;
      rewrite ?orb_true_r; cbn; try (split_and!; done).
    + case_bool_decide as Hin.
      * apply list_elem_of_singleton in Hin as ->. cbn.
        rewrite bool_decide_eq_true_2 by done. cbn.
        split_and!; [lia|done|by intros ?%elem_of_nil|done].
      * cbn. split_and!; done.
    + split_and!; [done..|]. intros ?. by right.
Qed.

(** X16.  At most one of [loadModel], [performOCR], [performPDFOCR] and
    [performBatchOCRWithPaths] is between its guard and its [finally] at any
    time, and [isProcessing] is set exactly while one is, whatever the order
    of the clicks, drops, status checks and completions.  While [performOCR]
    runs its button stays disabled; and the button is never enabled with
    [currentImagePath] null, unless the document declared it enabled. *)
Theorem operations_exclusive d events :
  let c := clientRun (initialClient d) events in
  length (running c) ≤ 1 ∧
  isProcessing c = bool_decide (running c ≠ []) ∧
  (TaskOCR ∈ running c → ocrBtnDisabled c = true) ∧
  (ocrBtnDisabled c = false → d = false ∨ currentImagePath c ≠ None).
Proof.
  intros c. subst c.
  assert (clientInv d (initialClient d)) as Hstart.
  { unfold clientInv, initialClient; cbn. split_and!; [lia|done| |by left].
    by intros ?%elem_of_nil. }
  revert Hstart. generalize (initialClient d). intros c.
  induction events as [|e events IH] in c |- *; intros Hc; [apply Hc|].
  cbn. apply IH. by apply clientInv_step.
Qed.

End exclusion.

(** ** viewBoxesImage *)

Section canvas.
Local Open Scope Qc_scope.

(** The fill of a box whose type is in the table: the three bytes of its
    colour. *)
Lemma known_type_fill ty alpha :
  ty ∈ KNOWN_TYPES →
  colorEntry ty ≠ None ∧
  ∃ red green blue,
    hexToRgba (default (js "#FF1493") (colorEntry ty)) alpha
    = FillRgba red green blue alpha ∧
    isByte red ∧ isByte green ∧ isByte blue.
Proof.
  unfold KNOWN_TYPES, isByte. intros Hin.
  repeat (apply elem_of_cons in Hin as [->|Hin];
          [split; [by vm_compute|];
           eexists _, _, _; split; [reflexivity|];
           split_and!; eexists; (split; [vm_compute; reflexivity|lia])|]).
  by apply elem_of_nil in Hin.
Qed.

Lemma parsed_type_known text isOcrComplete box :
  box ∈ parseBoxesFromTokens text isOcrComplete → type box ∈ KNOWN_TYPES.
Proof.
  intros (i & m & _ & _ & _ & _ & Hty & Htype & _)%parsed_box_origin.
  rewrite Htype. destruct (isType box).
  - symmetry in Hty. by apply bool_decide_eq_true_1 in Hty.
  - unfold KNOWN_TYPES. do 2 right. left.
Qed.

Lemma parsed_y1_not_NaN text isOcrComplete box :
  box ∈ parseBoxesFromTokens text isOcrComplete → Number.isNaN (y1 box) = false.
Proof.
  intros (i & m & _ & _ & _ & _ & _ & _ & Hco & _)%parsed_box_origin.
  assert (y1 box ∈ parseCoords (coords m)) as Hin
      by (rewrite Hco; repeat constructor).
  unfold parseCoords in Hin. by apply list_elem_of_filter in Hin as [? _].
Qed.

Lemma chip_not_negative (y : Number.t) (h : Qc) :
  Number.isNaN y = false → h ≠ 0 →
  notNegative (Math_max (Number.ofZ 0)
                 (Number.sub (scaleCoord y (Number.Finite h)) (Number.ofZ 18))).
Proof.
  intros Hy Hh. unfold scaleCoord, DEEPSEEK_COORD_MAX, Number.ofZ.
  destruct y as [|s|a]; [done| |]; cbn.
  - rewrite (bool_decide_eq_false_2 _ Hh). by destruct (xorb _ _).
  - rewrite (bool_decide_eq_false_2 (Qc_of_Z 999 = 0)) by by vm_compute.
    cbn. case_bool_decide; [done|]. by vm_compute.
Qed.

(** X17.  After a settlement that succeeded with raw tokens, the canvas of
    [viewBoxesImage] shows the annotations of the overlay: for an image of
    the same size it draws one box per group of the overlay, in the same
    order, with the same rectangle, stroke colour, line width, label text and
    label colour, whatever the mode and whatever the polls had drawn before.
    Every box is filled with [rgba(r, g, b, 0.1)] where the three numbers
    are integers from 0 to 255 read from the colour of the table (never NaN,
    never the lime fill of unknown types), and the label chip is never placed
    above the top edge: its [y] is zero or more, and not NaN. *)
Theorem canvas_agrees_with_overlay measureText op r p path (w h : Qc) :
  success r = true → truthy (raw_tokens r) = true → truthy (Some path) = true →
  imageNaturalWidth op = Number.Finite w → w ≠ 0 →
  imageNaturalHeight op = Number.Finite h → h ≠ 0 →
  let page := settle op r p in
  ∃ drawn,
    viewBoxesImage measureText (Some path) (currentRawTokens page)
                   (imageNaturalWidth op) (imageNaturalHeight op) = Some drawn ∧
    outlineOfCanvas <$> drawn = outlineOfGroup <$> children (overlay page) ∧
    Forall (λ b, (∃ red green blue,
                    boxFillStyle b
                    = FillRgba red green blue (Number.Finite (Q2Qc (1 # 10))) ∧
                    isByte red ∧ isByte green ∧ isByte blue) ∧
                 notNegative (chipY b)) drawn.
Proof.
  intros Hs Hraw Hpath Hw Hw0 Hh Hh0 page.
  assert (Number.falsy (imageNaturalWidth op) = false) as Hfw
      by (rewrite Hw; by apply bool_decide_eq_false_2).
  assert (Number.falsy (imageNaturalHeight op) = false) as Hfh
      by (rewrite Hh; by apply bool_decide_eq_false_2).
  destruct (settle_final op r p Hs Hraw Hfw Hfh) as [Hchildren _].
  fold page in Hchildren.
  assert (currentRawTokens page = raw_tokens r) as Hcur
      by (unfold page, settle; by rewrite Hs).
  unfold viewBoxesImage. rewrite Hpath, Hcur, Hraw. cbn [negb].
  eexists. split; [reflexivity|]. split.
  - rewrite Hchildren, <- !list_fmap_compose. by apply list_fmap_ext.
  - apply Forall_fmap, Forall_forall. intros box Hbox. cbn [compose].
    pose proof (parsed_type_known _ _ _ Hbox) as Hknown.
    destruct (known_type_fill _ (Number.Finite (Q2Qc (1 # 10))) Hknown)
      as (Hentry & red & green & blue & Hfill & Hred & Hgreen & Hblue).
    split.
    + exists red, green, blue. cbn [drawBox boxFillStyle].
      unfold isUnknownType. rewrite bool_decide_eq_false_2 by done.
      by split_and!.
    + cbn [drawBox chipY scaleBox scaledY1]. rewrite Hh.
      apply chip_not_negative; [|done]. by eapply parsed_y1_not_NaN.
Qed.

Lemma canvas_agrees_with_overlay_witness :
  ∃ drawn,
    viewBoxesImage (λ _ text, Number.ofNat (length text * 7)%nat)
      (Some (js "page.png"))
      (Some (js "<|ref|>title<|/ref|><|det|>[[10, -20, 300, 40]]<|/det|>Hello"))
      (Number.ofZ 1998) (Number.ofZ 999) = Some drawn ∧
    length drawn = 1%nat ∧
    Forall (λ b, notNegative (chipY b)) drawn.
Proof.
  pose (r := mkOcrResult true (js "document") (js "Hello")
               (Some (js "<|ref|>title<|/ref|><|det|>[[10, -20, 300, 40]]<|/det|>Hello"))
               []).
  pose (op := mkOperation (Number.ofZ 1998) (Number.ofZ 999) (js "document")).
  destruct (canvas_agrees_with_overlay
              (λ _ text, Number.ofNat (length text * 7)%nat) op r startOperation
              (js "page.png") (Qc_of_Z 1998) (Qc_of_Z 999))
    as (drawn & Hdrawn & Hsame & Hall);
    [reflexivity|reflexivity|reflexivity|reflexivity|by vm_compute
    |reflexivity|by vm_compute|].
  exists drawn. split; [exact Hdrawn|]. split.
  - apply (f_equal length) in Hsame. rewrite !length_fmap in Hsame.
    rewrite Hsame. by vm_compute.
  - eapply Forall_impl; [exact Hall|]. by intros b [_ ?].
Defined.

End canvas.

(** ** The image references of a document *)

Section images.
Import ImageRegExp.
Implicit Types (p : list node) (s rest text : list N) (m : RegExp.result).

(** A group takes between [least] characters and its maximal run. *)
Lemma matchNodes_group least c p s caps rest :
  matchNodes (NotAtLeast least c :: p) s = Some (caps, rest) →
  ∃ k caps', least ≤ k ∧ k ≤ RegExp.runLength c s ∧
             matchNodes p (drop k s) = Some (caps', rest) ∧
             caps = take k s :: caps'.
Proof.
  cbn [matchNodes].
  match goal with |- ?f (RegExp.runLength c s) = _ → _ => set (giveBack := f) end.
  assert (∀ k, giveBack k = Some (caps, rest) →
               ∃ k' caps', least ≤ k' ∧ k' ≤ k ∧
                           matchNodes p (drop k' s) = Some (caps', rest) ∧
                           caps = take k' s :: caps') as Hloop.
  { induction k as [|k IH]; cbn [giveBack]; case_bool_decide as Hk; try done.
    - destruct (matchNodes p (drop 0 s)) as [[caps' rest']|] eqn:Hm; [|done].
      intros [= <- <-]. exists 0, caps'. split_and!; [lia|lia|done|done].
    - destruct (matchNodes p (drop (S k) s)) as [[caps' rest']|] eqn:Hm.
      + intros [= <- <-]. exists (S k), caps'. split_and!; [lia|lia|done|done].
      + intros (k' & caps' & ? & ? & ? & ?)%IH. exists k', caps'.
        split_and!; [lia|lia|done|done]. }
  intros (k & caps' & ? & ? & ? & ?)%Hloop. by exists k, caps'.
Qed.

(** What is not consumed is a suffix of the input. *)
Lemma image_matchNodes_suffix p s caps rest :
  matchNodes p s = Some (caps, rest) → ∃ consumed, s = consumed ++ rest.
Proof.
  revert s caps rest. induction p as [|[l|least c] p IH]; intros s caps rest.
  - cbn. intros [= <- <-]. by exists [].
  - cbn. destruct (stripPrefix l s) as [s'|] eqn:Hl; [|done].
    apply stripPrefix_Some in Hl as ->. intros [consumed ->]%IH.
    exists (l ++ consumed). by rewrite <-(assoc_L (++)).
  - intros (k & caps' & _ & _ & Hm & _)%matchNodes_group.
    apply IH in Hm as [consumed Hc]. exists (take k s ++ consumed).
    by rewrite <-(assoc_L (++)), <-Hc, take_drop.
Qed.

Lemma take_run c s k :
  k ≤ RegExp.runLength c s → Forall (λ x, x ≠ c) (take k s).
Proof.
  intros Hk. rewrite <- (Nat.min_l _ _ Hk), <- take_take.
  apply Forall_take, runLength_take.
Qed.

Lemma image_matchNodes_Lit l p s caps rest :
  matchNodes (Lit l :: p) s = Some (caps, rest) →
  ∃ s', s = l ++ s' ∧ matchNodes p s' = Some (caps, rest).
Proof.
  cbn [matchNodes]. destruct (stripPrefix l s) as [s'|] eqn:Hl; [|done].
  apply stripPrefix_Some in Hl as ->. intros Hm. by exists s'.
Qed.

(** A match of the image pattern at the head of [s]. *)
Lemma imageRegex_match s caps rest :
  matchNodes imageRegex s = Some (caps, rest) →
  ∃ alt name,
    caps = [alt; name] ∧
    s = js "![" ++ alt ++ js "](images/" ++ name ++ js ")" ++ rest ∧
    Forall (λ x, x ≠ chr "]") alt ∧
    name ≠ [] ∧ Forall (λ x, x ≠ chr ")") name.
Proof.
  unfold imageRegex.
  intros (s1 & -> & Hm)%image_matchNodes_Lit.
  apply matchNodes_group in Hm as (k & caps1 & _ & Hk & Hm & ->).
  apply image_matchNodes_Lit in Hm as (s2 & H2 & Hm).
  apply matchNodes_group in Hm as (k' & caps2 & Hleast & Hk' & Hm & ->).
  apply image_matchNodes_Lit in Hm as (s3 & H3 & Hm).
  cbn [matchNodes] in Hm. injection Hm as <- <-.
  exists (take k s1), (take k' s2). split_and!.
  - done.
  - rewrite <- H3, take_drop, <- H2, take_drop. done.
  - by apply take_run.
  - intros Hnil. apply (f_equal length) in Hnil. rewrite length_take in Hnil.
    pose proof (runLength_le (chr ")") s2). cbn in Hnil. lia.
  - by apply take_run.
Qed.

Lemma image_search_Some p suffix i m :
  search p suffix i = Some m →
  ∃ k caps rest,
    k ≤ length suffix ∧ RegExp.index m = i + k ∧
    matchNodes p (drop k suffix) = Some (caps, rest) ∧
    RegExp.captures m = caps ∧
    drop k suffix = RegExp.whole m ++ rest.
Proof.
  assert (∀ s caps rest, matchNodes p s = Some (caps, rest) →
                         s = take (length s - length rest) s ++ rest) as Hsplit.
  { intros s caps rest [consumed ->]%image_matchNodes_suffix. rewrite length_app.
    replace (length consumed + length rest - length rest) with (length consumed) by lia.
    by rewrite take_app_length. }
  revert i m. induction suffix as [|c suffix IH]; intros i m.
  - cbn [search]. destruct (matchNodes p []) as [[caps rest]|] eqn:Hm; [|done].
    intros [= <-]. exists 0, caps, rest. cbn [RegExp.index RegExp.captures RegExp.whole].
    rewrite drop_0. pose proof (Hsplit _ _ _ Hm).
    split_and!; try done; try lia.
  - cbn [search]. destruct (matchNodes p (c :: suffix)) as [[caps rest]|] eqn:Hm.
    + intros [= <-]. exists 0, caps, rest.
      cbn [RegExp.index RegExp.captures RegExp.whole].
      rewrite drop_0. pose proof (Hsplit _ _ _ Hm).
      split_and!; try done; try lia.
    + intros (k & caps & rest & Hk & Hi & Hmk & Hcaps & Hwhole)%IH.
      exists (S k), caps, rest. simpl. repeat split; try done; try lia.
Qed.

(** A successful [exec] of the image pattern returns an image reference of
    the text, at or after [lastIndex], and moves [lastIndex] to its end. *)
Lemma image_exec_Some re text m re' :
  source re = imageRegex → lastIndex re ≤ length text →
  exec re text = (Some m, re') →
  lastIndex re ≤ RegExp.index m ∧ 0 < length (RegExp.whole m) ∧
  RegExp.index m + length (RegExp.whole m) ≤ length text ∧
  re' = mkObj imageRegex (RegExp.index m + length (RegExp.whole m)) ∧
  imageRef text m.
Proof.
  intros Hp Hle. unfold exec. rewrite bool_decide_eq_false_2 by lia.
  destruct (search _ _ _) as [m'|] eqn:Hs; [|done]. intros [= -> <-].
  rewrite Hp in Hs |- *.
  apply image_search_Some in Hs as (k & caps & rest & Hk & Hi & Hm & Hcaps & Hw).
  rewrite length_drop in Hk. rewrite drop_drop in Hm, Hw. rewrite <- Hi in Hm, Hw.
  apply imageRegex_match in Hm as (alt & name & -> & Hshape & Halt & Hname & Hname').
  assert (RegExp.whole m = js "![" ++ alt ++ js "](images/" ++ name ++ js ")") as Hwhole.
  { rewrite Hw in Hshape. rewrite !(assoc_L (++)) in Hshape.
    apply app_inv_tail in Hshape. by rewrite <- !(assoc_L (++)) in Hshape. }
  pose proof (f_equal length Hw) as Hlen. rewrite length_app, length_drop in Hlen.
  assert (0 < length (RegExp.whole m)) as Hpos.
  { rewrite Hwhole, length_app. change (length (js "![")) with 2. lia. }
  split_and!; [lia|done|lia|done|].
  exists alt, name, rest. split_and!; try done; [|lia].
  by rewrite <- Hw, take_drop.
Qed.

(** The loop ends within [length text - lastIndex + 1] calls of [exec], and
    each of its results is an image reference of the text. *)
Lemma execAll_spec fuel re text acc :
  source re = imageRegex → lastIndex re ≤ length text →
  length text - lastIndex re < fuel →
  ∃ results,
    execAll fuel re text acc = Some (acc ++ results) ∧
    Forall (imageRef text) results.
Proof.
  revert re acc. induction fuel as [|fuel IH]; intros re acc Hp Hle Hfuel; [lia|].
  cbn [execAll]. destruct (exec re text) as [[m|] re'] eqn:He.
  - destruct (image_exec_Some _ _ _ _ Hp Hle He) as (Hi & Hw & Hend & -> & Href).
    destruct (IH (mkObj imageRegex (RegExp.index m + length (RegExp.whole m)))
                 (acc ++ [m]))
      as (results & -> & Hall); cbn [source lastIndex]; [done|lia|lia|].
    exists (m :: results). split; [by rewrite <-(assoc_L (++))|by constructor].
  - exists []. by rewrite (right_id_L [] (++)).
Qed.

Lemma execAll_fuel_mono fuel fuel' re text acc r :
  execAll fuel re text acc = Some r → fuel ≤ fuel' →
  execAll fuel' re text acc = Some r.
Proof.
  revert fuel' re acc. induction fuel as [|fuel IH]; intros fuel' re acc; [done|].
  intros Hc Hle. destruct fuel' as [|fuel']; [lia|]. cbn [execAll] in Hc |- *.
  destruct (exec re text) as [[m|] re']; [|done]. apply IH; [done|lia].
Qed.

(** The loop over the matches terminates: one more call of [exec] than the
    text has characters is always enough. *)
Lemma execAll_terminates fuel text :
  length text < fuel →
  execAll fuel (mkObj imageRegex 0) text [] = Some (imageMatches text).
Proof.
  intros Hfuel.
  destruct (execAll_spec (S (length text)) (mkObj imageRegex 0) text [])
    as (results & Hc & _); cbn [source lastIndex]; [done|lia|lia|].
  unfold imageMatches. rewrite Hc. cbn [default].
  eapply execAll_fuel_mono; [done|lia].
Qed.

Lemma imageMatches_refs text : Forall (imageRef text) (imageMatches text).
Proof.
  destruct (execAll_spec (S (length text)) (mkObj imageRegex 0) text [])
    as (results & Hc & Hall); cbn [source lastIndex]; [done|lia|lia|].
  unfold imageMatches. by rewrite Hc.
Qed.

(** A set built by [add] has no duplicates and holds what was added. *)
Lemma setAdd_fold (f : RegExp.result → list N) (l : list RegExp.result)
    (acc : list (list N)) :
  NoDup acc →
  NoDup (foldl (λ set m, setAdd (f m) set) acc l) ∧
  ∀ x, x ∈ foldl (λ set m, setAdd (f m) set) acc l ↔ x ∈ acc ∨ x ∈ f <$> l.
Proof.
  revert acc. induction l as [|m l IH]; intros acc Hacc; cbn [foldl fmap list_fmap].
  - split; [done|]. intros x. split; [by left|]. intros [?|?%elem_of_nil]; done.
  - unfold setAdd at 2 4. case_bool_decide as Hin.
    + destruct (IH acc Hacc) as [Hnd Hiff]. split; [done|].
      intros x. rewrite Hiff, elem_of_cons. split; [tauto|].
      intros [?|[->|?]]; auto.
    + assert (NoDup (acc ++ [f m])) as Hacc'.
      { apply NoDup_app. split_and!; [done| |apply NoDup_singleton].
        intros x Hx ->%list_elem_of_singleton. done. }
      destruct (IH _ Hacc') as [Hnd Hiff]. split; [done|].
      intros x. rewrite Hiff, elem_of_app, list_elem_of_singleton, elem_of_cons. tauto.
Qed.

(** X18.  [downloadZip] stops at its guard exactly when there is no result
    text or the mode is not ['document'].  Otherwise the loop over the image
    references ends (one more call of [exec] than the text has characters is
    enough), no URL is fetched twice, the URLs fetched are exactly the ones
    of the file names captured by the matches, and each file name is not
    empty, has no [)] in it and stands in the text inside a reference
    [![alt](images/name)] whose alternative text has no closing bracket. *)
Theorem zip_fetches_referenced_images currentResultText currentPromptType url :
  match downloadZip currentResultText currentPromptType url with
  | None =>
      truthy currentResultText = false ∨ currentPromptType ≠ Some (js "document")
  | Some urls =>
      ∃ text,
        currentResultText = Some text ∧ text ≠ [] ∧
        currentPromptType = Some (js "document") ∧
        (∀ fuel, length text < fuel →
                 execAll fuel (mkObj imageRegex 0) text [] = Some (imageMatches text)) ∧
        NoDup urls ∧
        (∀ u, u ∈ urls ↔
              ∃ m, m ∈ imageMatches text ∧
                   u = url ++ js "/outputs/images/" ++ RegExp.group m 2) ∧
        (∀ u, u ∈ urls →
              ∃ alt name pre post,
                u = url ++ js "/outputs/images/" ++ name ∧
                text = pre ++ js "![" ++ alt ++ js "](images/" ++ name ++ js ")" ++ post ∧
                Forall (λ x, x ≠ chr "]") alt ∧
                name ≠ [] ∧ Forall (λ x, x ≠ chr ")") name)
  end.
Proof.
  unfold downloadZip.
  destruct (truthy currentResultText) eqn:Htext; cbn [negb orb]; [|by left].
  case_bool_decide as Hmode; cbn [negb]; [|by right].
  destruct currentResultText as [[|c text']|]; try done.
  set (text := c :: text'). cbn [default].
  destruct (setAdd_fold (λ m, RegExp.group m 2) (imageMatches text) [])
    as [Hnd Hiff]; [constructor|].
  fold (imageFilesOf text) in Hnd, Hiff.
  assert (∀ u, u ∈ (λ filename, url ++ js "/outputs/images/" ++ filename)
                     <$> imageFilesOf text ↔
               ∃ m, m ∈ imageMatches text ∧
                    u = url ++ js "/outputs/images/" ++ RegExp.group m 2) as Hurls.
  { intros u. rewrite list_elem_of_fmap. split.
    - intros (name & -> & Hname). apply Hiff in Hname as [?%elem_of_nil|Hname]; [done|].
      apply list_elem_of_fmap in Hname as (m & -> & Hm). by exists m.
    - intros (m & Hm & ->). exists (RegExp.group m 2). split; [done|].
      apply Hiff. right. apply list_elem_of_fmap. by exists m. }
  exists text. split_and!; try done.
  - intros fuel Hfuel. by apply execAll_terminates.
  - apply NoDup_fmap_2; [|done]. intros x y Heq.
    apply app_inv_head in Heq. by apply app_inv_head in Heq.
  - intros u (m & Hm & ->)%Hurls.
    pose proof (imageMatches_refs text) as Hrefs.
    rewrite Forall_forall in Hrefs.
    destruct (Hrefs m Hm) as (alt & name & post & Hcaps & Hwhole & Hsplit & _ & Hshape).
    exists alt, name, (take (RegExp.index m) text), post.
    split_and!; try apply Hshape.
    + unfold RegExp.group. by rewrite Hcaps.
    + rewrite Hsplit at 1. rewrite Hwhole. by rewrite <- !(assoc_L (++)).
Qed.

(** The substitution copies what has no [$] in it. *)
Lemma getSubstitution_plain matched str position captures l rest :
  Forall (λ x, x ≠ chr "$") l →
  getSubstitution matched str position captures (l ++ rest)
  = l ++ getSubstitution matched str position captures rest.
Proof.
  induction 1 as [|c l Hc _ IH]; [done|].
  cbn [app getSubstitution]. rewrite bool_decide_eq_true_2 by done. by rewrite IH.
Qed.

Lemma getSubstitution_cons matched str position captures c rest :
  c ≠ chr "$" →
  getSubstitution matched str position captures (c :: rest)
  = c :: getSubstitution matched str position captures rest.
Proof. intros Hc. cbn [getSubstitution]. by rewrite bool_decide_eq_true_2. Qed.

(** A reference [$1] or [$2] that no digit follows, for a pattern with two
    groups. *)
Lemma getSubstitution_group matched str position alt name d c rest :
  d = chr "1" ∨ d = chr "2" → Number.isDigit c = false →
  getSubstitution matched str position [alt; name] (chr "$" :: d :: c :: rest)
  = (if bool_decide (d = chr "1") then alt else name)
    ++ getSubstitution matched str position [alt; name] (c :: rest).
Proof.
  intros Hd Hc. cbn [getSubstitution].
  rewrite (bool_decide_eq_false_2 (chr "$" ≠ chr "$")) by (intros Hne; by apply Hne).
  rewrite (bool_decide_eq_false_2 (d = chr "$")) by (by destruct Hd as [-> | ->]).
  rewrite (bool_decide_eq_false_2 (d = chr "&")) by (by destruct Hd as [-> | ->]).
  rewrite (bool_decide_eq_false_2 (d = chr "`")) by (by destruct Hd as [-> | ->]).
  rewrite (bool_decide_eq_false_2 (d = chr "'")) by (by destruct Hd as [-> | ->]).
  replace (Number.isDigit d) with true by (by destruct Hd as [-> | ->]).
  rewrite Hc. cbn [andb]. by destruct Hd as [-> | ->].
Qed.

Lemma string_of_uint_plain (u : Decimal.uint) :
  Forall (λ x, x ≠ chr "$") (js (NilEmpty.string_of_uint u)).
Proof.
  induction u; cbn [NilEmpty.string_of_uint]; unfold js in *;
    cbn [list_ascii_of_string fmap list_fmap] in *; try constructor; try done.
Qed.

Lemma decimal_plain z : Forall (λ x, x ≠ chr "$") (decimal z).
Proof.
  unfold decimal. destruct (Z.to_int z) as [u|u]; cbn [NilZero.string_of_int].
  - unfold NilZero.string_of_uint. destruct u; try apply string_of_uint_plain.
    by repeat constructor.
  - unfold js. cbn [list_ascii_of_string fmap list_fmap]. constructor; [done|].
    unfold NilZero.string_of_uint. destruct u; try apply string_of_uint_plain.
    by repeat constructor.
Qed.

(** The substitution of the template of [displayResults] for one image
    reference, when the server URL has no [$] in it. *)
Lemma imageTemplate_substitution text url cacheBuster m :
  imageRef text m → Forall (λ x, x ≠ chr "$") url →
  getSubstitution (RegExp.whole m) text (RegExp.index m) (RegExp.captures m)
                  (imageTemplate url cacheBuster)
  = js "![" ++ RegExp.group m 1 ++ js "](" ++ url ++ js "/outputs/images/"
    ++ RegExp.group m 2 ++ js "?t=" ++ decimal cacheBuster ++ js ")".
Proof.
  intros (alt & name & post & Hcaps & _) Hurl.
  unfold RegExp.group. rewrite Hcaps. cbn [lookup list_lookup default Nat.sub].
  unfold imageTemplate.
  change (js "![$1](") with (js "![" ++ chr "$" :: chr "1" :: chr "]" :: js "(").
  change (js "/outputs/images/$2?t=")
    with (js "/outputs/images/" ++ chr "$" :: chr "2" :: chr "?" :: js "t=").
  rewrite <- !(assoc_L (++)).
  rewrite getSubstitution_plain by (by repeat constructor).
  cbn [app]. rewrite getSubstitution_group by (by auto).
  rewrite bool_decide_eq_true_2 by done.
  rewrite getSubstitution_cons by done.
  rewrite (getSubstitution_plain _ _ _ _ (js "(")) by (by repeat constructor).
  rewrite getSubstitution_plain by done.
  rewrite getSubstitution_plain by (by repeat constructor).
  cbn [app]. rewrite getSubstitution_group by (by auto).
  rewrite bool_decide_eq_false_2 by done.
  rewrite getSubstitution_cons by done.
  rewrite (getSubstitution_plain _ _ _ _ (js "t=")) by (by repeat constructor).
  rewrite getSubstitution_plain by apply decimal_plain.
  rewrite <- (right_id_L [] (++) (js ")")) at 1.
  rewrite getSubstitution_plain by (by repeat constructor).
  cbn [getSubstitution id]. rewrite (right_id_L [] (++)).
  done.
Qed.

Lemma spliceMatches_ext (f g : RegExp.result → list N) matches text :
  Forall (λ m, f m = g m) matches →
  spliceMatches f matches text = spliceMatches g matches text.
Proof.
  unfold spliceMatches. generalize (@nil N, 0). intros start Hall. f_equal.
  revert start. induction Hall as [|m matches Hm _ IH]; intros [acc next]; [done|].
  cbn [foldl]. by rewrite Hm, IH.
Qed.

Lemma imageRef_bang text m : imageRef text m → chr "!" ∈ text.
Proof.
  intros (alt & name & post & _ & Hwhole & -> & _). rewrite Hwhole.
  apply elem_of_app. right. apply elem_of_app. left.
  change (js "![") with (chr "!" :: js "["). apply elem_of_app. left. left.
Qed.

(** X19.  The text [displayResults] hands to the Markdown renderer in
    document mode.  A result without [!] is handed over unchanged.  When
    the server URL has no [$] in it, every image reference
    [![alt](images/name)] found by the pattern becomes
    [![alt](URL/outputs/images/name?t=stamp)], with the alternative text and
    the file name kept and the URL the one [downloadZip] fetches for that
    name, and the text between the references stays as it is. *)
Theorem rendered_markdown_links text url cacheBuster :
  ((chr "!" ∉ text) → renderedMarkdown text url cacheBuster = text) ∧
  ((chr "$" ∉ url) →
   renderedMarkdown text url cacheBuster
   = spliceMatches
       (λ m, js "![" ++ RegExp.group m 1 ++ js "](" ++ url ++ js "/outputs/images/"
             ++ RegExp.group m 2 ++ js "?t=" ++ decimal cacheBuster ++ js ")")
       (imageMatches text) text).
Proof.
  pose proof (imageMatches_refs text) as Hrefs. split.
  - intros Hbang. unfold renderedMarkdown.
    destruct (imageMatches text) as [|m matches]; [done|].
    apply Forall_cons_1 in Hrefs as [Hm _]. by apply imageRef_bang in Hm.
  - intros Hurl. unfold renderedMarkdown, replaceMatches.
    apply spliceMatches_ext. eapply Forall_impl; [exact Hrefs|].
    intros m Hm. cbn beta. apply (imageTemplate_substitution text); [done|].
    apply Forall_forall. by intros x Hx ->.
Qed.

(** A server URL with [$1] in it is not copied: the reference is expanded
    inside the link, which then differs from the URL [downloadZip] fetches. *)
Remark dollar_in_server_url :
  renderedMarkdown (js "![a](images/0.jpg)") (js "http://h/$1") 7
  = js "![a](http://h/a/outputs/images/0.jpg?t=7)".
Proof. by vm_compute. Qed.

End images.

(** ** The size fields of an OCR request *)

Section sizes.
Import Binary64.
Local Open Scope Z_scope.






(** A numeral of 400 digits is read as Infinity, and sent; a numeral above
    [2 ** 53] is rounded; [-0] and a text without a number give the
    defaults; digits are read up to the first character that is none. *)
Remark sizes_of_unusual_fields :
  sizesSent (repeat (chr "9") 400) (js "9007199254740993")
  = (S754_infinity false, ofZ 9007199254740992) ∧
  sizesSent (js "-0") (js "large") = (ofZ 1024, ofZ 640) ∧
  sizesSent (js " -12px") (js "0x10") = (ofZ (-12), ofZ 16).
Proof. by vm_compute. Qed.

End sizes.

(** ** showMessage at the end of performOCR *)

Section messages.
Implicit Types (s needle : list N).

Lemma includes_occursIn needle s : includes needle s = true ↔ occursIn needle s.
Proof.
  induction s as [|c s IH]; cbn [includes].
  - destruct (stripPrefix needle []) as [r|] eqn:Hp.
    + apply stripPrefix_Some in Hp. split; [|done]. intros _. exists [], r. done.
    + split; [done|]. intros (before & after & Heq).
      symmetry in Heq. apply app_eq_nil in Heq as [-> [-> ->]%app_eq_nil].
      done.
  - destruct (stripPrefix needle (c :: s)) as [r|] eqn:Hp.
    + apply stripPrefix_Some in Hp. split; [|done]. intros _. by exists [], r.
    + rewrite IH. split.
      * intros (before & after & ->). by exists (c :: before), after.
      * intros ([|b before] & after & Heq).
        -- cbn [app] in Heq. apply stripPrefix_Some in Heq. congruence.
        -- injection Heq as -> ->. by exists before, after.
Qed.

Lemma occursIn_inside needle before s after :
  occursIn needle s → occursIn needle (before ++ s ++ after).
Proof.
  intros (b & a & ->). exists (before ++ b), (a ++ after).
  by rewrite <- !(assoc_L (++)).
Qed.

(** A needle without the separator does not straddle it. *)
Lemma occursIn_app_sep needle a c b :
  needle ≠ [] → c ∉ needle → occursIn needle (a ++ c :: b) →
  occursIn needle a ∨ occursIn needle b.
Proof.
  intros Hne Hc (before & after & Heq).
  apply app_eq_app in Heq as [l [[-> Heq]|[-> Heq]]].
  - symmetry in Heq. apply app_eq_app in Heq as [l' [[-> Heq]|[-> Heq]]].
    + left. exists before, l'. done.
    + destruct l' as [|x l'].
      * left. exists before, []. by rewrite !(right_id_L [] (++)).
      * injection Heq as <- _. exfalso. apply Hc, elem_of_app. right. left.
  - destruct l as [|x l].
    + cbn [app] in Heq. destruct needle as [|y needle]; [done|].
      injection Heq as <- _. exfalso. apply Hc. left.
    + injection Heq as <- ->. right. by exists l, after.
Qed.

Lemma occursIn_join needle c pieces :
  needle ≠ [] → c ∉ needle → occursIn needle (join [c] pieces) →
  ∃ piece, piece ∈ pieces ∧ occursIn needle piece.
Proof.
  intros Hne Hc. induction pieces as [|p [|q pieces] IH].
  - intros (before & after & Heq). symmetry in Heq.
    apply app_eq_nil in Heq as [_ [-> _]%app_eq_nil]. done.
  - intros Hin. exists p. split; [left|done].
  - change (join [c] (p :: q :: pieces)) with (p ++ c :: join [c] (q :: pieces)).
    intros Hin. destruct (occursIn_app_sep _ _ _ _ Hne Hc Hin) as [Hp|Hrest].
    + exists p. split; [left|done].
    + destruct (IH Hrest) as (piece & Hpiece & Hin'). exists piece.
      split; [by right|done].
Qed.

(** What occurs in the extracted text occurs in the raw text, unless it has
    a line feed in it. *)
Lemma occursIn_extracted needle text :
  needle ≠ [] → 10%N ∉ needle →
  occursIn needle (extractTextFromTokens text) → occursIn needle text.
Proof.
  intros Hne Hlf Hin. unfold extractTextFromTokens in Hin. cbn zeta in Hin.
  destruct (occursIn_join _ _ _ Hne Hlf Hin) as (piece & Hpiece & Hin0).
  clear Hin. rename Hin0 into Hin.
  apply list_elem_of_fmap in Hpiece as (box & -> & Hbox).
  apply list_elem_of_filter in Hbox as [_ Hbox].
  apply parsed_box_origin in Hbox
    as (i & m & _ & _ & (label & cs & Hlabel & _ & _ & _ & _ & _ & _ & Hspan) & Hcontent & _).
  rewrite Hcontent, Hlabel in Hin.
  destruct (trim_split label) as (ws & ws' & Hsplit & _).
  assert (occursIn needle label) as Hin'
      by (rewrite Hsplit; by apply occursIn_inside).
  assert (occursIn needle (take (matchEnd m - matchStart m) (drop (matchStart m) text)))
    as Hspan'.
  { rewrite Hspan. by apply (occursIn_inside _ (js "<|ref|>")). }
  rewrite <- (take_drop (matchStart m) text).
  rewrite <- (take_drop (matchEnd m - matchStart m) (drop (matchStart m) text)).
  by apply occursIn_inside.
Qed.

(** X21.  The message at the end of a successful [performOCR] and the
    result in the panel, in the modes other than ['document'].  The
    settlement puts a text into the panel, and [showMessage] then replaces
    the panel only if that text contains the placeholder sentence.  When the
    raw tokens do not contain the sentence the result stays: in mode ['ocr']
    the extracted text cannot contain what the raw tokens do not.  In the
    other modes the raw tokens are shown as they are, so raw tokens that do
    contain the sentence are replaced by the success message. *)
Theorem result_survives_message op r p raw :
  success r = true → raw_tokens r = Some raw → raw ≠ [] →
  prompt_type r ≠ js "document" →
  ∃ shown,
    resultsContent (settle op r p) = PanelText shown ∧
    (includes placeholder raw = false → completionMessage shown = None) ∧
    (prompt_type r ≠ js "ocr" →
     shown = raw ∧
     (includes placeholder raw = true →
      completionMessage shown
      = Some (js "<p class=" ++ [34%N] ++ js "success" ++ [34%N]
              ++ js ">OCR completed successfully!</p>"))).
Proof.
  intros Hs Hraw Hne Hmode.
  assert (truthy (raw_tokens r) = true) as Htruthy
      by (rewrite Hraw; by destruct raw).
  assert (placeholder ≠ []) as Hph by done.
  assert (10%N ∉ placeholder) as Hlf
      by (apply (bool_decide_eq_false_1 _); by vm_compute).
  unfold settle. rewrite Hs, Htruthy, Hraw. cbn [resultsContent default].
  rewrite (bool_decide_eq_false_2 (prompt_type r = js "document")) by done.
  case_bool_decide as Hocr.
  - exists (extractTextFromTokens raw). split_and!; [done| |done].
    intros Hnot. unfold completionMessage, showMessage.
    destruct (includes placeholder (extractTextFromTokens raw)) eqn:Hin; [|done].
    apply includes_occursIn, occursIn_extracted, includes_occursIn in Hin; [|done..].
    congruence.
  - exists raw. split_and!; [done| |].
    + intros Hnot. unfold completionMessage, showMessage. by rewrite Hnot.
    + intros _. split; [done|]. intros Hin.
      unfold completionMessage, showMessage. by rewrite Hin.
Qed.

Lemma result_survives_message_witness :
  ∃ shown,
    resultsContent
      (settle (mkOperation (Number.ofZ 10) (Number.ofZ 10) (js "free"))
              (mkOcrResult true (js "free") (js "x")
                 (Some (js "see: OCR results will appear here")) [])
              startOperation)
    = PanelText shown ∧
    completionMessage shown
    = Some (js "<p class=" ++ [34%N] ++ js "success" ++ [34%N]
            ++ js ">OCR completed successfully!</p>").
Proof.
  destruct (result_survives_message
              (mkOperation (Number.ofZ 10) (Number.ofZ 10) (js "free"))
              (mkOcrResult true (js "free") (js "x")
                 (Some (js "see: OCR results will appear here")) [])
              startOperation (js "see: OCR results will appear here"))
    as (shown & Hshown & _ & Hraw); [reflexivity|reflexivity|done|by vm_compute|].
  exists shown. split; [exact Hshown|].
  destruct Hraw as [_ Hmsg]; [by vm_compute|]. apply Hmsg. by vm_compute.
Defined.

End messages.

(** ** cleanTextForTTS *)

Section cleaning.
Implicit Types (s : list N).

(** In the collapsed text every white-space character is a space and no two
    spaces are neighbours; it does not start with a space inside a run. *)
Lemma collapse_spaces inRun s :
  let out := collapseWhiteSpace inRun s in
  Forall (λ c, isWhiteSpace c = true → c = chr " ") out ∧
  (∀ i, out !! i = Some (chr " ") → out !! S i ≠ Some (chr " ")) ∧
  (inRun = true → head out ≠ Some (chr " ")).
Proof.
  cbn zeta. revert inRun. induction s as [|c s IH]; intros inRun.
  - cbn. split_and!; [constructor|done|done].
  - cbn [collapseWhiteSpace]. destruct (isWhiteSpace c) eqn:Hc.
    + destruct (IH true) as (Hall & Hadj & Hhead). destruct inRun.
      * split_and!; try done.
      * split_and!; [by constructor| |done].
        intros [|i]; cbn [lookup list_lookup].
        -- intros _. specialize (Hhead eq_refl).
           by destruct (collapseWhiteSpace true s).
        -- apply Hadj.
    + destruct (IH false) as (Hall & Hadj & _).
      split_and!.
      * constructor; [congruence|done].
      * intros [|i]; cbn [lookup list_lookup].
        -- intros [= ->]. by vm_compute in Hc.
        -- apply Hadj.
      * intros _. cbn [head]. intros [= ->]. by vm_compute in Hc.
Qed.

Lemma collapse_empty s :
  Forall (λ c, isWhiteSpace c = true) (collapseWhiteSpace false s) ↔
  Forall (λ c, isWhiteSpace c = true) s.
Proof.
  assert (∀ inRun, Forall (λ c, isWhiteSpace c = true) (collapseWhiteSpace inRun s) ↔
                   Forall (λ c, isWhiteSpace c = true) s) as Hgen; [|apply Hgen].
  induction s as [|c s IH]; intros inRun; [done|].
  cbn [collapseWhiteSpace]. destruct (isWhiteSpace c) eqn:Hc.
  - destruct inRun; rewrite ?Forall_cons, IH; split;
      try (intros [_ ?]); try (intros ?); repeat split; try done.
  - rewrite !Forall_cons, IH. rewrite Hc. done.
Qed.

Lemma trim_all_white s : Forall (λ c, isWhiteSpace c = true) s ↔ trim s = [].
Proof.
  split.
  - intros Hall. unfold trim. by rewrite trimStart_all_white.
  - intros Hnil. destruct (trim_split s) as (before & after & Hs & Hb & Ha).
    rewrite Hnil in Hs. rewrite Hs. by apply Forall_app.
Qed.

(** X22.  What [cleanTextForTTS] returns, whatever its replacements of
    Markdown markup leave: every white-space character of the result is a
    plain space, no two spaces are neighbours, and the result neither starts
    nor ends with one.  It is empty exactly when the text is missing or empty,
    or when nothing but white space is left after the markup is stripped,
    which is when the handler reports that the text is empty after
    cleaning. *)
Theorem cleaned_text_spacing stripMarkup text :
  let out := cleanTextForTTS stripMarkup text in
  Forall (λ c, isWhiteSpace c = true → c = chr " ") out ∧
  (∀ i, out !! i = Some (chr " ") → out !! S i ≠ Some (chr " ")) ∧
  (∀ c, head out = Some c ∨ last out = Some c → isWhiteSpace c = false) ∧
  (out = [] ↔
   truthy text = false
   ∨ Forall (λ c, isWhiteSpace c = true) (stripMarkup (default [] text))).
Proof.
  unfold cleanTextForTTS. destruct (truthy text) eqn:Htext; cbn [negb].
  2:{ split_and!; [constructor|done|by intros c [?|?]|]. split; [by left|done]. }
  set (collapsed := collapseWhiteSpace false (stripMarkup (default [] text))).
  destruct (collapse_spaces false (stripMarkup (default [] text)))
    as (Hall & Hadj & _). fold collapsed in Hall, Hadj.
  destruct (trim_split collapsed) as (before & after & Hsplit & _ & _).
  split_and!.
  - rewrite Hsplit in Hall. by apply Forall_app in Hall as [_ [? _]%Forall_app].
  - intros i Hi Hi'. apply (Hadj (length before + i)).
    + rewrite Hsplit, lookup_app_r by lia.
      replace (length before + i - length before) with i by lia.
      by apply lookup_app_l_Some.
    + rewrite Hsplit. replace (S (length before + i)) with (length before + S i) by lia.
      rewrite lookup_app_r by lia.
      replace (length before + S i - length before) with (S i) by lia.
      by apply lookup_app_l_Some.
  - intros c [Hhead|Hlast].
    + destruct (trim collapsed) as [|x r] eqn:Ht; [done|].
      injection Hhead as ->. by apply (trim_head collapsed c r).
    + apply last_Some in Hlast as [r Hr]. by apply (trim_last collapsed c r).
  - rewrite <- trim_all_white. unfold collapsed. rewrite collapse_empty.
    split; [by right|]. by intros [?|?].
Qed.

End cleaning.
